(** * OpenMOC segment traversal (src/TraverseSegments.cpp)

    A shallow embedding of the segment-traversal engine of OpenMOC and the
    properties of its routines: the axial mesh search [findMeshIndex], the
    on-the-fly segmenters [traceSegmentsOTF] and [traceStackOTF], the two-way
    stack tracer [traceStackTwoWay], the replay of stored segments
    [traceSegmentsExplicit] and the dispatcher loops [loopOverTracks2D],
    [loopOverTracksExplicit], [loopOverTracksByTrackOTF],
    [loopOverTracksByStackOTF] and [loopOverTracksByStackTwoWay].

    Conventions of the embedding.
    - [FP_PRECISION] and [double] values are idealised as rationals [Q]:
      arithmetic is exact.  The libm functions [cos] and [sin] and the
      constants [TINY_MOVE] and [M_PI] are not part of the translated file and
      are parameters of the development.
    - [int] values are integers [Z]; the one sum that can leave the 32-bit
      range, [imin + imax] of the binary search, is written with its
      wrap-around.
    - A raw C++ array is a list; reading outside of it is undefined behaviour
      and makes the computation end in [Undefined].
    - [log_printf(ERROR, ...)] raises: the computation ends in [Fatal].
    - A kernel is known by the calls it receives: a segmenter returns the list
      of its [execute] calls, in order.  [traceSegmentsOTF] returns besides,
      as ghost values, the final value of its flag [segments_complete] and the
      length [dist_3D] of every pass of its inner loop, executed or not.
    - A [while] loop runs on fuel, one unit for each pass; a result [Ok] is a
      result of the C++ loop.
    - A dispatcher loop returns the calls it makes, on the kernel and on the
      hook [onTrack], in order, as one thread runs it; the loop that writes
      into the track objects, [loopOverTracksByStackTwoWay], threads them
      through its passes and returns them too. *)

From Stdlib Require Import String ZArith QArith Qround Qabs Lqa Lia Bool List
  Sorted.
Import ListNotations.

Local Open Scope Z_scope.
Local Open Scope Q_scope.

(* ================================================================= *)
(** ** Outcomes of a computation *)

(** Modelled from the spec: [log_printf] is not in src/; at level ERROR it
    reports a fatal error that aborts the run (the [return -1] after it is
    not reached). *)
Inductive outcome (A : Type) : Type :=
| Ok (a : A)            (* normal return *)
| Fatal (msg : string)  (* log_printf(ERROR, msg) *)
| Undefined             (* undefined behaviour of the C++ code *)
| OutOfFuel.            (* the loop bound of the model was reached *)

Arguments Ok {A} a.
Arguments Fatal {A} msg.
Arguments Undefined {A}.
Arguments OutOfFuel {A}.

Definition bind {A B : Type} (m : outcome A) (k : A -> outcome B) : outcome B :=
  match m with
  | Ok a => k a
  | Fatal msg => Fatal msg
  | Undefined => Undefined
  | OutOfFuel => OutOfFuel
  end.

Notation "x <- m ;; k" := (bind m (fun x => k))
  (at level 61, m at next level, right associativity).
Notation "' p <- m ;; k" := (bind m (fun x => let p := x in k))
  (at level 61, p pattern, m at next level, right associativity).

(* ================================================================= *)
(** ** Machine integers and arrays *)

(** Two's complement wrap-around of a 32-bit [int]. *)
Definition int_wrap (z : Z) : Z := ((z + 2 ^ 31) mod 2 ^ 32 - 2 ^ 31)%Z.

Definition int_add (a b : Z) : Z := int_wrap (a + b).

(** Integer division of C++ truncates towards zero. *)
Definition int_div (a b : Z) : Z := Z.quot a b.

(** [a[i]] for a raw array [a]. *)
Definition read {A : Type} (a : list A) (i : Z) : outcome A :=
  if (i <? 0)%Z then Undefined
  else match nth_error a (Z.to_nat i) with
       | Some v => Ok v
       | None => Undefined
       end.

(** Comparisons of floating-point values, as booleans. *)
Definition Qltb (x y : Q) : bool := negb (Qle_bool y x).
Definition Qgtb (x y : Q) : bool := Qltb y x.
Definition Qleb (x y : Q) : bool := Qle_bool x y.

(** An array of strictly increasing values. *)
Fixpoint strictly_increasing (l : list Q) : bool :=
  match l with
  | [] => true
  | x :: tl =>
      match tl with
      | [] => true
      | y :: _ => Qltb x y && strictly_increasing tl
      end
  end.

(* ================================================================= *)
(** ** findMeshIndex (lines 791-821) *)

Definition mesh_range_msg : string :=
  "Value out of the mesh range in binary search".

(** The [while (imax - imin > 1)] loop.  One unit of fuel is one iteration. *)
Fixpoint findMeshIndex_loop (fuel : nat) (values : list Q) (val : Q)
    (sign imin imax : Z) : outcome Z :=
  if (imax - imin >? 1)%Z then
    match fuel with
    | O => OutOfFuel
    | S fuel' =>
        let imid := int_div (int_add imin imax) 2 in
        v <- read values imid ;;
        if Qgtb val v then findMeshIndex_loop fuel' values val sign imid imax
        else if Qltb val v then findMeshIndex_loop fuel' values val sign imin imid
        else if (sign >? 0)%Z then Ok imid
        else Ok (imid - 1)%Z
    end
  else Ok imin.

Definition findMeshIndex (values : list Q) (size : Z) (val : Q) (sign : Z)
  : outcome Z :=
  let imin := 0%Z in
  let imax := (size - 1)%Z in
  vmin <- read values imin ;;
  if Qltb val vmin then Fatal mesh_range_msg
  else
    vmax <- read values imax ;;
    if Qgtb val vmax then Fatal mesh_range_msg
    else findMeshIndex_loop (Z.to_nat size) values val sign imin imax.

(** The array of the specification's example: [0, 1, 2, 3]. *)
Definition mesh0123 : list Q := [0; 1; 2; 3].

(* ================================================================= *)
(** ** Data model *)

(** A [Point]: the three coordinates of its [_xyz] array. *)
Record Point : Type := mkPoint { getX : Q; getY : Q; getZ : Q }.

(** A [segment]; a material is known by its identifier. *)
Record segment : Type := mkSegment {
  _length : Q;
  _material : Z;
  _region_id : Z;
  _cmfd_surface_fwd : Z;
  _cmfd_surface_bwd : Z
}.

(** A 2D [Track] with its segments; [getNumSegments] is their number. *)
Record Track : Type := mkTrack {
  _start : Point;
  _end : Point;
  _phi : Q;
  _azim_index : Z;
  _xy_index : Z;
  _segments : list segment
}.

Definition getNumSegments (t : Track) : Z := Z.of_nat (length (_segments t)).

(** What the segmenters read and write of a [Track3D]. *)
Record Track3D : Type := mkTrack3D {
  _start_3D : Point;
  _end_3D : Point;
  _theta : Q
}.

(** An extruded FSR: its axial cells and its own axial mesh. *)
Record ExtrudedFSR : Type := mkExtrudedFSR {
  _num_fsrs : Z;
  _mesh : list Q;
  _fsr_ids : list Z;
  _materials : list Z
}.

(** The CMFD mesh, through the one method the segmenters call:
    [findCmfdSurfaceOTF(cell, z, surface_2D)]. *)
Record Cmfd : Type := mkCmfd {
  findCmfdSurfaceOTF : Z -> Q -> Z -> Z
}.

(** The geometry: the table of extruded FSRs, [getCmfdCell] and the CMFD mesh
    ([None] for a NULL pointer). *)
Record Geometry : Type := mkGeometry {
  _extruded_FSR_lookup : list ExtrudedFSR;
  getCmfdCell : Z -> Z;
  getCmfd : option Cmfd
}.

Definition getExtrudedFSR (g : Geometry) (id : Z) : outcome ExtrudedFSR :=
  read (_extruded_FSR_lookup g) id.

(** The members of [TraverseSegments] the segmenters use; [_global_z_mesh] is
    [None] for a NULL pointer. *)
Record TraverseSegments : Type := mkTraverseSegments {
  _geometry : Geometry;
  _global_z_mesh : option (list Q);
  _mesh_size : Z
}.

(** The arguments of one call [kernel->execute(length, material, fsr_id,
    track_idx, cmfd_surface_fwd, cmfd_surface_bwd)]. *)
Record event : Type := mkEvent {
  ev_length : Q;
  ev_material : Z;
  ev_fsr_id : Z;
  ev_track_idx : Z;
  ev_cmfd_surface_fwd : Z;
  ev_cmfd_surface_bwd : Z
}.

(** [(c > 0) - (c < 0)]. *)
Definition sign_of (c : Q) : Z :=
  ((if Qgtb c 0 then 1 else 0) - (if Qltb c 0 then 1 else 0))%Z.

(** The indices of [for (int i = lo; i < hi; i++)]. *)
Definition zrange (lo hi : Z) : list Z :=
  map (fun k => (lo + Z.of_nat k)%Z) (seq 0 (Z.to_nat (hi - lo))).

(** The calls of a loop body over a list of indices, in order. *)
Fixpoint for_each {A B : Type} (l : list A) (body : A -> outcome (list B))
  : outcome (list B) :=
  match l with
  | [] => Ok []
  | a :: tl =>
      evs <- body a ;;
      evs' <- for_each tl body ;;
      Ok (evs ++ evs')
  end.

(** Local state of the segment loop of [traceSegmentsOTF]. *)
Record otf_state : Type := mkOtf {
  z_coord : Q;
  z_ind : Z;
  remaining_length_2D : Q;
  segments_complete : bool
}.

(** The scan for the starting 2D segment (lines 306-319): the remaining
    [start_dist_2D] and [seg_start]. *)
Fixpoint find_start_segment (segments_2D : list segment) (start_dist_2D : Q)
    (seg_start : Z) : Q * Z :=
  match segments_2D with
  | [] => (start_dist_2D, seg_start)
  | sg :: rest =>
      let seg_len_2D := _length sg in
      if Qgtb start_dist_2D seg_len_2D
      then find_start_segment rest (start_dist_2D - seg_len_2D) (seg_start + 1)%Z
      else (start_dist_2D, seg_start)
  end.

(** [a[i] = v] for a raw array [a]. *)
Fixpoint list_update {A : Type} (a : list A) (n : nat) (v : A) : list A :=
  match a, n with
  | [], _ => []
  | _ :: tl, O => v :: tl
  | x :: tl, S n' => x :: list_update tl n' v
  end.

Definition write {A : Type} (a : list A) (i : Z) (v : A) : outcome (list A) :=
  if (i <? 0)%Z || (Z.of_nat (length a) <=? i)%Z then Undefined
  else Ok (list_update a (Z.to_nat i) v).

(** The loop that reverses the segments of the flattened track in place
    (lines 930-934 and 957-961), over the indices [s] of its passes. *)
Fixpoint reverse_loop (passes : list Z) (num_segments : Z)
    (segments : list segment) : outcome (list segment) :=
  match passes with
  | [] => Ok segments
  | s :: rest =>
      tmp_segment <- read segments (num_segments - s - 1)%Z ;;
      seg_s <- read segments s ;;
      segments <- write segments (num_segments - s - 1)%Z seg_s ;;
      segments <- write segments s tmp_segment ;;
      reverse_loop rest num_segments segments
  end.

Definition reverse_segments (num_segments : Z) (segments : list segment)
  : outcome (list segment) :=
  reverse_loop (zrange 0 (int_div num_segments 2)) num_segments segments.

(** The loop that flips the CMFD surfaces of the segments (lines 937-941 and
    964-968). *)
Fixpoint flip_loop (passes : list Z) (segments : list segment)
  : outcome (list segment) :=
  match passes with
  | [] => Ok segments
  | s :: rest =>
      sg <- read segments s ;;
      let tmp_surface := _cmfd_surface_fwd sg in
      segments <- write segments s
                    (mkSegment (_length sg) (_material sg) (_region_id sg)
                               (_cmfd_surface_bwd sg) tmp_surface) ;;
      flip_loop rest segments
  end.

Definition flip_surfaces (num_segments : Z) (segments : list segment)
  : outcome (list segment) :=
  flip_loop (zrange 0 num_segments) segments.

(** A 3D track is named by its indices [(a, i, p, z)] in [tracks_3D]. *)
Definition track_id : Type := (Z * Z * Z * Z)%type.

(** The calls a kernel receives. *)
Inductive kernel_call : Type :=
| newTrack (track : track_id)
| setDirection (forward : bool)
| execute (e : event)
| post.

(** The calls the dispatcher makes: on a kernel, [setNumSegments] on a track,
    and the hook [onTrack(track, segments)], whose segments are the temporary
    buffer [getTemporarySegments(tid, z)]. *)
Inductive call : Type :=
| onKernel (k : kernel_call)
| setNumSegments (track : track_id) (n : Z)
| onTrack (track : track_id) (segments : Z * Z).

(** Modelled from the spec: the class MOCKernel is not in src/; its
    [getCount] is the number of segments received since the last
    [newTrack]. *)
Definition getCount (received : list event) : Z := Z.of_nat (length received).

(** What the dispatcher loops read of the [TrackGenerator3D]. *)
Record TrackGenerator3D : Type := mkTrackGenerator3D {
  getNum2DTracks : Z;
  get2DTracksArray : list Track;
  get3DTracks : Z -> Z -> Z -> list Track3D;
  getTracksPerStack : Z -> Z -> Z -> Z;
  getNumPolar : Z;
  getZSpacing : Z -> Z -> Q
}.

Definition is_onTrack (c : call) : bool :=
  match c with
  | onTrack _ _ => true
  | _ => false
  end.

Section Traversal.

(** The libm functions and the constants of constants.h. *)
Variables (cos sin : Q -> Q) (TINY_MOVE M_PI : Q).

(* ================================================================= *)
(** ** traceSegmentsOTF (lines 288-462) *)

Section SegmentsOTF.

Variables (geometry : Geometry) (cos_theta sin_theta : Q) (sign : Z).

(** The distances of one pass of the [while] loop (lines 371-394):
    [(dist_2D, dist_3D, z_move)]. *)
Definition shortest_distance (axial_mesh : list Q) (st : otf_state)
  : outcome (Q * Q * Z) :=
  z_dist_3D <-
    (if (sign >? 0)%Z
     then m <- read axial_mesh (z_ind st + 1)%Z ;; Ok ((m - z_coord st) / cos_theta)
     else m <- read axial_mesh (z_ind st) ;; Ok ((m - z_coord st) / cos_theta)) ;;
  let seg_dist_3D := remaining_length_2D st / sin_theta in
  if Qleb z_dist_3D seg_dist_3D
  then Ok (z_dist_3D * sin_theta, z_dist_3D, sign)
  else Ok (remaining_length_2D st, seg_dist_3D, 0%Z).

(** The CMFD surfaces of a segment and the axial height at its end
    (lines 399-432): [(z_coord, cmfd_surface_fwd, cmfd_surface_bwd)]. *)
Definition otf_surfaces (seg : segment) (st : otf_state) (fsr_id : Z)
    (dist_2D dist_3D : Q) (z_move : Z) : Q * Z * Z :=
  let cmfd_surface_bwd := (-1)%Z in
  let cmfd_surface_fwd := (-1)%Z in
  match getCmfd geometry with
  | Some cmfd =>
      if Qgtb dist_3D TINY_MOVE then
        let cmfd_surface_bwd :=
          if Qleb (_length seg - remaining_length_2D st) TINY_MOVE
          then _cmfd_surface_bwd seg else cmfd_surface_bwd in
        let next_dist_3D := (remaining_length_2D st - dist_2D) / sin_theta in
        let cmfd_surface_fwd :=
          if (z_move =? 0)%Z || Qleb next_dist_3D TINY_MOVE
          then _cmfd_surface_fwd seg else cmfd_surface_fwd in
        let cmfd_cell := getCmfdCell geometry fsr_id in
        let cmfd_surface_bwd :=
          findCmfdSurfaceOTF cmfd cmfd_cell (z_coord st) cmfd_surface_bwd in
        let z_coord' := z_coord st + cos_theta * dist_3D in
        let cmfd_surface_fwd :=
          findCmfdSurfaceOTF cmfd cmfd_cell z_coord' cmfd_surface_fwd in
        (z_coord', cmfd_surface_fwd, cmfd_surface_bwd)
      else (z_coord st + dist_3D * cos_theta, cmfd_surface_fwd, cmfd_surface_bwd)
  | None => (z_coord st + dist_3D * cos_theta, cmfd_surface_fwd, cmfd_surface_bwd)
  end.

(** The loop [while (remaining_length_2D > 0)] over one 2D segment
    (lines 369-456): the state at its end, the [execute] calls made and, as a
    ghost, the length [dist_3D] of every pass, executed or not. *)
Fixpoint transport_2D_segment (fuel : nat) (seg : segment)
    (extruded_FSR : ExtrudedFSR) (axial_mesh : list Q) (num_fsrs : Z)
    (st : otf_state) : outcome (otf_state * list event * list Q) :=
  if Qgtb (remaining_length_2D st) 0 then
    match fuel with
    | O => OutOfFuel
    | S fuel' =>
        '(dist_2D, dist_3D, z_move) <- shortest_distance axial_mesh st ;;
        fsr_id <- read (_fsr_ids extruded_FSR) (z_ind st) ;;
        let '(z_coord', cmfd_surface_fwd, cmfd_surface_bwd) :=
          otf_surfaces seg st fsr_id dist_2D dist_3D z_move in
        executed <-
          (if Qgtb dist_3D TINY_MOVE
           then material <- read (_materials extruded_FSR) (z_ind st) ;;
                Ok [mkEvent dist_3D material fsr_id 0
                            cmfd_surface_fwd cmfd_surface_bwd]
           else Ok []) ;;
        let remaining' := remaining_length_2D st - dist_2D in
        let z_ind' := (z_ind st + z_move)%Z in
        if (z_ind' <? 0)%Z || (z_ind' >=? num_fsrs)%Z then
          let z_ind'' := if (z_ind' <? 0)%Z then 0%Z else (num_fsrs - 1)%Z in
          Ok (mkOtf z_coord' z_ind'' remaining' true, executed, [dist_3D])
        else
          '(st', evs, dists) <-
            transport_2D_segment fuel' seg extruded_FSR axial_mesh num_fsrs
              (mkOtf z_coord' z_ind' remaining' false) ;;
          Ok (st', executed ++ evs, dist_3D :: dists)
    end
  else Ok (st, [], []).

(** The loop over the 2D segments from [seg_start] on (lines 347-461): the
    flag [segments_complete] at its end, the [execute] calls made and the
    ghost lengths of all passes. *)
Fixpoint otf_segments_loop (fuel : nat) (contains_global_z_mesh : bool)
    (segments_2D : list segment) (first_segment : bool) (start_dist_2D : Q)
    (num_fsrs : Z) (axial_mesh : list Q) (z_coord0 : Q) (z_ind0 : Z)
  : outcome (bool * list event * list Q) :=
  match segments_2D with
  | [] => Ok (false, [], [])
  | seg :: rest =>
      extruded_FSR <- getExtrudedFSR geometry (_region_id seg) ;;
      '(num_fsrs, axial_mesh, z_ind0) <-
        (if first_segment || contains_global_z_mesh
         then Ok (num_fsrs, axial_mesh, z_ind0)
         else
           let num_fsrs := _num_fsrs extruded_FSR in
           let axial_mesh := _mesh extruded_FSR in
           z_ind0 <- findMeshIndex axial_mesh (num_fsrs + 1)%Z z_coord0 sign ;;
           Ok (num_fsrs, axial_mesh, z_ind0)) ;;
      let remaining_length_2D := _length seg - start_dist_2D in
      '(st, evs, dists) <-
        transport_2D_segment fuel seg extruded_FSR axial_mesh num_fsrs
          (mkOtf z_coord0 z_ind0 remaining_length_2D false) ;;
      if segments_complete st then Ok (true, evs, dists)
      else
        '(complete, evs', dists') <-
          otf_segments_loop fuel contains_global_z_mesh rest false 0
            num_fsrs axial_mesh (z_coord st) (z_ind st) ;;
        Ok (complete, evs ++ evs', dists ++ dists')
  end.

End SegmentsOTF.

(** The value of [segments_complete] when the function returns, its
    [execute] calls, and the ghost lengths of all passes. *)
Definition traceSegmentsOTF (fuel : nat) (ts : TraverseSegments)
    (flattened_track : Track) (start : Point) (theta : Q)
  : outcome (bool * list event * list Q) :=
  let phi := _phi flattened_track in
  let cos_theta := cos theta in
  let sin_theta := sin theta in
  let sign := sign_of cos_theta in
  let x_start_3D := getX start in
  let x_start_2D := getX (_start flattened_track) in
  let z_coord := getZ start in
  let start_dist_2D := (x_start_3D - x_start_2D) / cos phi in
  let segments_2D := _segments flattened_track in
  let '(start_dist_2D, seg_start) :=
    find_start_segment segments_2D start_dist_2D 0 in
  let geometry := _geometry ts in
  '(contains_global_z_mesh, num_fsrs, axial_mesh) <-
    match _global_z_mesh ts with
    | Some mesh => Ok (true, _mesh_size ts, mesh)
    | None =>
        sg <- read segments_2D seg_start ;;
        extruded_FSR <- getExtrudedFSR geometry (_region_id sg) ;;
        Ok (false, _num_fsrs extruded_FSR, _mesh extruded_FSR)
    end ;;
  z_ind <- findMeshIndex axial_mesh (num_fsrs + 1)%Z z_coord sign ;;
  otf_segments_loop geometry cos_theta sin_theta sign fuel
    contains_global_z_mesh (skipn (Z.to_nat seg_start) segments_2D) true
    start_dist_2D num_fsrs axial_mesh z_coord z_ind.

(* ================================================================= *)
(** ** traceStackOTF (lines 481-776) *)

Section StackOTF.

Variables (geometry : Geometry) (cos_theta sin_theta : Q) (sign : Z)
          (z_spacing track_spacing_3D : Q) (num_z_stack : Z).

(** The z-stack track indexes that cross an axial cell (lines 576-584):
    [(start_track, start_full, end_full, end_track)]. *)
Definition stack_indexes (z_min z_max first_track_lower_z first_track_upper_z : Q)
  : Z * Z * Z * Z :=
  let start_track := Qceiling ((z_min - first_track_upper_z) / z_spacing) in
  let start_full := Qceiling ((z_min - first_track_lower_z) / z_spacing) in
  let end_full := Qceiling ((z_max - first_track_upper_z) / z_spacing) in
  let end_track := Qceiling ((z_max - first_track_lower_z) / z_spacing) in
  let start_track := Z.max start_track 0 in
  let end_track := Z.min end_track num_z_stack in
  (start_track, start_full, end_full, end_track).

(** The index ranges of the four loops over stack members (lines 589, 642,
    680 and 730). *)
Definition lower_range (ix : Z * Z * Z * Z) : list Z :=
  let '(start_track, start_full, end_full, end_track) := ix in
  let min_lower := Z.min start_full end_full in
  zrange start_track min_lower.

Definition full_range (ix : Z * Z * Z * Z) : list Z :=
  let '(start_track, start_full, end_full, end_track) := ix in
  zrange start_full end_full.

Definition straddle_range (ix : Z * Z * Z * Z) : list Z :=
  let '(start_track, start_full, end_full, end_track) := ix in
  zrange end_full start_full.

Definition upper_range (ix : Z * Z * Z * Z) : list Z :=
  let '(start_track, start_full, end_full, end_track) := ix in
  let min_upper := Z.max start_full end_full in
  zrange min_upper end_track.

Section Cell.

Variables (seg : segment) (fsr_id material : Z) (z_min z_max : Q)
          (first_start_z first_end_z : Q)
          (first_track_lower_z first_track_upper_z : Q).

(** Lower tracks that do not cross the entire 2D length (lines 589-630). *)
Definition lower_track (first_seg_len_3D : Q) (i : Z) : list event :=
  let seg_len_3D := first_seg_len_3D + inject_Z i * track_spacing_3D in
  if Qgtb seg_len_3D TINY_MOVE then
    let cmfd_surface_fwd := (-1)%Z in
    let cmfd_surface_bwd := (-1)%Z in
    let '(cmfd_surface_fwd, cmfd_surface_bwd) :=
      match getCmfd geometry with
      | Some cmfd =>
          let cmfd_cell := getCmfdCell geometry fsr_id in
          let start_z := first_track_lower_z + inject_Z i * z_spacing in
          let end_z := first_track_upper_z + inject_Z i * z_spacing in
          let dist_to_corner := Qabs ((z_min - start_z) / cos_theta) in
          if (sign >? 0)%Z then
            let cmfd_surface_fwd := _cmfd_surface_fwd seg in
            let cmfd_surface_fwd :=
              findCmfdSurfaceOTF cmfd cmfd_cell end_z cmfd_surface_fwd in
            let cmfd_surface_bwd :=
              if Qleb dist_to_corner TINY_MOVE
              then _cmfd_surface_bwd seg else cmfd_surface_bwd in
            let cmfd_surface_bwd :=
              findCmfdSurfaceOTF cmfd cmfd_cell z_min cmfd_surface_bwd in
            (cmfd_surface_fwd, cmfd_surface_bwd)
          else
            let cmfd_surface_fwd :=
              if Qleb dist_to_corner TINY_MOVE
              then _cmfd_surface_fwd seg else cmfd_surface_fwd in
            let cmfd_surface_fwd :=
              findCmfdSurfaceOTF cmfd cmfd_cell z_min cmfd_surface_fwd in
            let cmfd_surface_bwd := _cmfd_surface_bwd seg in
            let cmfd_surface_bwd :=
              findCmfdSurfaceOTF cmfd cmfd_cell end_z cmfd_surface_bwd in
            (cmfd_surface_fwd, cmfd_surface_bwd)
      | None => (cmfd_surface_fwd, cmfd_surface_bwd)
      end in
    [mkEvent seg_len_3D material fsr_id i cmfd_surface_fwd cmfd_surface_bwd]
  else [].

(** Tracks that cross the entire 2D length (lines 642-663). *)
Definition full_track (seg_len_3D : Q) (i : Z) : list event :=
  let cmfd_surface_fwd := _cmfd_surface_fwd seg in
  let cmfd_surface_bwd := _cmfd_surface_bwd seg in
  let '(cmfd_surface_fwd, cmfd_surface_bwd) :=
    match getCmfd geometry with
    | Some cmfd =>
        let cmfd_cell := getCmfdCell geometry fsr_id in
        let start_z := first_start_z + inject_Z i * z_spacing in
        let end_z := first_end_z + inject_Z i * z_spacing in
        (findCmfdSurfaceOTF cmfd cmfd_cell end_z cmfd_surface_fwd,
         findCmfdSurfaceOTF cmfd cmfd_cell start_z cmfd_surface_bwd)
    | None => (cmfd_surface_fwd, cmfd_surface_bwd)
    end in
  [mkEvent seg_len_3D material fsr_id i cmfd_surface_fwd cmfd_surface_bwd].

(** Tracks that cross both the upper and the lower axial boundary
    (lines 680-723). *)
Definition straddle_track (seg_len_3D : Q) (i : Z) : list event :=
  let cmfd_surface_bwd := (-1)%Z in
  let cmfd_surface_fwd := (-1)%Z in
  let '(cmfd_surface_fwd, cmfd_surface_bwd) :=
    match getCmfd geometry with
    | Some cmfd =>
        let cmfd_cell := getCmfdCell geometry fsr_id in
        let '(enter_z, exit_z) :=
          if (sign >? 0)%Z then (z_min, z_max) else (z_max, z_min) in
        let track_end_z := first_end_z + inject_Z i * z_spacing in
        let dist_to_corner := (track_end_z - exit_z) / cos_theta in
        let cmfd_surface_fwd :=
          if Qleb dist_to_corner TINY_MOVE
          then _cmfd_surface_fwd seg else cmfd_surface_fwd in
        let track_start_z := first_start_z + inject_Z i * z_spacing in
        let dist_to_corner := (enter_z - track_start_z) / cos_theta in
        let cmfd_surface_bwd :=
          if Qleb dist_to_corner TINY_MOVE
          then _cmfd_surface_bwd seg else cmfd_surface_bwd in
        (findCmfdSurfaceOTF cmfd cmfd_cell exit_z cmfd_surface_fwd,
         findCmfdSurfaceOTF cmfd cmfd_cell enter_z cmfd_surface_bwd)
    | None => (cmfd_surface_fwd, cmfd_surface_bwd)
    end in
  [mkEvent seg_len_3D material fsr_id i cmfd_surface_fwd cmfd_surface_bwd].

(** Upper tracks that do not cross the entire 2D length (lines 730-771). *)
Definition upper_track (first_seg_len_3D : Q) (i : Z) : list event :=
  let seg_len_3D := first_seg_len_3D - inject_Z i * track_spacing_3D in
  if Qgtb seg_len_3D TINY_MOVE then
    let cmfd_surface_fwd := (-1)%Z in
    let cmfd_surface_bwd := (-1)%Z in
    let '(cmfd_surface_fwd, cmfd_surface_bwd) :=
      match getCmfd geometry with
      | Some cmfd =>
          let cmfd_cell := getCmfdCell geometry fsr_id in
          let start_z := first_track_lower_z + inject_Z i * z_spacing in
          let end_z := first_track_upper_z + inject_Z i * z_spacing in
          let dist_to_corner := (end_z - z_max) / Qabs cos_theta in
          if (sign >? 0)%Z then
            let cmfd_surface_fwd :=
              if Qleb dist_to_corner TINY_MOVE
              then _cmfd_surface_fwd seg else cmfd_surface_fwd in
            let cmfd_surface_fwd :=
              findCmfdSurfaceOTF cmfd cmfd_cell z_max cmfd_surface_fwd in
            let cmfd_surface_bwd := _cmfd_surface_bwd seg in
            let cmfd_surface_bwd :=
              findCmfdSurfaceOTF cmfd cmfd_cell start_z cmfd_surface_bwd in
            (cmfd_surface_fwd, cmfd_surface_bwd)
          else
            let cmfd_surface_fwd := _cmfd_surface_fwd seg in
            let cmfd_surface_fwd :=
              findCmfdSurfaceOTF cmfd cmfd_cell start_z cmfd_surface_fwd in
            let cmfd_surface_bwd :=
              if Qleb dist_to_corner TINY_MOVE
              then _cmfd_surface_bwd seg else cmfd_surface_bwd in
            let cmfd_surface_bwd :=
              findCmfdSurfaceOTF cmfd cmfd_cell z_max cmfd_surface_bwd in
            (cmfd_surface_fwd, cmfd_surface_bwd)
      | None => (cmfd_surface_fwd, cmfd_surface_bwd)
      end in
    [mkEvent seg_len_3D material fsr_id i cmfd_surface_fwd cmfd_surface_bwd]
  else [].

(** The [execute] calls of one axial cell (lines 576-771), in order. *)
Definition cell_events : list event :=
  let ix := stack_indexes z_min z_max first_track_lower_z first_track_upper_z in
  let '(start_track, start_full, end_full, end_track) := ix in
  let lower :=
    let first_seg_len_3D := (first_track_upper_z - z_min) / Qabs cos_theta in
    flat_map (lower_track first_seg_len_3D) (lower_range ix) in
  let middle :=
    if (end_full >? start_full)%Z then
      let seg_len_3D := _length seg / sin_theta in
      if Qgtb seg_len_3D TINY_MOVE
      then flat_map (full_track seg_len_3D) (full_range ix)
      else []
    else if (start_full >? end_full)%Z then
      let seg_len_3D := (z_max - z_min) / Qabs cos_theta in
      if Qgtb seg_len_3D TINY_MOVE
      then flat_map (straddle_track seg_len_3D) (straddle_range ix)
      else []
    else [] in
  let upper :=
    let first_seg_len_3D := (z_max - first_track_lower_z) / Qabs cos_theta in
    flat_map (upper_track first_seg_len_3D) (upper_range ix) in
  lower ++ middle ++ upper.

End Cell.

(** One pass of the loop over the 3D FSRs of an extruded FSR
    (lines 556-772). *)
Definition stack_cell (seg : segment) (extruded_FSR : ExtrudedFSR)
    (axial_mesh : list Q) (num_fsrs : Z)
    (first_start_z first_end_z first_track_lower_z first_track_upper_z : Q)
    (z_iter : Z) : outcome (list event) :=
  let z_ind := if (sign <? 0)%Z then (num_fsrs - z_iter - 1)%Z else z_iter in
  fsr_id <- read (_fsr_ids extruded_FSR) z_ind ;;
  material <- read (_materials extruded_FSR) z_ind ;;
  z_min <- read axial_mesh z_ind ;;
  z_max <- read axial_mesh (z_ind + 1)%Z ;;
  Ok (cell_events seg fsr_id material z_min z_max first_start_z first_end_z
        first_track_lower_z first_track_upper_z).

(** The loop over the 2D segments (lines 526-775). *)
Fixpoint stack_segments_loop (global_z_mesh : option (list Q)) (mesh_size : Z)
    (tan_theta : Q) (segments_2D : list segment) (first_start_z : Q)
  : outcome (list event) :=
  match segments_2D with
  | [] => Ok []
  | seg :: rest =>
      let seg_length_2D := _length seg in
      extruded_FSR <- getExtrudedFSR geometry (_region_id seg) ;;
      let '(num_fsrs, axial_mesh) :=
        match global_z_mesh with
        | Some mesh => (mesh_size, mesh)
        | None => (_num_fsrs extruded_FSR, _mesh extruded_FSR)
        end in
      let first_end_z := first_start_z + seg_length_2D / tan_theta in
      let '(first_track_lower_z, first_track_upper_z) :=
        if (sign >? 0)%Z then (first_start_z, first_end_z)
        else (first_end_z, first_start_z) in
      evs <- for_each (zrange 0 num_fsrs)
               (stack_cell seg extruded_FSR axial_mesh num_fsrs first_start_z
                  first_end_z first_track_lower_z first_track_upper_z) ;;
      evs' <- stack_segments_loop global_z_mesh mesh_size tan_theta rest
                first_end_z ;;
      Ok (evs ++ evs')
  end.

End StackOTF.

(** [first] is [tracks_3D[azim_index][track_index][polar_index][0]],
    [num_z_stack] is [tracks_per_stack[azim_index][track_index][polar_index]]
    and [z_spacing] is [getZSpacing(azim_index, polar_index)]. *)
Definition traceStackOTF (ts : TraverseSegments) (flattened_track : Track)
    (first : Track3D) (num_z_stack : Z) (z_spacing : Q)
  : outcome (list event) :=
  let theta := _theta first in
  let phi := _phi flattened_track in
  let cos_theta := cos theta in
  let sin_theta := sin theta in
  let tan_theta := sin_theta / cos_theta in
  let sign := sign_of cos_theta in
  let track_spacing_3D := z_spacing / Qabs cos_theta in
  let x_start_3D := getX (_start_3D first) in
  let x_start_2D := getX (_start flattened_track) in
  let start_dist_2D := (x_start_3D - x_start_2D) / cos phi in
  let z0 := getZ (_start_3D first) in
  let start_z := z0 - start_dist_2D / tan_theta in
  let geometry := _geometry ts in
  let first_start_z := start_z in
  let segments_2D := _segments flattened_track in
  stack_segments_loop geometry cos_theta sin_theta sign z_spacing
    track_spacing_3D num_z_stack (_global_z_mesh ts) (_mesh_size ts) tan_theta
    segments_2D first_start_z.

(* ================================================================= *)
(** ** traceStackTwoWay (lines 887-968) *)

(** The flattened track and the first track of the stack after the call, and
    the calls on the kernel. *)
Definition traceStackTwoWay (ts : TraverseSegments) (flattened_track : Track)
    (first : Track3D) (num_z_stack : Z) (z_spacing : Q)
  : outcome (Track * Track3D * list kernel_call) :=
  let segments := _segments flattened_track in
  (* Copy spatial and directional data from track stack *)
  let start_2D := _start flattened_track in
  let end_2D := _end flattened_track in
  let start_3D := _start_3D first in
  let end_3D := _end_3D first in
  let phi := _phi flattened_track in
  let theta := _theta first in
  (* Trace stack forwards *)
  forwards <- traceStackOTF ts flattened_track first num_z_stack z_spacing ;;
  (* Reflect track stack *)
  let first := mkTrack3D end_3D start_3D (M_PI - theta) in
  let flattened_track :=
    mkTrack end_2D start_2D (M_PI + phi) (_azim_index flattened_track)
            (_xy_index flattened_track) segments in
  (* Reverse segments in flattened track and flip their CMFD surfaces *)
  let num_segments := getNumSegments flattened_track in
  segments <- reverse_segments num_segments segments ;;
  segments <- flip_surfaces num_segments segments ;;
  let flattened_track :=
    mkTrack (_start flattened_track) (_end flattened_track)
            (_phi flattened_track) (_azim_index flattened_track)
            (_xy_index flattened_track) segments in
  (* Trace stack backwards *)
  backwards <- traceStackOTF ts flattened_track first num_z_stack z_spacing ;;
  (* Reflect track stack back to forwards *)
  let first := mkTrack3D start_3D end_3D theta in
  let flattened_track :=
    mkTrack start_2D end_2D phi (_azim_index flattened_track)
            (_xy_index flattened_track) segments in
  segments <- reverse_segments num_segments segments ;;
  segments <- flip_surfaces num_segments segments ;;
  let flattened_track :=
    mkTrack (_start flattened_track) (_end flattened_track)
            (_phi flattened_track) (_azim_index flattened_track)
            (_xy_index flattened_track) segments in
  Ok (flattened_track, first,
      [setDirection true] ++ map execute forwards ++ [post] ++
      [setDirection false] ++ map execute backwards ++ [post]).

(* ================================================================= *)
(** ** loopOverTracksByStackOTF (lines 216-254) *)

Section Dispatcher.

Variables (ts : TraverseSegments) (tg : TrackGenerator3D).

(** The body of the loop over polar angles (lines 237-251), for one worker
    [tid]; [kernels] is [false] for a NULL pointer. *)
Definition stack_iteration (kernels : bool) (tid : Z) (flattened_track : Track)
    (p : Z) : outcome (list call) :=
  let a := _azim_index flattened_track in
  let i := _xy_index flattened_track in
  let track_3D : track_id := (a, i, p, 0%Z) in
  traced <-
    (if kernels then
       first <- read (get3DTracks tg a i p) 0 ;;
       evs <- traceStackOTF ts flattened_track first
                (getTracksPerStack tg a i p) (getZSpacing tg a p) ;;
       Ok ([onKernel (newTrack track_3D)] ++ map (fun e => onKernel (execute e)) evs
           ++ [setNumSegments track_3D (getCount evs)])
     else Ok []) ;;
  let segments := (tid, 0%Z) in
  Ok (traced ++ [onTrack track_3D segments]).

(** The loop over the flattened 2D tracks, as one worker runs it. *)
Definition loopOverTracksByStackOTF (kernels : bool) (tid : Z)
  : outcome (list call) :=
  let num_2D_tracks := getNum2DTracks tg in
  let flattened_tracks := get2DTracksArray tg in
  let num_polar := getNumPolar tg in
  for_each (zrange 0 num_2D_tracks) (fun ext_id =>
    flattened_track <- read flattened_tracks ext_id ;;
    for_each (zrange 0 num_polar) (stack_iteration kernels tid flattened_track)).

End Dispatcher.

End Traversal.

(* ================================================================= *)
(** ** Notions of the statements *)

(** A segment with its forward and backward CMFD surfaces exchanged. *)
Definition swap_surfaces (sg : segment) : segment :=
  mkSegment (_length sg) (_material sg) (_region_id sg)
            (_cmfd_surface_bwd sg) (_cmfd_surface_fwd sg).

(** The sum of a list of lengths. *)
Definition Qsum (l : list Q) : Q := fold_right Qplus 0 l.

(** The axial height [z_coord] has not passed the boundary of the cell
    [z_ind] that lies in the direction of travel. *)
Definition in_cell (sign : Z) (axial_mesh : list Q) (z_coord : Q) (z_ind : Z)
  : Prop :=
  forall m,
    read axial_mesh (if (sign >? 0)%Z then (z_ind + 1)%Z else z_ind) = Ok m ->
    if (sign >? 0)%Z then z_coord <= m else m <= z_coord.

(** An axial mesh of [num_fsrs] cells: [num_fsrs + 1] strictly increasing
    boundaries, few enough for the [int] arithmetic of the search. *)
Definition mesh_ok (axial_mesh : list Q) (num_fsrs : Z) : bool :=
  strictly_increasing axial_mesh
  && (Z.of_nat (length axial_mesh) =? num_fsrs + 1)%Z
  && (1 <=? num_fsrs)%Z && (num_fsrs <? 2 ^ 30)%Z.

(** The axial meshes the segmenter can use: the global mesh if there is one,
    the meshes of the extruded FSRs otherwise. *)
Definition meshes_ok (ts : TraverseSegments) : bool :=
  match _global_z_mesh ts with
  | Some mesh => mesh_ok mesh (_mesh_size ts)
  | None =>
      forallb (fun e => mesh_ok (_mesh e) (_num_fsrs e))
              (_extruded_FSR_lookup (_geometry ts))
  end.

(** The 2D distance from the start of the flattened track to the start of
    the 3D track (line 303), and the 3D length of the path of the ray: its 2D
    path length beyond that offset, divided by [sin theta]. *)
Definition start_offset_2D (cos : Q -> Q) (flattened_track : Track)
    (start : Point) : Q :=
  (getX start - getX (_start flattened_track)) / cos (_phi flattened_track).

Definition path_length_3D (cos sin : Q -> Q) (flattened_track : Track)
    (start : Point) (theta : Q) : Q :=
  (Qsum (map _length (_segments flattened_track))
   - start_offset_2D cos flattened_track start) / sin theta.

(** A segment longer than the tolerance. *)
Definition exceeds (tiny : Q) (e : event) : Prop := tiny < ev_length e.

(* ================================================================= *)
(** ** Data of the examples *)

(** A value for the tolerance [TINY_MOVE] (the examples scale with it), a
    value of pi and a polar angle; [cos] and [sin] as a table of the angles
    the examples use: [cos theta = 4/5], [sin theta = 3/5]. *)
Definition tiny_example : Q := 1 # 100000000.
Definition pi_example : Q := 3141592653589793 # 1000000000000000.
Definition theta_example : Q := 6435 # 10000.

Definition cos_example (x : Q) : Q :=
  if Qeq_bool x 0 then 1
  else if Qeq_bool x theta_example then 4 # 5
  else if Qeq_bool x (pi_example - theta_example) then - (4 # 5)
  else if Qeq_bool x (pi_example + 0) then - 1
  else 0.

Definition sin_example (x : Q) : Q :=
  if Qeq_bool x theta_example then 3 # 5
  else if Qeq_bool x (pi_example - theta_example) then 3 # 5
  else 0.

(** One extruded FSR of two axial cells of height 1 on the mesh [0, 1, 2],
    without CMFD. *)
Definition geometry_example : Geometry :=
  mkGeometry [mkExtrudedFSR 2 [0; 1; 2] [10; 11]%Z [7; 8]%Z] (fun fsr => fsr) None.

Definition ts_example : TraverseSegments :=
  mkTraverseSegments geometry_example None 0.

(** A flattened track along x with the given segment lengths, all in the
    extruded FSR 0. *)
Definition track_example (lengths : list Q) : Track :=
  mkTrack (mkPoint 0 0 0) (mkPoint 4 0 0) 0 0 0
          (map (fun len => mkSegment len 7 0 3 5) lengths).

Definition first_example : Track3D :=
  mkTrack3D (mkPoint 0 0 0) (mkPoint (3 # 2) 0 2) theta_example.

(** One flattened track, one polar angle and a z-stack of three tracks. *)
Definition tg_example : TrackGenerator3D :=
  mkTrackGenerator3D 1 [track_example [1]]
    (fun _ _ _ => [first_example; first_example; first_example])
    (fun _ _ _ => 3%Z) 1 (fun _ _ => 1 # 2).

(* ================================================================= *)
(** ** traceSegmentsExplicit (lines 264-270) *)

Definition traceSegmentsExplicit (track : Track) : outcome (list event) :=
  for_each (zrange 0 (getNumSegments track)) (fun s =>
    seg <- read (_segments track) s ;;
    Ok [mkEvent (_length seg) (_material seg) (_region_id seg) 0
                (_cmfd_surface_fwd seg) (_cmfd_surface_bwd seg)]).

(* ================================================================= *)
(** ** loopOverTracks2D and loopOverTracksExplicit (lines 74-147) *)

(** What the loops over explicit tracks read of the track generator:
    [tracks_2D[a]] and [tracks_3D[a][i][p]] as arrays of tracks with their
    segments (a [Track3D] is used through its base class [Track]). *)
Record TrackGeneratorExplicit : Type := mkTrackGeneratorExplicit {
  getNumAzim : Z;
  getNumX : Z -> Z;
  getNumY : Z -> Z;
  get2DTracks : Z -> list Track;
  getNumPolarExplicit : Z;
  getTracksPerStackExplicit : Z -> Z -> Z -> Z;
  get3DTracksExplicit : Z -> Z -> Z -> list Track
}.

(** The calls of a loop over explicit tracks, a track being named by its
    indices: on the kernel, [newTrack] and [execute]; and the hook
    [onTrack(track, segments)] with the segments of the track. *)
Inductive explicit_call (T : Type) : Type :=
| newTrackE (track : T)
| executeE (e : event)
| onTrackE (track : T) (segments : list segment).

Arguments newTrackE {T} track.
Arguments executeE {T} e.
Arguments onTrackE {T} track segments.

(** The body of both loops for one track (lines 84-94 and 127-142);
    [kernels] is [false] for a NULL pointer. *)
Definition explicit_iteration {T : Type} (kernels : bool) (name : T)
    (track : Track) : outcome (list (explicit_call T)) :=
  traced <-
    (if kernels then
       evs <- traceSegmentsExplicit track ;;
       Ok (newTrackE name :: map executeE evs)
     else Ok []) ;;
  let segments := _segments track in
  Ok (traced ++ [onTrackE name segments]).

Definition loopOverTracks2D (tg : TrackGeneratorExplicit) (kernels : bool)
  : outcome (list (explicit_call (Z * Z))) :=
  let num_azim := getNumAzim tg in
  for_each (zrange 0 (int_div num_azim 2)) (fun a =>
    let num_xy := (getNumX tg a + getNumY tg a)%Z in
    for_each (zrange 0 num_xy) (fun i =>
      track_2D <- read (get2DTracks tg a) i ;;
      explicit_iteration kernels (a, i) track_2D)).

Definition loopOverTracksExplicit (tg : TrackGeneratorExplicit) (kernels : bool)
  : outcome (list (explicit_call track_id)) :=
  let num_azim := getNumAzim tg in
  let num_polar := getNumPolarExplicit tg in
  for_each (zrange 0 (int_div num_azim 2)) (fun a =>
    let num_xy := (getNumX tg a + getNumY tg a)%Z in
    for_each (zrange 0 num_xy) (fun i =>
      for_each (zrange 0 num_polar) (fun p =>
        for_each (zrange 0 (getTracksPerStackExplicit tg a i p)) (fun z =>
          track_3D <- read (get3DTracksExplicit tg a i p) z ;;
          explicit_iteration kernels (a, i, p, z) track_3D)))).

(* ================================================================= *)
(** ** loopOverTracksByTrackOTF (lines 158-204) *)

Section LoopByTrack.

Variables (cos sin : Q -> Q) (TINY_MOVE : Q).
Variables (ts : TraverseSegments) (tg : TrackGenerator3D).

(** The body of the loop over the tracks of a z-stack (lines 182-200), for
    one worker [tid]; [fuel] bounds the passes of each [while] loop. *)
Definition track_iteration (kernels : bool) (tid : Z) (fuel : nat)
    (flattened_track : Track) (p z : Z) : outcome (list call) :=
  let a := _azim_index flattened_track in
  let i := _xy_index flattened_track in
  let track_3D : track_id := (a, i, p, z) in
  traced <-
    (if kernels then
       track <- read (get3DTracks tg a i p) z ;;
       let theta := _theta track in
       let start := _start_3D track in
       '(_, evs, _) <- traceSegmentsOTF cos sin TINY_MOVE fuel ts
                         flattened_track start theta ;;
       Ok ([onKernel (newTrack track_3D)]
           ++ map (fun e => onKernel (execute e)) evs
           ++ [setNumSegments track_3D (getCount evs)])
     else Ok []) ;;
  let segments := (tid, 0%Z) in
  Ok (traced ++ [onTrack track_3D segments]).

Definition loopOverTracksByTrackOTF (kernels : bool) (tid : Z) (fuel : nat)
  : outcome (list call) :=
  let num_2D_tracks := getNum2DTracks tg in
  let flattened_tracks := get2DTracksArray tg in
  let num_polar := getNumPolar tg in
  for_each (zrange 0 num_2D_tracks) (fun ext_id =>
    flattened_track <- read flattened_tracks ext_id ;;
    let a := _azim_index flattened_track in
    let i := _xy_index flattened_track in
    for_each (zrange 0 num_polar) (fun p =>
      for_each (zrange 0 (getTracksPerStack tg a i p))
               (track_iteration kernels tid fuel flattened_track p))).

End LoopByTrack.

(* ================================================================= *)
(** ** loopOverTracksByStackTwoWay (lines 825-867) *)

Inductive segmentationType : Type :=
| EXPLICIT_2D
| EXPLICIT_3D
| OTF_TRACKS
| OTF_STACKS.

Definition two_way_msg : string :=
  "Two way on-the-fly transport has only been implemented for ray tracing by z-stack".

(** A loop whose body changes a state: the state at the end and the calls
    made, in order. *)
Fixpoint for_each_state {S A B : Type} (l : list A)
    (body : S -> A -> outcome (S * list B)) (s : S) : outcome (S * list B) :=
  match l with
  | [] => Ok (s, [])
  | a :: tl =>
      '(s1, evs) <- body s a ;;
      '(s2, evs') <- for_each_state tl body s1 ;;
      Ok (s2, evs ++ evs')
  end.

(** The track objects after a write through a pointer: the flattened track
    [flattened_tracks[ext_id]] and the first track [tracks_3D[a][i][p][0]]. *)
Definition set2DTrack (tg : TrackGenerator3D) (ext_id : Z) (t : Track)
  : TrackGenerator3D :=
  mkTrackGenerator3D (getNum2DTracks tg)
    (list_update (get2DTracksArray tg) (Z.to_nat ext_id) t)
    (get3DTracks tg) (getTracksPerStack tg) (getNumPolar tg) (getZSpacing tg).

Definition setFirst3DTrack (tg : TrackGenerator3D) (a i p : Z) (t : Track3D)
  : TrackGenerator3D :=
  mkTrackGenerator3D (getNum2DTracks tg) (get2DTracksArray tg)
    (fun a' i' p' =>
       if (a' =? a)%Z && (i' =? i)%Z && (p' =? p)%Z
       then list_update (get3DTracks tg a' i' p') 0 t
       else get3DTracks tg a' i' p')
    (getTracksPerStack tg) (getNumPolar tg) (getZSpacing tg).

(** The track objects that [loopOverTracksByStackTwoWay] writes: the tracks
    of the track generator and, by the indices [(a, i, p, z)] of every 3D
    track, its field [_num_segments], which [setNumSegments] sets. *)
Record TrackObjects : Type := mkTrackObjects {
  track_generator : TrackGenerator3D;
  num_segments_3D : track_id -> Z
}.

Definition track_id_eqb (x y : track_id) : bool :=
  let '(a, i, p, z) := x in
  let '(a', i', p', z') := y in
  (a =? a')%Z && (i =? i')%Z && (p =? p')%Z && (z =? z')%Z.

(** [track->setNumSegments(n)] on the 3D track [track]. *)
Definition setNumSegments3D (counts : track_id -> Z) (track : track_id) (n : Z)
  : track_id -> Z :=
  fun id => if track_id_eqb id track then n else counts id.

(** The segments a kernel received, among its calls. *)
Fixpoint executed (calls : list kernel_call) : list event :=
  match calls with
  | [] => []
  | execute e :: tl => e :: executed tl
  | _ :: tl => executed tl
  end.

Section LoopTwoWay.

Variables (cos sin : Q -> Q) (TINY_MOVE M_PI : Q).
Variable ts : TraverseSegments.

(** The body of the loop over polar angles (lines 850-864): the track
    objects after it and the calls made.  [kernel] is [false] for a NULL
    pointer; [a] and [i] were read from the flattened track before the
    loop, [traceStackTwoWay] reads its own [azim_index] and [track_index]
    (lines 897-900) and writes the two track objects through its pointers,
    and [setNumSegments] (line 859) writes the segment count of the first
    track of the z-stack. *)
Definition two_way_iteration (kernel : bool) (tid ext_id a i : Z)
    (objects : TrackObjects) (p : Z) : outcome (TrackObjects * list call) :=
  let tg := track_generator objects in
  let track_3D : track_id := (a, i, p, 0%Z) in
  '(objects, traced) <-
    (if kernel then
       flattened_track <- read (get2DTracksArray tg) ext_id ;;
       let azim_index := _azim_index flattened_track in
       let track_index := _xy_index flattened_track in
       first <- read (get3DTracks tg azim_index track_index p) 0 ;;
       '(flattened_track', first', kernel_calls) <-
         traceStackTwoWay cos sin TINY_MOVE M_PI ts flattened_track first
           (getTracksPerStack tg azim_index track_index p)
           (getZSpacing tg azim_index p) ;;
       let tg := set2DTrack tg ext_id flattened_track' in
       let tg := setFirst3DTrack tg azim_index track_index p first' in
       let count := getCount (executed kernel_calls) in
       Ok (mkTrackObjects tg
             (setNumSegments3D (num_segments_3D objects) track_3D count),
           [onKernel (newTrack track_3D)] ++ map onKernel kernel_calls
           ++ [setNumSegments track_3D count])
     else Ok (objects, [])) ;;
  let segments := (tid, 0%Z) in
  Ok (objects, traced ++ [onTrack track_3D segments]).

Definition loopOverTracksByStackTwoWay (_segment_formation : segmentationType)
    (kernel : bool) (tid : Z) (objects : TrackObjects)
  : outcome (TrackObjects * list call) :=
  match _segment_formation with
  | OTF_STACKS =>
      let num_2D_tracks := getNum2DTracks (track_generator objects) in
      let num_polar := getNumPolar (track_generator objects) in
      for_each_state (zrange 0 num_2D_tracks) (fun objects ext_id =>
        flattened_track <-
          read (get2DTracksArray (track_generator objects)) ext_id ;;
        let a := _azim_index flattened_track in
        let i := _xy_index flattened_track in
        for_each_state (zrange 0 num_polar)
          (two_way_iteration kernel tid ext_id a i) objects) objects
  | _ => Fatal two_way_msg
  end.

End LoopTwoWay.

(* ================================================================= *)
(** ** Notions of the further statements *)

(** A computation that ends within the passes allowed to its loops. *)
Definition returns {A : Type} (m : outcome A) : Prop := m <> OutOfFuel.

(** A computation that does not end in the fatal error of [log_printf]. *)
Definition no_fatal {A : Type} (m : outcome A) : Prop :=
  forall msg, m <> Fatal msg.

(** The [execute] call that replays a stored segment. *)
Definition segment_event (seg : segment) : event :=
  mkEvent (_length seg) (_material seg) (_region_id seg) 0
          (_cmfd_surface_fwd seg) (_cmfd_surface_bwd seg).

(** The calls of a loop over explicit tracks for one track, known there by
    [name]: [newTrack] and the stored segments on the kernel, if there is
    one, then the hook with the segments of the track. *)
Definition explicit_calls {T : Type} (kernels : bool) (name : T) (t : Track)
  : list (explicit_call T) :=
  (if kernels
   then newTrackE name :: map executeE (map segment_event (_segments t))
   else [])
  ++ [onTrackE name (_segments t)].

(** The explicit 2D tracks that [loopOverTracks2D] visits, each with its
    indices [(a, i)], in the order of the loop; and the explicit 3D tracks
    that [loopOverTracksExplicit] visits, with their indices
    [(a, i, p, z)]. *)
Definition tracks_2D_in_loop (tg : TrackGeneratorExplicit)
  : list ((Z * Z) * Track) :=
  flat_map (fun a =>
    map (fun it => ((a, fst it), snd it))
        (combine (zrange 0 (getNumX tg a + getNumY tg a)) (get2DTracks tg a)))
    (zrange 0 (int_div (getNumAzim tg) 2)).

Definition tracks_3D_in_loop (tg : TrackGeneratorExplicit)
  : list (track_id * Track) :=
  flat_map (fun a =>
    flat_map (fun i =>
      flat_map (fun p =>
        map (fun zt => ((a, i, p, fst zt), snd zt))
            (combine (zrange 0 (getTracksPerStackExplicit tg a i p))
                     (get3DTracksExplicit tg a i p)))
        (zrange 0 (getNumPolarExplicit tg)))
      (zrange 0 (getNumX tg a + getNumY tg a)))
    (zrange 0 (int_div (getNumAzim tg) 2)).

(** The first [n] flattened tracks, over which the loops run. *)
Definition tracks_in_loop (tg : TrackGenerator3D) : list Track :=
  firstn (Z.to_nat (getNum2DTracks tg)) (get2DTracksArray tg).

(** The calls of the hook by [loopOverTracksByTrackOTF]: one for each 3D
    track, and by the loops over z-stacks: one for each stack. *)
Definition onTrack_by_track (tg : TrackGenerator3D) (tid : Z) : list call :=
  flat_map (fun t =>
    flat_map (fun p =>
      map (fun z => onTrack (_azim_index t, _xy_index t, p, z) (tid, 0%Z))
          (zrange 0 (getTracksPerStack tg (_azim_index t) (_xy_index t) p)))
      (zrange 0 (getNumPolar tg)))
    (tracks_in_loop tg).

Definition onTrack_by_stack (tg : TrackGenerator3D) (tid : Z) : list call :=
  flat_map (fun t =>
    map (fun p => onTrack (_azim_index t, _xy_index t, p, 0%Z) (tid, 0%Z))
        (zrange 0 (getNumPolar tg)))
    (tracks_in_loop tg).


(** The number of passes of the loop over a 2D segment that is enough from
    the cell [z_ind] of a mesh of [num_fsrs] cells. *)
Definition passes_bound (sign num_fsrs z_ind : Z) : Z :=
  if (sign >? 0)%Z then (num_fsrs - z_ind)%Z else (z_ind + 1)%Z.

(** Every axial mesh the segmenter can use has at most [n] cells. *)
Definition cells_at_most (ts : TraverseSegments) (n : Z) : Prop :=
  match _global_z_mesh ts with
  | Some _ => (_mesh_size ts <= n)%Z
  | None =>
      Forall (fun e => (_num_fsrs e <= n)%Z) (_extruded_FSR_lookup (_geometry ts))
  end.

(** No CMFD surface. *)
Definition no_surface (e : event) : Prop :=
  ev_cmfd_surface_fwd e = (-1)%Z /\ ev_cmfd_surface_bwd e = (-1)%Z.





(** The track stack as [traceStackTwoWay] reflects it for its backward
    pass. *)
Definition reflect_track (M_PI : Q) (t : Track) : Track :=
  mkTrack (_end t) (_start t) (M_PI + _phi t) (_azim_index t) (_xy_index t)
          (map swap_surfaces (rev (_segments t))).

Definition reflect_first (M_PI : Q) (t : Track3D) : Track3D :=
  mkTrack3D (_end_3D t) (_start_3D t) (M_PI - _theta t).

(** The same track objects in two states of the track generator. *)
Definition same_tracks (tg tg' : TrackGenerator3D) : Prop :=
  getNum2DTracks tg' = getNum2DTracks tg /\
  get2DTracksArray tg' = get2DTracksArray tg /\
  (forall a i p, get3DTracks tg' a i p = get3DTracks tg a i p) /\
  (forall a i p, getTracksPerStack tg' a i p = getTracksPerStack tg a i p) /\
  getNumPolar tg' = getNumPolar tg /\
  (forall a p, getZSpacing tg' a p = getZSpacing tg a p).

(** All extruded FSRs of the geometry have the axial mesh [axial_mesh], of
    [num_fsrs] cells. *)
Definition same_mesh (geometry : Geometry) (axial_mesh : list Q) (num_fsrs : Z)
  : Prop :=
  Forall (fun e => _mesh e = axial_mesh /\ _num_fsrs e = num_fsrs)
         (_extruded_FSR_lookup geometry).

(* ================================================================= *)
(** ** Further data of the examples *)

(** A second track generator for the examples: two flattened tracks, two
    polar angles, z-stacks of one and two tracks. *)
Definition tg_example2 : TrackGenerator3D :=
  mkTrackGenerator3D 2
    [track_example [1]; mkTrack (mkPoint 0 0 0) (mkPoint 4 0 0) 0 0 1
                          [mkSegment (1 # 2) 7 0 3 5]]
    (fun _ _ p => if (p =? 0)%Z then [first_example]
                  else [first_example; first_example])
    (fun _ _ p => if (p =? 0)%Z then 1%Z else 2%Z) 2 (fun _ _ => 1 # 2).

(** Explicit tracks for the examples: one azimuthal half-space angle with
    two 2D tracks. *)
Definition tge_example : TrackGeneratorExplicit :=
  mkTrackGeneratorExplicit 2 (fun _ => 1%Z) (fun _ => 1%Z)
    (fun _ => [track_example [1; 2]; track_example [3]])
    1 (fun _ _ _ => 1%Z) (fun _ _ _ => [track_example [1; 2]]).

(** The track objects of [tg_example2], every segment count being 0. *)
Definition objects_example2 : TrackObjects :=
  mkTrackObjects tg_example2 (fun _ => 0%Z).

(** The segmenter of the examples with a global z-mesh [0, 1, 2]. *)
Definition ts_global_example : TraverseSegments :=
  mkTraverseSegments geometry_example (Some [0; 1; 2]) 2.

(** The mesh of the [n] boundary values [0, 1, ..., n - 1]. *)
Definition linear_mesh (n : Z) : list Q := map inject_Z (zrange 0 n).

(** A mesh of [2^30 + 2] boundary values and a height strictly inside its
    last cell, [[2^30, 2^30 + 1]]: the search reaches [imin = 2^30 - 1] and
    [imax = 2^30 + 1], whose sum [2^31] is not an [int]. *)
Definition overflow_size : Z := 2 ^ 30 + 2.
Definition overflow_mesh : list Q := linear_mesh overflow_size.
Definition overflow_query : Q := inject_Z (2 ^ 30) + (1 # 2).

(* ================================================================= *)
(** * Properties *)

(** ** Comparisons, arrays and machine integers *)

Lemma Qltb_lt (x y : Q) : Qltb x y = true <-> x < y.
Proof.
  unfold Qltb. rewrite negb_true_iff.
  destruct (Qle_bool y x) eqn:E.
  - apply Qle_bool_iff in E. split; [discriminate | intro H; exfalso; lra].
  - split; [intros _ | reflexivity].
    destruct (Qlt_le_dec x y) as [H | H]; [exact H |].
    apply Qle_bool_iff in H. congruence.
Qed.

Lemma Qltb_ge (x y : Q) : Qltb x y = false <-> y <= x.
Proof.
  destruct (Qltb x y) eqn:E.
  - apply Qltb_lt in E. split; [discriminate | intro; exfalso; lra].
  - split; [intros _ | reflexivity].
    destruct (Qlt_le_dec x y) as [H | H]; [| exact H].
    apply Qltb_lt in H. congruence.
Qed.

Lemma Qgtb_gt (x y : Q) : Qgtb x y = true <-> y < x.
Proof. unfold Qgtb. apply Qltb_lt. Qed.

Lemma Qgtb_le (x y : Q) : Qgtb x y = false <-> x <= y.
Proof. unfold Qgtb. apply Qltb_ge. Qed.

Lemma Qleb_le (x y : Q) : Qleb x y = true <-> x <= y.
Proof. unfold Qleb. apply Qle_bool_iff. Qed.

Lemma read_Ok {A : Type} (a : list A) (i : Z) (v : A) :
  read a i = Ok v <-> (0 <= i)%Z /\ nth_error a (Z.to_nat i) = Some v.
Proof.
  unfold read. destruct (Z.ltb_spec i 0).
  - split; [discriminate | intros [? _]; lia].
  - destruct (nth_error a (Z.to_nat i)) as [w |].
    + split; [intros [= ->]; auto | intros [_ [= ->]]; reflexivity].
    + split; [discriminate | intros [_ ?]; discriminate].
Qed.

Lemma read_in_range {A : Type} (a : list A) (i : Z) :
  (0 <= i < Z.of_nat (length a))%Z -> exists v, read a i = Ok v.
Proof.
  intros Hi. destruct (nth_error a (Z.to_nat i)) as [v |] eqn:E.
  - exists v. apply read_Ok. split; [lia | exact E].
  - apply nth_error_None in E. lia.
Qed.

Lemma read_bound {A : Type} (a : list A) (i : Z) (v : A) :
  read a i = Ok v -> (0 <= i < Z.of_nat (length a))%Z.
Proof.
  intros H. apply read_Ok in H. destruct H as [H0 H].
  assert (Z.to_nat i < length a)%nat by (apply nth_error_Some; congruence).
  lia.
Qed.

Lemma int_wrap_small (z : Z) :
  (- 2 ^ 31 <= z < 2 ^ 31)%Z -> int_wrap z = z.
Proof.
  intros H. unfold int_wrap.
  rewrite Z.mod_small; lia.
Qed.

Lemma strictly_increasing_tail (x : Q) (l : list Q) :
  strictly_increasing (x :: l) = true -> strictly_increasing l = true.
Proof.
  simpl. destruct l as [| y tl]; [reflexivity |].
  intros H. apply andb_true_iff in H. apply H.
Qed.

Lemma strictly_increasing_head (x : Q) (l : list Q) (n : nat) (v : Q) :
  strictly_increasing (x :: l) = true -> nth_error l n = Some v -> x < v.
Proof.
  revert x n v. induction l as [| y tl IH]; intros x n v Hs Hn.
  - destruct n; discriminate.
  - simpl in Hs. apply andb_true_iff in Hs. destruct Hs as [Hxy Hs].
    apply Qltb_lt in Hxy. destruct n as [| n].
    + simpl in Hn. injection Hn as <-. exact Hxy.
    + simpl in Hn. specialize (IH y n v Hs Hn). lra.
Qed.

Lemma strictly_increasing_nth (l : list Q) (i j : nat) (vi vj : Q) :
  strictly_increasing l = true -> (i < j)%nat ->
  nth_error l i = Some vi -> nth_error l j = Some vj -> vi < vj.
Proof.
  revert i j. induction l as [| x tl IH]; intros i j Hs Hij Hi Hj.
  - destruct i; discriminate.
  - destruct j as [| j]; [lia |]. simpl in Hj. destruct i as [| i].
    + simpl in Hi. injection Hi as <-.
      eapply strictly_increasing_head; eauto.
    + simpl in Hi. apply (IH i j); auto.
      * eapply strictly_increasing_tail; eauto.
      * lia.
Qed.

Lemma strictly_increasing_read (l : list Q) (i j : Z) (vi vj : Q) :
  strictly_increasing l = true -> (i < j)%Z ->
  read l i = Ok vi -> read l j = Ok vj -> vi < vj.
Proof.
  intros Hs Hij Hi Hj. apply read_Ok in Hi. apply read_Ok in Hj.
  destruct Hi as [Hi0 Hi], Hj as [Hj0 Hj].
  apply (strictly_increasing_nth l (Z.to_nat i) (Z.to_nat j)); auto. lia.
Qed.

(** Reading an array is monotone in the index, and injective. *)
Lemma strictly_increasing_le (l : list Q) (i j : Z) (vi vj : Q) :
  strictly_increasing l = true ->
  read l i = Ok vi -> read l j = Ok vj -> vj <= vi -> (j <= i)%Z.
Proof.
  intros Hs Hi Hj Hle.
  destruct (Z.le_gt_cases j i) as [H | H]; [exact H |].
  assert (vi < vj) by (eapply (strictly_increasing_read l i j); eauto; lia).
  lra.
Qed.

(** ** findMeshIndex *)

Lemma imid_between (imin imax : Z) :
  (0 <= imin)%Z -> (imax - imin > 1)%Z -> (imax < 2 ^ 30)%Z ->
  (imin < int_div (int_add imin imax) 2 < imax)%Z.
Proof.
  intros H0 Hd Hm. unfold int_div, int_add.
  rewrite int_wrap_small by lia.
  rewrite Z.quot_div_nonneg by lia.
  pose proof (Z.div_mod (imin + imax) 2 ltac:(lia)).
  pose proof (Z.mod_pos_bound (imin + imax) 2 ltac:(lia)).
  lia.
Qed.

(** What the search loop returns: either it met a boundary equal to [val]
    strictly inside [(imin, imax)], or it ended on a cell that brackets
    [val], strictly on a side unless that side is an end of the interval. *)
Lemma findMeshIndex_loop_post (fuel : nat) (values : list Q) (val : Q)
    (sign imin imax : Z) (vmin vmax : Q) :
  (0 <= imin < imax)%Z ->
  (imax < Z.of_nat (length values))%Z ->
  (Z.of_nat (length values) <= 2 ^ 30)%Z ->
  (imax - imin <= Z.of_nat fuel)%Z ->
  read values imin = Ok vmin -> read values imax = Ok vmax ->
  vmin <= val -> val <= vmax ->
  (exists imid v,
      (imin < imid < imax)%Z /\ read values imid = Ok v /\ v == val /\
      findMeshIndex_loop fuel values val sign imin imax
      = Ok (if (sign >? 0)%Z then imid else (imid - 1)%Z))
  \/
  (exists i lo hi,
      findMeshIndex_loop fuel values val sign imin imax = Ok i /\
      (imin <= i < imax)%Z /\
      read values i = Ok lo /\ read values (i + 1)%Z = Ok hi /\
      lo <= val /\ val <= hi /\
      (lo < val \/ i = imin) /\ (val < hi \/ (i + 1)%Z = imax)).
Proof.
  revert imin imax vmin vmax.
  induction fuel as [| fuel IH]; intros imin imax vmin vmax Hr Hlen H30 Hf Hmin Hmax Hlo Hhi.
  - (* no fuel: the interval has width one *)
    assert (imax = (imin + 1)%Z) by lia. subst imax.
    right. exists imin, vmin, vmax. simpl.
    destruct (Z.gtb_spec (imin + 1 - imin) 1); [lia |].
    repeat split; auto; lia.
  - simpl. destruct (Z.gtb_spec (imax - imin) 1) as [Hd | Hd].
    + pose proof (imid_between imin imax) as Hb.
      specialize (Hb ltac:(lia) ltac:(lia) ltac:(lia)).
      set (imid := int_div (int_add imin imax) 2) in *.
      destruct (read_in_range values imid) as [v Hv]; [lia |].
      rewrite Hv. simpl.
      destruct (Qgtb val v) eqn:Egt.
      * apply Qgtb_gt in Egt.
        destruct (IH imid imax v vmax) as [(m & w & Hm & Hw & Hwe & Hres) | (i & lo & hi & Hres & Hi & Hl & Hh & H1 & H2 & H3 & H4)];
          try lia; auto; try lra.
        -- left. exists m, w. repeat split; auto; lia.
        -- right. exists i, lo, hi. repeat split; auto; try lia.
           left. destruct H3 as [H3 | H3]; [exact H3 |].
           subst i. rewrite Hv in Hl. injection Hl as <-. exact Egt.
      * apply Qgtb_le in Egt. destruct (Qltb val v) eqn:Elt.
        -- apply Qltb_lt in Elt.
           destruct (IH imin imid vmin v) as [(m & w & Hm & Hw & Hwe & Hres) | (i & lo & hi & Hres & Hi & Hl & Hh & H1 & H2 & H3 & H4)];
             try lia; auto; try lra.
           ++ left. exists m, w. repeat split; auto; lia.
           ++ right. exists i, lo, hi. repeat split; auto; try lia.
              left. destruct H4 as [H4 | H4]; [exact H4 |].
              rewrite H4 in Hh. rewrite Hv in Hh. injection Hh as <-. exact Elt.
        -- apply Qltb_ge in Elt. left. exists imid, v.
           repeat split; try lia; auto.
           ++ lra.
           ++ destruct (sign >? 0)%Z; reflexivity.
    + assert (imax = (imin + 1)%Z) by lia. subst imax.
      right. exists imin, vmin, vmax. repeat split; auto; lia.
Qed.

(** The guard of [findMeshIndex] on an array of [size] values. *)
Lemma findMeshIndex_guard (values : list Q) (size : Z) (val : Q) (sign : Z) :
  Z.of_nat (length values) = size -> (1 <= size)%Z ->
  exists vmin vmax,
    read values 0 = Ok vmin /\ read values (size - 1)%Z = Ok vmax /\
    findMeshIndex values size val sign
    = if Qltb val vmin || Qgtb val vmax then Fatal mesh_range_msg
      else findMeshIndex_loop (Z.to_nat size) values val sign 0 (size - 1).
Proof.
  intros Hlen Hsz.
  destruct (read_in_range values 0) as [vmin Hmin]; [lia |].
  destruct (read_in_range values (size - 1)) as [vmax Hmax]; [lia |].
  exists vmin, vmax. repeat split; auto.
  unfold findMeshIndex. rewrite Hmin. simpl.
  destruct (Qltb val vmin); [reflexivity |].
  rewrite Hmax. simpl. reflexivity.
Qed.

(** An in-range search on a strictly increasing array: the general form of
    the result. *)
Lemma findMeshIndex_in_range (values : list Q) (size : Z) (val : Q) (sign : Z)
    (vmin vmax : Q) :
  Z.of_nat (length values) = size -> (2 <= size <= 2 ^ 30)%Z ->
  read values 0 = Ok vmin -> read values (size - 1)%Z = Ok vmax ->
  vmin <= val -> val <= vmax ->
  (exists imid v,
      (0 < imid < size - 1)%Z /\ read values imid = Ok v /\ v == val /\
      findMeshIndex values size val sign
      = Ok (if (sign >? 0)%Z then imid else (imid - 1)%Z))
  \/
  (exists i lo hi,
      findMeshIndex values size val sign = Ok i /\
      (0 <= i < size - 1)%Z /\
      read values i = Ok lo /\ read values (i + 1)%Z = Ok hi /\
      lo <= val /\ val <= hi /\
      (lo < val \/ i = 0%Z) /\ (val < hi \/ (i + 1)%Z = (size - 1)%Z)).
Proof.
  intros Hlen Hsz Hmin Hmax Hlo Hhi.
  destruct (findMeshIndex_guard values size val sign Hlen ltac:(lia))
    as (vmin' & vmax' & Hmin' & Hmax' & Heq).
  rewrite Hmin in Hmin'. injection Hmin' as <-.
  rewrite Hmax in Hmax'. injection Hmax' as <-.
  rewrite Heq.
  assert (Qltb val vmin = false) as -> by (apply Qltb_ge; exact Hlo).
  assert (Qgtb val vmax = false) as -> by (apply Qgtb_le; exact Hhi).
  simpl.
  apply (findMeshIndex_loop_post (Z.to_nat size) values val sign 0 (size - 1) vmin vmax);
    auto; lia.
Qed.

(** Within the [int] range, the statement of C2 holds.  On a strictly
    increasing array of [size >= 2] boundary values (of at most [2^30]
    values, so that [imin + imax] is an [int]) and a query [val]
    within [[values[0], values[size-1]]], [findMeshIndex] returns an index [i]
    with [values[i] <= val <= values[i+1]]; when [val] equals an interior
    boundary [values[k]], sign [+1] yields [k] and sign [-1] yields [k-1].
    On the array [[0, 1, 2, 3]], the query [1.5] returns 1 for either sign and
    the query [1.0] returns 1 with sign [+1] and 0 with sign [-1]. *)
Theorem findMeshIndex_brackets_query :
  (forall (values : list Q) (size : Z) (val : Q) (vmin vmax : Q),
      Z.of_nat (length values) = size -> (2 <= size <= 2 ^ 30)%Z ->
      strictly_increasing values = true ->
      read values 0 = Ok vmin -> read values (size - 1)%Z = Ok vmax ->
      vmin <= val -> val <= vmax ->
      (forall sign, exists i lo hi,
          findMeshIndex values size val sign = Ok i /\
          read values i = Ok lo /\ read values (i + 1)%Z = Ok hi /\
          lo <= val /\ val <= hi) /\
      (forall k vk, (0 < k < size - 1)%Z -> read values k = Ok vk -> val == vk ->
          findMeshIndex values size val 1 = Ok k /\
          findMeshIndex values size val (-1) = Ok (k - 1)%Z))
  /\ findMeshIndex mesh0123 4 (3 # 2) 1 = Ok 1%Z
  /\ findMeshIndex mesh0123 4 (3 # 2) (-1) = Ok 1%Z
  /\ findMeshIndex mesh0123 4 1 1 = Ok 1%Z
  /\ findMeshIndex mesh0123 4 1 (-1) = Ok 0%Z.
Proof.
  split; [| repeat split; reflexivity].
  intros values size val vmin vmax Hlen Hsz Hinc Hmin Hmax Hlo Hhi. split.
  - intros sign.
    destruct (findMeshIndex_in_range values size val sign vmin vmax)
      as [(m & v & Hm & Hv & Hve & Hres) | (i & lo & hi & Hres & Hi & Hl & Hh & H1 & H2 & _)];
      auto.
    + (* the query is the interior boundary [m] *)
      destruct (read_in_range values (m - 1)) as [vl Hvl]; [lia |].
      destruct (read_in_range values (m + 1)) as [vh Hvh]; [lia |].
      assert (vl < v) by (eapply (strictly_increasing_read values (m - 1) m); eauto; lia).
      assert (v < vh) by (eapply (strictly_increasing_read values m (m + 1)); eauto; lia).
      destruct (sign >? 0)%Z.
      * exists m, v, vh. repeat split; auto; lra.
      * exists (m - 1)%Z, vl, v. replace (m - 1 + 1)%Z with m by lia.
        repeat split; auto; lra.
    + exists i, lo, hi. repeat split; auto.
  - intros k vk Hk Hvk Hek.
    assert (forall sign, findMeshIndex values size val sign
                         = Ok (if (sign >? 0)%Z then k else (k - 1)%Z)) as Hs.
    { intros sign.
      destruct (findMeshIndex_in_range values size val sign vmin vmax)
        as [(m & v & Hm & Hv & Hve & Hres) | (i & lo & hi & Hres & Hi & Hl & Hh & H1 & H2 & H3 & H4)];
        auto.
      - (* the boundary met is [k] itself *)
        assert (m = k) as ->; [| exact Hres].
        apply Z.le_antisymm.
        + eapply (strictly_increasing_le values k m); eauto. lra.
        + eapply (strictly_increasing_le values m k); eauto. lra.
      - (* the loop cannot end without meeting [k] *)
        exfalso.
        assert (i < k)%Z as Hik.
        { destruct (Z.lt_ge_cases i k) as [Hc | Hc]; [exact Hc |].
          destruct H3 as [H3 | H3]; [| lia].
          assert (i <= k)%Z by (eapply (strictly_increasing_le values k i); eauto; lra).
          assert (i = k) by lia. subst i.
          rewrite Hvk in Hl. injection Hl as <-. lra. }
        assert (k <= i + 1)%Z as Hki
            by (eapply (strictly_increasing_le values (i + 1) k); eauto; lra).
        assert (k = i + 1)%Z by lia. subst k.
        rewrite Hvk in Hh. injection Hh as <-.
        destruct H4 as [H4 | H4]; [lra | lia]. }
    split; [apply (Hs 1%Z) | apply (Hs (-1)%Z)].
Qed.

Lemma findMeshIndex_brackets_query_witness :
  (forall sign, exists i lo hi,
      findMeshIndex mesh0123 4 (3 # 2) sign = Ok i /\
      read mesh0123 i = Ok lo /\ read mesh0123 (i + 1)%Z = Ok hi /\
      lo <= 3 # 2 /\ 3 # 2 <= hi) /\
  (forall k vk, (0 < k < 4 - 1)%Z -> read mesh0123 k = Ok vk -> 3 # 2 == vk ->
      findMeshIndex mesh0123 4 (3 # 2) 1 = Ok k /\
      findMeshIndex mesh0123 4 (3 # 2) (-1) = Ok (k - 1)%Z).
Proof.
  apply (proj1 findMeshIndex_brackets_query mesh0123 4%Z (3 # 2) 0 3).
  - reflexivity.
  - lia.
  - reflexivity.
  - reflexivity.
  - reflexivity.
  - unfold Qle; simpl; lia.
  - unfold Qle; simpl; lia.
Defined.

(** Within the [int] range (arrays of at most [2^30] values), the statement
    of C6 holds.  [findMeshIndex] ends in the fatal error if and only if the query is
    strictly below the first boundary value or strictly above the last one;
    every query in the range completes with an index. *)
Theorem findMeshIndex_fatal_iff_out_of_range (values : list Q) (size : Z)
    (val : Q) (sign : Z) (vmin vmax : Q) :
  Z.of_nat (length values) = size -> (1 <= size <= 2 ^ 30)%Z ->
  read values 0 = Ok vmin -> read values (size - 1)%Z = Ok vmax ->
  ((exists msg, findMeshIndex values size val sign = Fatal msg)
   <-> (val < vmin \/ vmax < val)) /\
  (vmin <= val -> val <= vmax ->
   exists i, findMeshIndex values size val sign = Ok i).
Proof.
  intros Hlen Hsz Hmin Hmax.
  assert (vmin <= val -> val <= vmax ->
          exists i, findMeshIndex values size val sign = Ok i) as Hin.
  { intros Hlo Hhi. destruct (Z.eq_dec size 1) as [-> | Hne].
    - exists 0%Z. unfold findMeshIndex. rewrite Hmin. simpl.
      assert (Qltb val vmin = false) as -> by (apply Qltb_ge; exact Hlo).
      simpl in Hmax. rewrite Hmax. simpl.
      assert (Qgtb val vmax = false) as -> by (apply Qgtb_le; exact Hhi).
      reflexivity.
    - destruct (findMeshIndex_in_range values size val sign vmin vmax)
        as [(m & v & _ & _ & _ & Hres) | (i & lo & hi & Hres & _)];
        auto; try lia; eauto. }
  split; [| exact Hin]. split.
  - intros [msg Hf].
    destruct (Qlt_le_dec val vmin) as [Hlo | Hlo]; [left; exact Hlo |].
    destruct (Qlt_le_dec vmax val) as [Hhi | Hhi]; [right; exact Hhi |].
    destruct (Hin Hlo Hhi) as [i Hi]. congruence.
  - intros Hout.
    destruct (findMeshIndex_guard values size val sign Hlen ltac:(lia))
      as (vmin' & vmax' & Hmin' & Hmax' & Heq).
    rewrite Hmin in Hmin'. injection Hmin' as <-.
    rewrite Hmax in Hmax'. injection Hmax' as <-.
    exists mesh_range_msg. rewrite Heq.
    destruct Hout as [Hlo | Hhi].
    + apply Qltb_lt in Hlo. rewrite Hlo. reflexivity.
    + apply Qgtb_gt in Hhi. rewrite Hhi. rewrite orb_true_r. reflexivity.
Qed.

Lemma findMeshIndex_fatal_iff_out_of_range_witness :
  ((exists msg, findMeshIndex mesh0123 4 (31 # 10) 1 = Fatal msg)
   <-> (31 # 10 < 0 \/ 3 < 31 # 10)) /\
  (0 <= 31 # 10 -> 31 # 10 <= 3 ->
   exists i, findMeshIndex mesh0123 4 (31 # 10) 1 = Ok i).
Proof.
  apply (findMeshIndex_fatal_iff_out_of_range mesh0123 4%Z (31 # 10) 1%Z 0 3).
  - reflexivity.
  - lia.
  - reflexivity.
  - reflexivity.
Defined.

(** Within the [int] range (arrays of at most [2^30] values), the statement
    of C10 holds.  On a strictly increasing array of [size >= 2] values and a query
    within its range, [findMeshIndex] returns an index of [[0, size-2]]; a
    query equal to the top boundary returns [size-2] (with sign [+1] as with
    any sign) and a query equal to the bottom boundary returns 0 (with sign
    [-1] as with any sign): the tie-break never leaves the mesh and no error
    is raised. *)
Theorem findMeshIndex_valid_cell (values : list Q) (size : Z) (val : Q)
    (vmin vmax : Q) :
  Z.of_nat (length values) = size -> (2 <= size <= 2 ^ 30)%Z ->
  strictly_increasing values = true ->
  read values 0 = Ok vmin -> read values (size - 1)%Z = Ok vmax ->
  vmin <= val -> val <= vmax ->
  (forall sign, exists i,
      findMeshIndex values size val sign = Ok i /\ (0 <= i <= size - 2)%Z) /\
  (val == vmax -> forall sign, findMeshIndex values size val sign = Ok (size - 2)%Z) /\
  (val == vmin -> forall sign, findMeshIndex values size val sign = Ok 0%Z).
Proof.
  intros Hlen Hsz Hinc Hmin Hmax Hlo Hhi.
  repeat split.
  - intros sign.
    destruct (findMeshIndex_in_range values size val sign vmin vmax)
      as [(m & v & Hm & Hv & Hve & Hres) | (i & lo & hi & Hres & Hi & _)];
      auto.
    + rewrite Hres. destruct (sign >? 0)%Z; eexists; split; eauto; lia.
    + exists i. split; [exact Hres | lia].
  - intros Hev sign.
    destruct (findMeshIndex_in_range values size val sign vmin vmax)
      as [(m & v & Hm & Hv & Hve & Hres) | (i & lo & hi & Hres & Hi & Hl & Hh & H1 & H2 & H3 & H4)];
      auto.
    + exfalso.
      assert (v < vmax)
        by (eapply (strictly_increasing_read values m (size - 1)); eauto; lia).
      lra.
    + assert (size - 1 <= i + 1)%Z
        by (eapply (strictly_increasing_le values (i + 1) (size - 1)); eauto; lra).
      assert (i = size - 2)%Z by lia. subst i. exact Hres.
  - intros Hev sign.
    destruct (findMeshIndex_in_range values size val sign vmin vmax)
      as [(m & v & Hm & Hv & Hve & Hres) | (i & lo & hi & Hres & Hi & Hl & Hh & H1 & H2 & H3 & H4)];
      auto.
    + exfalso.
      assert (vmin < v)
        by (eapply (strictly_increasing_read values 0 m); eauto; lia).
      lra.
    + assert (i <= 0)%Z
        by (eapply (strictly_increasing_le values 0 i); eauto; lra).
      assert (i = 0)%Z by lia. subst i. exact Hres.
Qed.

Lemma findMeshIndex_valid_cell_witness :
  (forall sign, exists i,
      findMeshIndex mesh0123 4 3 sign = Ok i /\ (0 <= i <= 4 - 2)%Z) /\
  (3 == 3 -> forall sign, findMeshIndex mesh0123 4 3 sign = Ok (4 - 2)%Z) /\
  (3 == 0 -> forall sign, findMeshIndex mesh0123 4 3 sign = Ok 0%Z).
Proof.
  apply (findMeshIndex_valid_cell mesh0123 4%Z 3 0 3).
  - reflexivity.
  - lia.
  - reflexivity.
  - reflexivity.
  - reflexivity.
  - unfold Qle; simpl; lia.
  - unfold Qle; simpl; lia.
Defined.

(** ** Loops over index ranges *)

Lemma zrange_In (lo hi i : Z) : In i (zrange lo hi) <-> (lo <= i < hi)%Z.
Proof.
  unfold zrange. rewrite in_map_iff. split.
  - intros (k & <- & Hk). apply in_seq in Hk. lia.
  - intros Hi. exists (Z.to_nat (i - lo)). split; [lia |].
    apply in_seq. lia.
Qed.

Lemma zrange_empty (lo hi : Z) : (hi <= lo)%Z -> zrange lo hi = [].
Proof.
  intros H. unfold zrange. replace (Z.to_nat (hi - lo)) with O by lia.
  reflexivity.
Qed.

Lemma zrange_cons (lo hi : Z) :
  (lo < hi)%Z -> zrange lo hi = lo :: zrange (lo + 1) hi.
Proof.
  intros H. unfold zrange.
  replace (Z.to_nat (hi - lo)) with (S (Z.to_nat (hi - (lo + 1)))) by lia.
  simpl. f_equal; [lia |].
  rewrite <- seq_shift, map_map. apply map_ext. intros k. lia.
Qed.

Lemma for_each_Forall {A B : Type} (P : B -> Prop) (body : A -> outcome (list B))
    (l : list A) (evs : list B) :
  (forall a r, In a l -> body a = Ok r -> Forall P r) ->
  for_each l body = Ok evs -> Forall P evs.
Proof.
  revert evs. induction l as [| a tl IH]; intros evs Hb H; simpl in H.
  - injection H as <-. constructor.
  - destruct (body a) as [r | | |] eqn:Ea; try discriminate. simpl in H.
    destruct (for_each tl body) as [r' | | |] eqn:Et; try discriminate.
    simpl in H. injection H as <-. apply Forall_app. split.
    + apply (Hb a); [left; reflexivity | exact Ea].
    + apply IH; [| reflexivity]. intros a' r0 Hin. apply Hb. right. exact Hin.
Qed.

(** ** traceStackOTF: the four ranges of stack members *)

(** C8.  For each axial cell the four ranges of stack indices -
    [[start_track, min(start_full, end_full))], [[start_full, end_full)],
    [[end_full, start_full)] and [[max(start_full, end_full), end_track)],
    whose bounds are the ceilings of the quotients of the z-extents by the
    spacing, [start_track] being clamped to [>= 0] and [end_track] to
    [<= num_z_stack] - are pairwise disjoint, and the straddle range is
    non-empty only when the full-crossing range is empty. *)
Theorem stack_ranges_disjoint (z_spacing : Q) (num_z_stack : Z)
    (z_min z_max first_track_lower_z first_track_upper_z : Q) :
  let ix := stack_indexes z_spacing num_z_stack z_min z_max
              first_track_lower_z first_track_upper_z in
  ix = (Z.max (Qceiling ((z_min - first_track_upper_z) / z_spacing)) 0,
        Qceiling ((z_min - first_track_lower_z) / z_spacing),
        Qceiling ((z_max - first_track_upper_z) / z_spacing),
        Z.min (Qceiling ((z_max - first_track_lower_z) / z_spacing)) num_z_stack)
  /\ (forall i, In i (lower_range ix) -> (0 <= i)%Z)
  /\ (forall i, In i (upper_range ix) -> (i < num_z_stack)%Z)
  /\ (forall i, ~ (In i (lower_range ix) /\ In i (full_range ix)))
  /\ (forall i, ~ (In i (lower_range ix) /\ In i (straddle_range ix)))
  /\ (forall i, ~ (In i (lower_range ix) /\ In i (upper_range ix)))
  /\ (forall i, ~ (In i (full_range ix) /\ In i (straddle_range ix)))
  /\ (forall i, ~ (In i (full_range ix) /\ In i (upper_range ix)))
  /\ (forall i, ~ (In i (straddle_range ix) /\ In i (upper_range ix)))
  /\ (straddle_range ix <> [] -> full_range ix = []).
Proof.
  unfold stack_indexes. cbv zeta.
  set (a := Qceiling ((z_min - first_track_upper_z) / z_spacing)).
  set (b := Qceiling ((z_min - first_track_lower_z) / z_spacing)).
  set (c := Qceiling ((z_max - first_track_upper_z) / z_spacing)).
  set (d := Qceiling ((z_max - first_track_lower_z) / z_spacing)).
  unfold lower_range, full_range, straddle_range, upper_range.
  split; [reflexivity |].
  repeat split; try (intros i; rewrite ?zrange_In; lia).
  intros Hne. destruct (Z.le_gt_cases c b) as [H | H].
  - apply zrange_empty. exact H.
  - exfalso. apply Hne. apply zrange_empty. lia.
Qed.

(** ** Inversion of computations *)

Lemma bind_Ok {A B : Type} (m : outcome A) (k : A -> outcome B) (b : B) :
  bind m k = Ok b -> exists a, m = Ok a /\ k a = Ok b.
Proof.
  destruct m as [a | | |]; simpl; intros H; try discriminate.
  exists a. split; [reflexivity | exact H].
Qed.

Ltac inv_bind H :=
  let a := fresh "a" in
  let E := fresh "E" in
  apply bind_Ok in H; destruct H as (a & E & H).

Ltac inv_Ok H := inversion H; subst; clear H.

(** ** The suppression tolerance: traceStackOTF *)

Section StackTolerance.

Variables (TINY_MOVE : Q) (geometry : Geometry) (cos_theta sin_theta : Q)
          (sign : Z) (z_spacing track_spacing_3D : Q) (num_z_stack : Z).

Lemma lower_track_exceeds seg fsr_id material z_min lower upper len i :
  Forall (exceeds TINY_MOVE)
    (lower_track TINY_MOVE geometry cos_theta sign z_spacing track_spacing_3D
       seg fsr_id material z_min lower upper len i).
Proof.
  unfold lower_track.
  destruct (Qgtb (len + inject_Z i * track_spacing_3D) TINY_MOVE) eqn:E;
    [| constructor].
  apply Qgtb_gt in E.
  destruct (getCmfd geometry) as [cmfd |]; [destruct (sign >? 0)%Z |];
    (constructor; [exact E | constructor]).
Qed.

Lemma upper_track_exceeds seg fsr_id material z_max lower upper len i :
  Forall (exceeds TINY_MOVE)
    (upper_track TINY_MOVE geometry cos_theta sign z_spacing track_spacing_3D
       seg fsr_id material z_max lower upper len i).
Proof.
  unfold upper_track.
  destruct (Qgtb (len - inject_Z i * track_spacing_3D) TINY_MOVE) eqn:E;
    [| constructor].
  apply Qgtb_gt in E.
  destruct (getCmfd geometry) as [cmfd |]; [destruct (sign >? 0)%Z |];
    (constructor; [exact E | constructor]).
Qed.

Lemma full_track_exceeds seg fsr_id material first_start_z first_end_z len i :
  TINY_MOVE < len ->
  Forall (exceeds TINY_MOVE)
    (full_track geometry z_spacing seg fsr_id material first_start_z
       first_end_z len i).
Proof.
  intros E. unfold full_track.
  destruct (getCmfd geometry) as [cmfd |];
    (constructor; [exact E | constructor]).
Qed.

Lemma straddle_track_exceeds seg fsr_id material z_min z_max first_start_z
    first_end_z len i :
  TINY_MOVE < len ->
  Forall (exceeds TINY_MOVE)
    (straddle_track TINY_MOVE geometry cos_theta sign z_spacing seg fsr_id
       material z_min z_max first_start_z first_end_z len i).
Proof.
  intros E. unfold straddle_track.
  destruct (getCmfd geometry) as [cmfd |]; [destruct (sign >? 0)%Z |];
    (constructor; [exact E | constructor]).
Qed.

Lemma cell_events_exceed seg fsr_id material z_min z_max first_start_z
    first_end_z lower upper :
  Forall (exceeds TINY_MOVE)
    (cell_events TINY_MOVE geometry cos_theta sin_theta sign z_spacing
       track_spacing_3D num_z_stack seg fsr_id material z_min z_max
       first_start_z first_end_z lower upper).
Proof.
  unfold cell_events.
  destruct (stack_indexes z_spacing num_z_stack z_min z_max lower upper)
    as [[[start_track start_full] end_full] end_track].
  repeat (apply Forall_app; split).
  - apply Forall_flat_map, Forall_forall. intros i _.
    apply lower_track_exceeds.
  - destruct (end_full >? start_full)%Z.
    + destruct (Qgtb (_length seg / sin_theta) TINY_MOVE) eqn:E; [| constructor].
      apply Qgtb_gt in E.
      apply Forall_flat_map, Forall_forall. intros i _.
      apply full_track_exceeds. exact E.
    + destruct (start_full >? end_full)%Z; [| constructor].
      destruct (Qgtb ((z_max - z_min) / Qabs cos_theta) TINY_MOVE) eqn:E;
        [| constructor].
      apply Qgtb_gt in E.
      apply Forall_flat_map, Forall_forall. intros i _.
      apply straddle_track_exceeds. exact E.
  - apply Forall_flat_map, Forall_forall. intros i _.
    apply upper_track_exceeds.
Qed.

Lemma stack_segments_loop_exceeds global_z_mesh mesh_size tan_theta segments_2D :
  forall first_start_z evs,
    stack_segments_loop TINY_MOVE geometry cos_theta sin_theta sign z_spacing
      track_spacing_3D num_z_stack global_z_mesh mesh_size tan_theta
      segments_2D first_start_z = Ok evs ->
    Forall (exceeds TINY_MOVE) evs.
Proof.
  induction segments_2D as [| seg rest IH]; intros first_start_z evs H;
    simpl in H.
  - inv_Ok H. constructor.
  - inv_bind H.
    destruct (match global_z_mesh with
              | Some mesh => (mesh_size, mesh)
              | None => (_num_fsrs a, _mesh a)
              end) as [num_fsrs axial_mesh].
    destruct (sign >? 0)%Z; inv_bind H; inv_bind H; inv_Ok H;
      (apply Forall_app; split; [| eapply IH; eassumption]);
      (eapply for_each_Forall; [| eassumption]);
      intros z_iter r _ Hr; unfold stack_cell in Hr;
      repeat inv_bind Hr; inv_Ok Hr; apply cell_events_exceed.
Qed.

End StackTolerance.

(** ** traceSegmentsOTF: one pass of the loop over a 2D segment *)

Section SegmentPasses.

Variables (TINY_MOVE : Q) (geometry : Geometry) (cos_theta sin_theta : Q)
          (sign : Z).

(** The axial height at the end of a pass. *)
Lemma otf_surfaces_height seg st fsr_id dist_2D dist_3D z_move :
  fst (fst (otf_surfaces TINY_MOVE geometry cos_theta sin_theta seg st fsr_id
              dist_2D dist_3D z_move))
  == z_coord st + cos_theta * dist_3D.
Proof.
  unfold otf_surfaces.
  destruct (getCmfd geometry) as [cmfd |];
    [destruct (Qgtb dist_3D TINY_MOVE) |]; simpl; ring.
Qed.

(** The distances of a pass: the 2D distance is the 3D distance times
    [sin_theta], and the 3D distance is the smaller of the distance to the
    axial boundary and the distance to the end of the 2D segment. *)
Lemma shortest_distance_inv axial_mesh st dist_2D dist_3D z_move :
  shortest_distance cos_theta sin_theta sign axial_mesh st
  = Ok (dist_2D, dist_3D, z_move) ->
  exists m,
    read axial_mesh (if (sign >? 0)%Z then (z_ind st + 1)%Z else z_ind st) = Ok m /\
    ((dist_3D = (m - z_coord st) / cos_theta /\
      dist_3D <= remaining_length_2D st / sin_theta /\
      dist_2D = dist_3D * sin_theta /\ z_move = sign)
     \/
     (remaining_length_2D st / sin_theta < (m - z_coord st) / cos_theta /\
      dist_3D = remaining_length_2D st / sin_theta /\
      dist_2D = remaining_length_2D st /\ z_move = 0%Z)).
Proof.
  unfold shortest_distance. intros H. inv_bind H.
  assert (exists m,
             read axial_mesh (if (sign >? 0)%Z then (z_ind st + 1)%Z else z_ind st)
             = Ok m /\ a = (m - z_coord st) / cos_theta) as (m & Hm & ->).
  { destruct (sign >? 0)%Z; inv_bind E; inv_Ok E; eauto. }
  exists m. split; [exact Hm |].
  destruct (Qleb ((m - z_coord st) / cos_theta)
                 (remaining_length_2D st / sin_theta)) eqn:Ele; inv_Ok H.
  - left. apply Qleb_le in Ele. auto.
  - right. repeat split; auto.
    destruct (Qlt_le_dec (remaining_length_2D st / sin_theta)
                         ((m - z_coord st) / cos_theta)) as [Hlt | Hle];
      [exact Hlt |].
    apply Qleb_le in Hle. congruence.
Qed.

(** One pass of the loop, when the 2D segment is not completed. *)
Lemma transport_2D_segment_pass fuel seg extruded_FSR axial_mesh num_fsrs st res :
  Qgtb (remaining_length_2D st) 0 = true ->
  transport_2D_segment TINY_MOVE geometry cos_theta sin_theta sign (S fuel) seg
    extruded_FSR axial_mesh num_fsrs st = Ok res ->
  exists dist_2D dist_3D z_move fsr_id executed z_coord',
    shortest_distance cos_theta sin_theta sign axial_mesh st
    = Ok (dist_2D, dist_3D, z_move) /\
    read (_fsr_ids extruded_FSR) (z_ind st) = Ok fsr_id /\
    z_coord' == z_coord st + cos_theta * dist_3D /\
    ((Qgtb dist_3D TINY_MOVE = false /\ executed = [])
     \/
     (Qgtb dist_3D TINY_MOVE = true /\
      exists material fwd bwd,
        read (_materials extruded_FSR) (z_ind st) = Ok material /\
        executed = [mkEvent dist_3D material fsr_id 0 fwd bwd])) /\
    let remaining' := remaining_length_2D st - dist_2D in
    let z_ind' := (z_ind st + z_move)%Z in
    if (z_ind' <? 0)%Z || (z_ind' >=? num_fsrs)%Z
    then res = (mkOtf z_coord' (if (z_ind' <? 0)%Z then 0%Z else (num_fsrs - 1)%Z)
                      remaining' true,
                executed, [dist_3D])
    else exists st' evs dists,
        transport_2D_segment TINY_MOVE geometry cos_theta sin_theta sign fuel
          seg extruded_FSR axial_mesh num_fsrs (mkOtf z_coord' z_ind' remaining' false)
        = Ok (st', evs, dists) /\
        res = (st', executed ++ evs, dist_3D :: dists).
Proof.
  intros Hrem H. simpl in H. rewrite Hrem in H.
  inv_bind H. destruct a as [[dist_2D dist_3D] z_move]. cbv beta iota in H.
  inv_bind H. rename a into fsr_id.
  pose proof (otf_surfaces_height seg st fsr_id dist_2D dist_3D z_move) as Hz.
  destruct (otf_surfaces TINY_MOVE geometry cos_theta sin_theta seg st fsr_id
              dist_2D dist_3D z_move) as [[z_coord' fwd] bwd].
  simpl in Hz. inv_bind H. rename a into executed.
  exists dist_2D, dist_3D, z_move, fsr_id, executed, z_coord'.
  repeat split; auto.
  - destruct (Qgtb dist_3D TINY_MOVE).
    + right. split; [reflexivity |]. inv_bind E1. inv_Ok E1. eauto.
    + left. inv_Ok E1. auto.
  - cbv zeta.
    destruct ((z_ind st + z_move <? 0)%Z || (z_ind st + z_move >=? num_fsrs)%Z).
    + inv_Ok H. reflexivity.
    + inv_bind H. destruct a as [[st' evs] dists]. inv_Ok H. eauto.
Qed.

(** The loop returns at once when the 2D segment is completed. *)
Lemma transport_2D_segment_done fuel seg extruded_FSR axial_mesh num_fsrs st :
  Qgtb (remaining_length_2D st) 0 = false ->
  transport_2D_segment TINY_MOVE geometry cos_theta sin_theta sign fuel seg
    extruded_FSR axial_mesh num_fsrs st = Ok (st, [], []).
Proof.
  intros H. destruct fuel; simpl; rewrite H; reflexivity.
Qed.

Lemma transport_2D_segment_no_fuel seg extruded_FSR axial_mesh num_fsrs st res :
  Qgtb (remaining_length_2D st) 0 = true ->
  transport_2D_segment TINY_MOVE geometry cos_theta sin_theta sign O seg
    extruded_FSR axial_mesh num_fsrs st <> Ok res.
Proof.
  intros H. simpl. rewrite H. discriminate.
Qed.

(** Every segment passed to the kernel is longer than the tolerance, and the
    lengths passed are the ghost lengths that exceed the tolerance. *)
Lemma transport_2D_segment_exceeds fuel seg extruded_FSR axial_mesh num_fsrs :
  forall st st' evs dists,
    transport_2D_segment TINY_MOVE geometry cos_theta sin_theta sign fuel seg
      extruded_FSR axial_mesh num_fsrs st = Ok (st', evs, dists) ->
    Forall (exceeds TINY_MOVE) evs /\
    map ev_length evs = filter (fun d => Qgtb d TINY_MOVE) dists.
Proof.
  induction fuel as [| fuel IH]; intros st st' evs dists H.
  - destruct (Qgtb (remaining_length_2D st) 0) eqn:Hrem.
    + exfalso. eapply transport_2D_segment_no_fuel; eauto.
    + rewrite transport_2D_segment_done in H by exact Hrem. inv_Ok H.
      split; [constructor | reflexivity].
  - destruct (Qgtb (remaining_length_2D st) 0) eqn:Hrem.
    + apply transport_2D_segment_pass in H; [| exact Hrem].
      destruct H as (d2 & d3 & zm & fsr_id & executed & zc & _ & _ & _ & Hex & H).
      cbv zeta in H.
      assert (Forall (exceeds TINY_MOVE) executed /\
              map ev_length executed
              = filter (fun d => Qgtb d TINY_MOVE) [d3]) as [Hf Hm].
      { destruct Hex as [[Hg ->] | [Hg (mat & fwd & bwd & _ & ->)]];
          simpl; rewrite Hg; split; try constructor; auto.
        apply Qgtb_gt in Hg. exact Hg. }
      destruct ((z_ind st + zm <? 0)%Z || (z_ind st + zm >=? num_fsrs)%Z).
      * inv_Ok H. auto.
      * destruct H as (st1 & evs1 & dists1 & Hrec & H). inv_Ok H.
        apply IH in Hrec. destruct Hrec as [Hf1 Hm1]. split.
        -- apply Forall_app. auto.
        -- rewrite map_app, Hm, Hm1. simpl.
           destruct (Qgtb d3 TINY_MOVE); reflexivity.
    + rewrite transport_2D_segment_done in H by exact Hrem. inv_Ok H.
      split; [constructor | reflexivity].
Qed.

(** One pass of the loop over the 2D segments. *)
Lemma otf_segments_loop_pass fuel contains_global_z_mesh seg rest first_segment
    start_dist_2D num_fsrs axial_mesh z_coord0 z_ind0 res :
  otf_segments_loop TINY_MOVE geometry cos_theta sin_theta sign fuel
    contains_global_z_mesh (seg :: rest) first_segment start_dist_2D num_fsrs
    axial_mesh z_coord0 z_ind0 = Ok res ->
  exists extruded_FSR num_fsrs' axial_mesh' z_ind' st evs dists,
    getExtrudedFSR geometry (_region_id seg) = Ok extruded_FSR /\
    (if first_segment || contains_global_z_mesh
     then (num_fsrs', axial_mesh', z_ind') = (num_fsrs, axial_mesh, z_ind0)
     else num_fsrs' = _num_fsrs extruded_FSR /\ axial_mesh' = _mesh extruded_FSR /\
          findMeshIndex axial_mesh' (num_fsrs' + 1)%Z z_coord0 sign = Ok z_ind') /\
    transport_2D_segment TINY_MOVE geometry cos_theta sin_theta sign fuel seg
      extruded_FSR axial_mesh' num_fsrs'
      (mkOtf z_coord0 z_ind' (_length seg - start_dist_2D) false)
    = Ok (st, evs, dists) /\
    if segments_complete st then res = (true, evs, dists)
    else exists complete evs' dists',
        otf_segments_loop TINY_MOVE geometry cos_theta sin_theta sign fuel
          contains_global_z_mesh rest false 0 num_fsrs' axial_mesh' (z_coord st)
          (z_ind st) = Ok (complete, evs', dists') /\
        res = (complete, evs ++ evs', dists ++ dists').
Proof.
  intros H. simpl in H. inv_bind H. rename a into extruded_FSR.
  inv_bind H. destruct a as [[num_fsrs' axial_mesh'] z_ind']. cbv beta iota in H.
  inv_bind H. destruct a as [[st evs] dists]. cbv beta iota in H.
  exists extruded_FSR, num_fsrs', axial_mesh', z_ind', st, evs, dists.
  repeat split; auto.
  - destruct (first_segment || contains_global_z_mesh).
    + inv_Ok E0. reflexivity.
    + inv_bind E0. inv_Ok E0. auto.
  - destruct (segments_complete st).
    + inv_Ok H. reflexivity.
    + inv_bind H. destruct a as [[complete evs'] dists']. inv_Ok H. eauto.
Qed.

Lemma otf_segments_loop_exceeds fuel contains_global_z_mesh segments_2D :
  forall first_segment start_dist_2D num_fsrs axial_mesh z_coord0 z_ind0
         complete evs dists,
    otf_segments_loop TINY_MOVE geometry cos_theta sin_theta sign fuel
      contains_global_z_mesh segments_2D first_segment start_dist_2D num_fsrs
      axial_mesh z_coord0 z_ind0 = Ok (complete, evs, dists) ->
    Forall (exceeds TINY_MOVE) evs /\
    map ev_length evs = filter (fun d => Qgtb d TINY_MOVE) dists.
Proof.
  induction segments_2D as [| seg rest IH];
    intros first_segment start_dist_2D num_fsrs axial_mesh z_coord0 z_ind0
           complete evs dists H.
  - simpl in H. inv_Ok H. split; [constructor | reflexivity].
  - apply otf_segments_loop_pass in H.
    destruct H as (efsr & nf & mesh & zi & st & evs1 & dists1 & _ & _ & Ht & H).
    apply transport_2D_segment_exceeds in Ht. destruct Ht as [Hf1 Hm1].
    destruct (segments_complete st).
    + inv_Ok H. auto.
    + destruct H as (c & evs2 & dists2 & Hrec & H). inv_Ok H.
      apply IH in Hrec. destruct Hrec as [Hf2 Hm2]. split.
      * apply Forall_app. auto.
      * rewrite map_app, filter_app, Hm1, Hm2. reflexivity.
Qed.

End SegmentPasses.

(** The loops of [traceSegmentsOTF], from its preamble. *)
Lemma traceSegmentsOTF_inv cos sin TINY_MOVE fuel ts flattened_track start theta res :
  traceSegmentsOTF cos sin TINY_MOVE fuel ts flattened_track start theta = Ok res ->
  let found := find_start_segment (_segments flattened_track)
                 (start_offset_2D cos flattened_track start) 0 in
  exists contains_global_z_mesh num_fsrs axial_mesh z_ind,
    match _global_z_mesh ts with
    | Some mesh =>
        contains_global_z_mesh = true /\ num_fsrs = _mesh_size ts /\
        axial_mesh = mesh
    | None =>
        contains_global_z_mesh = false /\
        exists sg extruded_FSR,
          read (_segments flattened_track) (snd found) = Ok sg /\
          getExtrudedFSR (_geometry ts) (_region_id sg) = Ok extruded_FSR /\
          num_fsrs = _num_fsrs extruded_FSR /\ axial_mesh = _mesh extruded_FSR
    end /\
    findMeshIndex axial_mesh (num_fsrs + 1)%Z (getZ start) (sign_of (cos theta))
    = Ok z_ind /\
    otf_segments_loop TINY_MOVE (_geometry ts) (cos theta) (sin theta)
      (sign_of (cos theta)) fuel contains_global_z_mesh
      (skipn (Z.to_nat (snd found)) (_segments flattened_track)) true (fst found)
      num_fsrs axial_mesh (getZ start) z_ind = Ok res.
Proof.
  unfold traceSegmentsOTF, start_offset_2D. intros H. cbv zeta.
  destruct (find_start_segment (_segments flattened_track)
              ((getX start - getX (_start flattened_track)) / cos (_phi flattened_track)) 0)
    as [start_dist_2D seg_start].
  inv_bind H. destruct a as [[cg num_fsrs] axial_mesh]. cbv beta iota in H.
  inv_bind H. simpl. exists cg, num_fsrs, axial_mesh, a.
  repeat split; auto.
  destruct (_global_z_mesh ts) as [mesh |].
  - inv_Ok E. auto.
  - inv_bind E. inv_bind E. inv_Ok E. split; [reflexivity |]. eauto 6.
Qed.

(** C5.  Every segment passed to a kernel's [execute] by the on-the-fly
    segmenters - [traceSegmentsOTF] and the four ranges of [traceStackOTF] -
    is strictly longer than [TINY_MOVE]: a candidate whose length does not
    exceed the tolerance is not passed (the lengths [traceSegmentsOTF] passes
    are exactly the candidate lengths above the tolerance). *)
Theorem executed_segments_exceed_TINY_MOVE (cos sin : Q -> Q) (TINY_MOVE : Q) :
  (forall fuel ts flattened_track start theta complete evs dists,
      traceSegmentsOTF cos sin TINY_MOVE fuel ts flattened_track start theta
      = Ok (complete, evs, dists) ->
      Forall (exceeds TINY_MOVE) evs /\
      map ev_length evs = filter (fun d => Qgtb d TINY_MOVE) dists)
  /\
  (forall ts flattened_track first num_z_stack z_spacing evs,
      traceStackOTF cos sin TINY_MOVE ts flattened_track first num_z_stack z_spacing
      = Ok evs ->
      Forall (exceeds TINY_MOVE) evs)
  /\
  (forall geometry cos_theta sign z_spacing track_spacing_3D seg fsr_id material
          z_min z_max first_start_z first_end_z lower upper len i,
      Forall (exceeds TINY_MOVE)
        (lower_track TINY_MOVE geometry cos_theta sign z_spacing track_spacing_3D
           seg fsr_id material z_min lower upper len i) /\
      Forall (exceeds TINY_MOVE)
        (upper_track TINY_MOVE geometry cos_theta sign z_spacing track_spacing_3D
           seg fsr_id material z_max lower upper len i) /\
      (TINY_MOVE < len ->
       Forall (exceeds TINY_MOVE)
         (full_track geometry z_spacing seg fsr_id material first_start_z
            first_end_z len i)) /\
      (TINY_MOVE < len ->
       Forall (exceeds TINY_MOVE)
         (straddle_track TINY_MOVE geometry cos_theta sign z_spacing seg fsr_id
            material z_min z_max first_start_z first_end_z len i))).
Proof.
  repeat apply conj.
  - intros fuel ts flattened_track start theta complete evs dists H.
    apply traceSegmentsOTF_inv in H. cbv zeta in H.
    destruct H as (cg & nf & mesh & zi & _ & _ & H).
    eapply otf_segments_loop_exceeds; eassumption.
  - intros ts flattened_track first num_z_stack z_spacing evs H.
    unfold traceStackOTF in H.
    eapply stack_segments_loop_exceeds; eassumption.
  - intros. repeat apply conj.
    + apply lower_track_exceeds.
    + apply upper_track_exceeds.
    + apply full_track_exceeds.
    + apply straddle_track_exceeds.
Qed.

Lemma executed_segments_exceed_TINY_MOVE_witness :
  exists evs dists,
    traceSegmentsOTF cos_example sin_example tiny_example 10 ts_example
      (track_example [1; 48 # 10000000000]) (mkPoint 0 0 0) theta_example
    = Ok (false, evs, dists) /\
    length evs = 2%nat /\ length dists = 3%nat /\
    Forall (exceeds tiny_example) evs /\
    map ev_length evs = filter (fun d => Qgtb d tiny_example) dists.
Proof.
  eexists. eexists.
  split; [vm_compute; reflexivity |].
  split; [reflexivity |]. split; [reflexivity |].
  apply (proj1 (executed_segments_exceed_TINY_MOVE cos_example sin_example
                  tiny_example)
           10%nat ts_example (track_example [1; 48 # 10000000000])
           (mkPoint 0 0 0) theta_example false).
  vm_compute. reflexivity.
Defined.



(** ** traceStackTwoWay: the reversal of the segments *)

Lemma list_update_length {A : Type} (a : list A) (n : nat) (v : A) :
  length (list_update a n v) = length a.
Proof.
  revert n. induction a as [| x tl IH]; intros [| n]; simpl; auto.
Qed.

Lemma list_update_nth {A : Type} (a : list A) (n j : nat) (v : A) :
  (n < length a)%nat ->
  nth_error (list_update a n v) j = if (j =? n)%nat then Some v else nth_error a j.
Proof.
  revert n j. induction a as [| x tl IH]; intros n j Hn; simpl in Hn; [lia |].
  destruct n as [| n], j as [| j]; simpl; auto.
  apply IH. lia.
Qed.

Lemma write_Ok {A : Type} (a : list A) (i : Z) (v : A) :
  (0 <= i < Z.of_nat (length a))%Z ->
  write a i v = Ok (list_update a (Z.to_nat i) v).
Proof.
  intros H. unfold write.
  destruct (Z.ltb_spec i 0); [lia |].
  destruct (Z.leb_spec (Z.of_nat (length a)) i); [lia |]. reflexivity.
Qed.

Lemma read_nth {A : Type} (a : list A) (i : Z) (v : A) :
  (0 <= i)%Z -> nth_error a (Z.to_nat i) = Some v -> read a i = Ok v.
Proof. intros H0 H. apply read_Ok. auto. Qed.

(** The state of the array after the passes [k, k+1, ..., m-1] of the
    reversal loop, from a state in which the [k] outer pairs of [l] are
    already exchanged. *)
Lemma reverse_loop_spec (l : list segment) (m : Z) :
  (0 <= m)%Z -> (2 * m <= Z.of_nat (length l))%Z ->
  forall (d : nat) (k : Z) (cur : list segment),
    (0 <= k)%Z -> (k + Z.of_nat d = m)%Z ->
    length cur = length l ->
    (forall j : nat, (j < length l)%nat ->
        nth_error cur j
        = if ((Z.of_nat j <? k) || (Z.of_nat (length l) - k <=? Z.of_nat j))%Z
          then nth_error l (length l - 1 - j) else nth_error l j) ->
    exists out,
      reverse_loop (zrange k m) (Z.of_nat (length l)) cur = Ok out /\
      length out = length l /\
      (forall j : nat, (j < length l)%nat ->
          nth_error out j
          = if ((Z.of_nat j <? m) || (Z.of_nat (length l) - m <=? Z.of_nat j))%Z
            then nth_error l (length l - 1 - j) else nth_error l j).
Proof.
  intros Hm0 Hm. induction d as [| d IH]; intros k cur Hk Hkm Hlen Hcur.
  - assert (k = m) by lia. subst k. rewrite zrange_empty by lia.
    exists cur. simpl. auto.
  - rewrite zrange_cons by lia. simpl.
    set (n := Z.of_nat (length l)) in *.
    (* the two segments exchanged by this pass *)
    destruct (nth_error l (Z.to_nat k)) as [sk |] eqn:Ek;
      [| apply nth_error_None in Ek; lia].
    destruct (nth_error l (Z.to_nat (n - k - 1))) as [sn |] eqn:En;
      [| apply nth_error_None in En; lia].
    assert (read cur (n - k - 1) = Ok sn) as ->.
    { apply read_nth; [lia |]. rewrite Hcur by lia.
      destruct (Z.ltb_spec (Z.of_nat (Z.to_nat (n - k - 1))) k); [lia |].
      destruct (Z.leb_spec (n - k) (Z.of_nat (Z.to_nat (n - k - 1)))); [lia |].
      exact En. }
    simpl.
    assert (read cur k = Ok sk) as ->.
    { apply read_nth; [lia |]. rewrite Hcur by lia.
      destruct (Z.ltb_spec (Z.of_nat (Z.to_nat k)) k); [lia |].
      destruct (Z.leb_spec (n - k) (Z.of_nat (Z.to_nat k))); [lia |].
      exact Ek. }
    simpl. rewrite write_Ok by lia. simpl.
    rewrite write_Ok by (rewrite list_update_length; lia). simpl.
    apply IH; try lia.
    + rewrite !list_update_length. exact Hlen.
    + intros j Hj.
      rewrite list_update_nth by (rewrite list_update_length; lia).
      rewrite list_update_nth by lia.
      destruct (Nat.eqb_spec j (Z.to_nat k)) as [-> | Hjk].
      * destruct (Z.ltb_spec (Z.of_nat (Z.to_nat k)) (k + 1)); [| lia].
        simpl. rewrite <- En. f_equal. lia.
      * destruct (Nat.eqb_spec j (Z.to_nat (n - k - 1))) as [-> | Hjn].
        -- destruct (Z.leb_spec (n - (k + 1)) (Z.of_nat (Z.to_nat (n - k - 1)))); [| lia].
           rewrite orb_true_r. rewrite <- Ek. f_equal. lia.
        -- rewrite Hcur by lia.
           destruct (Z.ltb_spec (Z.of_nat j) k), (Z.ltb_spec (Z.of_nat j) (k + 1));
             try lia; simpl; auto.
           destruct (Z.leb_spec (n - k) (Z.of_nat j)),
                    (Z.leb_spec (n - (k + 1)) (Z.of_nat j)); try lia; auto.
Qed.

Lemma nth_error_ext_length {A : Type} (l l' : list A) :
  length l = length l' ->
  (forall j, (j < length l')%nat -> nth_error l j = nth_error l' j) -> l = l'.
Proof.
  intros Hlen H. apply nth_error_ext. intros j.
  destruct (Nat.lt_ge_cases j (length l')) as [Hj | Hj]; [auto |].
  assert (nth_error l j = None) as -> by (apply nth_error_None; lia).
  symmetry. apply nth_error_None. exact Hj.
Qed.

(** The reversal loop reverses the array. *)
Lemma reverse_segments_rev (l : list segment) :
  reverse_segments (Z.of_nat (length l)) l = Ok (rev l).
Proof.
  unfold reverse_segments, int_div.
  set (n := Z.of_nat (length l)).
  assert (0 <= n)%Z as Hn by lia.
  rewrite Z.quot_div_nonneg by lia.
  pose proof (Z.div_mod n 2 ltac:(lia)) as Hdm.
  pose proof (Z.mod_pos_bound n 2 ltac:(lia)) as Hmb.
  destruct (reverse_loop_spec l (n / 2) ltac:(lia) ltac:(fold n; lia)
              (Z.to_nat (n / 2)) 0%Z l ltac:(lia) ltac:(lia) eq_refl)
    as (out & Hout & Hlen & Hnth).
  { intros j Hj. fold n.
    destruct (Z.ltb_spec (Z.of_nat j) 0); [lia |]. simpl.
    destruct (Z.leb_spec (n - 0) (Z.of_nat j)); [lia | reflexivity]. }
  fold n in Hout. rewrite Hout. f_equal.
  apply nth_error_ext_length; [rewrite length_rev; exact Hlen |].
  rewrite length_rev. intros j Hj. rewrite Hnth by exact Hj.
  rewrite nth_error_rev. fold n.
  destruct (Nat.ltb_spec j (length l)) as [_ | Hj']; [| lia].
  replace (length l - S j)%nat with (length l - 1 - j)%nat by lia.
  destruct (Z.ltb_spec (Z.of_nat j) (n / 2)); [reflexivity |].
  destruct (Z.leb_spec (n - n / 2) (Z.of_nat j)); [reflexivity |].
  simpl. f_equal. lia.
Qed.

(** The state of the array after the passes [k, ..., n-1] of the loop that
    flips the surfaces, from a state in which the first [k] segments of [l]
    are already flipped. *)
Lemma flip_loop_spec (l : list segment) :
  forall (d : nat) (k : Z) (cur : list segment),
    (0 <= k)%Z -> (k + Z.of_nat d = Z.of_nat (length l))%Z ->
    length cur = length l ->
    (forall j : nat, (j < length l)%nat ->
        nth_error cur j
        = if (Z.of_nat j <? k)%Z then option_map swap_surfaces (nth_error l j)
          else nth_error l j) ->
    flip_loop (zrange k (Z.of_nat (length l))) cur = Ok (map swap_surfaces l).
Proof.
  induction d as [| d IH]; intros k cur Hk Hkd Hlen Hcur.
  - rewrite zrange_empty by lia. simpl. f_equal.
    apply nth_error_ext_length; [rewrite length_map; exact Hlen |].
    rewrite length_map. intros j Hj. rewrite Hcur by exact Hj.
    destruct (Z.ltb_spec (Z.of_nat j) k); [| lia].
    rewrite nth_error_map. reflexivity.
  - rewrite zrange_cons by lia. simpl.
    destruct (nth_error l (Z.to_nat k)) as [sk |] eqn:Ek;
      [| apply nth_error_None in Ek; lia].
    assert (read cur k = Ok sk) as ->.
    { apply read_nth; [lia |]. rewrite Hcur by lia.
      destruct (Z.ltb_spec (Z.of_nat (Z.to_nat k)) k); [lia | exact Ek]. }
    simpl. rewrite write_Ok by lia. simpl.
    apply IH; try lia.
    + rewrite list_update_length. exact Hlen.
    + intros j Hj. rewrite list_update_nth by lia.
      destruct (Nat.eqb_spec j (Z.to_nat k)) as [-> | Hjk].
      * destruct (Z.ltb_spec (Z.of_nat (Z.to_nat k)) (k + 1)); [| lia].
        rewrite Ek. reflexivity.
      * rewrite Hcur by exact Hj.
        destruct (Z.ltb_spec (Z.of_nat j) k), (Z.ltb_spec (Z.of_nat j) (k + 1));
          try lia; reflexivity.
Qed.

Lemma flip_surfaces_map (l : list segment) :
  flip_surfaces (Z.of_nat (length l)) l = Ok (map swap_surfaces l).
Proof.
  unfold flip_surfaces.
  apply (flip_loop_spec l (length l) 0%Z l); try lia; auto.
  intros j Hj. destruct (Z.ltb_spec (Z.of_nat j) 0); [lia | reflexivity].
Qed.

Lemma swap_surfaces_involutive (sg : segment) :
  swap_surfaces (swap_surfaces sg) = sg.
Proof. destruct sg. reflexivity. Qed.

(** Reversing and flipping twice gives the segments back, in their order and
    with their surfaces. *)
Lemma reverse_flip_twice (l : list segment) :
  map swap_surfaces (rev (map swap_surfaces (rev l))) = l.
Proof.
  rewrite <- map_rev, rev_involutive, map_map.
  rewrite <- (map_id l) at 2. apply map_ext, swap_surfaces_involutive.
Qed.

(** C4.  When [traceStackTwoWay] returns, the flattened 2D track - its start
    and end points, its azimuthal angle [phi], the order of its segments and
    the forward and backward CMFD surfaces of each of them - and the first 3D
    track of the stack - its start and end points and its polar angle
    [theta] - are what they were before the call. *)
Theorem traceStackTwoWay_restores (cos sin : Q -> Q) (TINY_MOVE M_PI : Q)
    (ts : TraverseSegments) (flattened_track : Track) (first : Track3D)
    (num_z_stack : Z) (z_spacing : Q)
    (flattened_track' : Track) (first' : Track3D) (calls : list kernel_call) :
  traceStackTwoWay cos sin TINY_MOVE M_PI ts flattened_track first num_z_stack
    z_spacing = Ok (flattened_track', first', calls) ->
  flattened_track' = flattened_track /\ first' = first /\
  (_start flattened_track' = _start flattened_track /\
   _end flattened_track' = _end flattened_track /\
   _phi flattened_track' = _phi flattened_track /\
   _segments flattened_track' = _segments flattened_track) /\
  (_start_3D first' = _start_3D first /\ _end_3D first' = _end_3D first /\
   _theta first' = _theta first).
Proof.
  intros H.
  assert (flattened_track' = flattened_track /\ first' = first) as [-> ->];
    [| repeat split; reflexivity].
  unfold traceStackTwoWay in H. cbv zeta in H.
  inv_bind H. clear E.
  unfold getNumSegments in H. simpl in H.
  rewrite reverse_segments_rev in H. simpl in H.
  rewrite <- (length_rev (_segments flattened_track)) in H at 1.
  rewrite flip_surfaces_map in H. simpl in H.
  inv_bind H. clear E.
  replace (length (_segments flattened_track))
    with (length (map swap_surfaces (rev (_segments flattened_track)))) in H
    by (rewrite length_map, length_rev; reflexivity).
  rewrite reverse_segments_rev in H. simpl in H.
  rewrite <- (length_rev (map swap_surfaces (rev (_segments flattened_track)))) in H at 1.
  rewrite flip_surfaces_map in H. simpl in H.
  rewrite reverse_flip_twice in H.
  inv_Ok H. destruct flattened_track, first. split; reflexivity.
Qed.

Lemma traceStackTwoWay_restores_witness :
  exists flattened_track' first' calls,
    traceStackTwoWay cos_example sin_example tiny_example pi_example ts_example
      (track_example [1; 1 # 2; 1 # 4]) first_example 3 (1 # 2)
    = Ok (flattened_track', first', calls) /\
    hd post calls = setDirection true /\
    flattened_track' = track_example [1; 1 # 2; 1 # 4] /\ first' = first_example /\
    (_start flattened_track' = _start (track_example [1; 1 # 2; 1 # 4]) /\
     _end flattened_track' = _end (track_example [1; 1 # 2; 1 # 4]) /\
     _phi flattened_track' = _phi (track_example [1; 1 # 2; 1 # 4]) /\
     _segments flattened_track' = _segments (track_example [1; 1 # 2; 1 # 4])) /\
    (_start_3D first' = _start_3D first_example /\
     _end_3D first' = _end_3D first_example /\
     _theta first' = _theta first_example).
Proof.
  eexists. eexists. eexists.
  split; [vm_compute; reflexivity |].
  split; [reflexivity |].
  eapply (traceStackTwoWay_restores cos_example sin_example tiny_example
            pi_example ts_example (track_example [1; 1 # 2; 1 # 4])
            first_example 3%Z (1 # 2)).
  vm_compute. reflexivity.
Defined.

(** ** loopOverTracksByStackOTF: the calls of the hook *)

Lemma for_each_count {A B : Type} (f : B -> bool) (body : A -> outcome (list B))
    (c : nat) (l : list A) (evs : list B) :
  (forall a r, body a = Ok r -> length (filter f r) = c) ->
  for_each l body = Ok evs ->
  length (filter f evs) = (length l * c)%nat.
Proof.
  intros Hb. revert evs. induction l as [| a tl IH]; intros evs H; simpl in H.
  - inv_Ok H. reflexivity.
  - inv_bind H. inv_bind H. inv_Ok H.
    rewrite filter_app, length_app. simpl.
    rewrite (Hb a a0 E), (IH a1 E0). reflexivity.
Qed.

Lemma zrange_length (lo hi : Z) : length (zrange lo hi) = Z.to_nat (hi - lo).
Proof. unfold zrange. rewrite length_map, length_seq. reflexivity. Qed.

Lemma kernel_calls_not_onTrack (evs : list event) :
  filter is_onTrack (map (fun e => onKernel (execute e)) evs) = [].
Proof. induction evs as [| e tl IH]; simpl; auto. Qed.

(** The body of the loop over polar angles calls the hook once, on the first
    track of the z-stack. *)
Lemma stack_iteration_onTrack cos sin TINY_MOVE ts tg kernels tid
    flattened_track p calls :
  stack_iteration cos sin TINY_MOVE ts tg kernels tid flattened_track p = Ok calls ->
  filter is_onTrack calls
  = [onTrack (_azim_index flattened_track, _xy_index flattened_track, p, 0%Z)
             (tid, 0%Z)].
Proof.
  unfold stack_iteration. intros H. inv_bind H. inv_Ok H.
  rewrite filter_app. simpl.
  assert (filter is_onTrack a = []) as ->; [| reflexivity].
  destruct kernels.
  - inv_bind E. inv_bind E. inv_Ok E. simpl.
    rewrite filter_app. simpl. rewrite app_nil_r.
    apply kernel_calls_not_onTrack.
  - inv_Ok E. reflexivity.
Qed.

(** The dispatcher calls the hook once for each pair of a flattened track and
    a polar angle, whatever the number of tracks of the z-stacks. *)
Lemma loopOverTracksByStackOTF_onTrack_count cos sin TINY_MOVE ts tg kernels
    tid calls :
  loopOverTracksByStackOTF cos sin TINY_MOVE ts tg kernels tid = Ok calls ->
  length (filter is_onTrack calls)
  = (Z.to_nat (getNum2DTracks tg) * Z.to_nat (getNumPolar tg))%nat.
Proof.
  unfold loopOverTracksByStackOTF. intros H.
  apply (for_each_count is_onTrack _ (Z.to_nat (getNumPolar tg))) in H.
  - rewrite H, zrange_length. f_equal. lia.
  - intros ext_id r Hr. inv_bind Hr.
    apply (for_each_count is_onTrack _ 1%nat) in Hr.
    + rewrite Hr, zrange_length. lia.
    + intros p r' Hr'. apply stack_iteration_onTrack in Hr'.
      rewrite Hr'. reflexivity.
Qed.

(** C1 (what the code does).  For one flattened track, one polar angle and a
    z-stack of three 3D tracks, [loopOverTracksByStackOTF] calls the hook
    [onTrack] once, on the first track of the stack, with or without kernels:
    not once for each of the three tracks of the stack. *)
Theorem loopOverTracksByStackOTF_onTrack_once_per_stack :
  getTracksPerStack tg_example 0 0 0 = 3%Z /\
  (exists calls,
      loopOverTracksByStackOTF cos_example sin_example tiny_example ts_example
        tg_example true 0 = Ok calls /\
      filter is_onTrack calls = [onTrack (0, 0, 0, 0)%Z (0, 0)%Z] /\
      length (filter is_onTrack calls)
      = (Z.to_nat (getNum2DTracks tg_example) * Z.to_nat (getNumPolar tg_example))%nat) /\
  loopOverTracksByStackOTF cos_example sin_example tiny_example ts_example
    tg_example false 0 = Ok [onTrack (0, 0, 0, 0)%Z (0, 0)%Z].
Proof.
  split; [reflexivity |]. split; [| reflexivity].
  eexists. split; [vm_compute; reflexivity |].
  split; [reflexivity |].
  apply (loopOverTracksByStackOTF_onTrack_count cos_example sin_example
           tiny_example ts_example tg_example true 0%Z).
  vm_compute. reflexivity.
Qed.

(** ** Exact arithmetic of the lengths *)

Lemma Qdiv_cancel_l (a c : Q) : ~ c == 0 -> c * (a / c) == a.
Proof. intros H. field. exact H. Qed.

Lemma Qdiv_cancel_r (a c : Q) : ~ c == 0 -> a / c * c == a.
Proof. intros H. field. exact H. Qed.

Lemma Qdiv_le_compat (a b s : Q) : 0 < s -> a <= b -> a / s <= b / s.
Proof.
  intros Hs Hab. apply Qle_shift_div_l; [exact Hs |].
  rewrite Qdiv_cancel_r by lra. exact Hab.
Qed.

Lemma Qdiv_nonneg (a c : Q) :
  (0 < c /\ 0 <= a) \/ (c < 0 /\ a <= 0) -> 0 <= a / c.
Proof.
  intros [[Hc Ha] | [Hc Ha]].
  - apply Qle_shift_div_l; [exact Hc | lra].
  - assert (a / c == (- a) / (- c)) as -> by (field; lra).
    apply Qle_shift_div_l; lra.
Qed.

Lemma Qdiv_pos (a c : Q) : 0 < c -> 0 < a -> 0 < a / c.
Proof. intros Hc Ha. apply Qlt_shift_div_l; [exact Hc | lra]. Qed.

Lemma Qlt_div_mult (x a c : Q) :
  x < a / c -> (0 < c -> c * x < a) /\ (c < 0 -> a < c * x).
Proof.
  intros H. split; intros Hc.
  - assert (c * x < c * (a / c)) as H0 by (apply Qmult_lt_l; assumption).
    rewrite Qdiv_cancel_l in H0 by lra. exact H0.
  - assert ((- c) * x < (- c) * (a / c)) as H0
        by (apply Qmult_lt_l; [lra | assumption]).
    assert (c * (a / c) == a) by (apply Qdiv_cancel_l; lra).
    lra.
Qed.

Lemma Qle_div_mult (x a s : Q) : 0 < s -> x <= a / s -> x * s <= a.
Proof.
  intros Hs H.
  assert (x * s <= a / s * s) as H0 by (apply Qmult_le_compat_r; lra).
  rewrite Qdiv_cancel_r in H0 by lra. exact H0.
Qed.

Lemma Qsum_app (l1 l2 : list Q) : Qsum (l1 ++ l2) == Qsum l1 + Qsum l2.
Proof.
  induction l1 as [| x tl IH]; simpl; [ring |]. rewrite IH. ring.
Qed.

Lemma Qsum_filter (f : Q -> bool) (l : list Q) :
  Qsum (filter f l) + Qsum (filter (fun d => negb (f d)) l) == Qsum l.
Proof.
  induction l as [| x tl IH]; simpl; [ring |].
  destruct (f x); simpl; rewrite <- IH; ring.
Qed.

Lemma Qsum_nonneg (l : list Q) : Forall (fun d => 0 <= d) l -> 0 <= Qsum l.
Proof.
  induction 1 as [| x tl Hx _ IH]; simpl; [lra | lra].
Qed.

Lemma sign_of_cases (c : Q) :
  ~ c == 0 ->
  (sign_of c = 1%Z /\ 0 < c) \/ (sign_of c = (-1)%Z /\ c < 0).
Proof.
  intros Hc. unfold sign_of.
  destruct (Qgtb c 0) eqn:Eg, (Qltb c 0) eqn:El.
  - apply Qgtb_gt in Eg. apply Qltb_lt in El. lra.
  - apply Qgtb_gt in Eg. left. split; [reflexivity | exact Eg].
  - apply Qltb_lt in El. right. split; [reflexivity | exact El].
  - apply Qgtb_le in Eg. apply Qltb_ge in El. exfalso. apply Hc. lra.
Qed.

Section SegmentArithmetic.

Variables (TINY_MOVE : Q) (geometry : Geometry) (cos_theta sin_theta : Q)
          (sign : Z).

Hypothesis sin_pos : 0 < sin_theta.
Hypothesis sign_cos :
  (sign = 1%Z /\ 0 < cos_theta) \/ (sign = (-1)%Z /\ cos_theta < 0).

(** One pass keeps the axial height in its cell, covers a non-negative
    length and does not go beyond the end of the 2D segment. *)
Lemma pass_arith axial_mesh st dist_2D dist_3D z_move z_coord' :
  strictly_increasing axial_mesh = true ->
  in_cell sign axial_mesh (z_coord st) (z_ind st) ->
  0 < remaining_length_2D st ->
  shortest_distance cos_theta sin_theta sign axial_mesh st
  = Ok (dist_2D, dist_3D, z_move) ->
  z_coord' == z_coord st + cos_theta * dist_3D ->
  0 <= dist_3D /\ dist_3D <= remaining_length_2D st / sin_theta /\
  dist_2D == dist_3D * sin_theta /\ 0 <= dist_2D /\
  0 <= remaining_length_2D st - dist_2D /\
  in_cell sign axial_mesh z_coord' (z_ind st + z_move).
Proof.
  intros Hinc Hcell Hrem Hsd Hz.
  apply shortest_distance_inv in Hsd. destruct Hsd as (m & Hm & Hcase).
  specialize (Hcell m Hm).
  assert (0 <= (m - z_coord st) / cos_theta) as Hzd.
  { apply Qdiv_nonneg.
    destruct sign_cos as [[-> Hc] | [-> Hc]]; simpl in Hcell; [left | right];
      split; lra. }
  assert (cos_theta * ((m - z_coord st) / cos_theta) == m - z_coord st) as Hcancel.
  { apply Qdiv_cancel_l. destruct sign_cos as [[_ Hc] | [_ Hc]]; lra. }
  destruct Hcase as [(-> & Hle & -> & ->) | (Hlt & -> & -> & ->)].
  - (* the axial boundary is reached first *)
    pose proof (Qle_div_mult _ _ _ sin_pos Hle) as Hd2.
    assert (0 <= (m - z_coord st) / cos_theta * sin_theta) as Hd2'.
    { apply Qmult_le_0_compat; lra. }
    repeat split; try lra; try reflexivity.
    intros m' Hm'.
    destruct sign_cos as [[-> Hc] | [-> Hc]]; simpl in *.
    + assert (m < m')
        by (eapply (strictly_increasing_read axial_mesh (z_ind st + 1) (z_ind st + 1 + 1));
            eauto; lia).
      lra.
    + assert (m' < m)
        by (eapply (strictly_increasing_read axial_mesh (z_ind st + -1) (z_ind st));
            eauto; lia).
      lra.
  - (* the end of the 2D segment is reached first *)
    pose proof (Qdiv_pos _ _ sin_pos Hrem) as Hpos.
    assert (remaining_length_2D st / sin_theta * sin_theta
            == remaining_length_2D st) as Hr
        by (apply Qdiv_cancel_r; lra).
    repeat split; try lra.
    intros m' Hm'. rewrite Z.add_0_r in Hm'.
    rewrite Hm in Hm'. inv_Ok Hm'.
    apply Qlt_div_mult in Hlt. destruct Hlt as [Hp Hn].
    destruct sign_cos as [[-> Hc] | [-> Hc]]; simpl in *.
    + specialize (Hp Hc). lra.
    + specialize (Hn Hc). lra.
Qed.

(** The passes over one 2D segment: their lengths are non-negative and at
    most the 3D length of what remained of the 2D segment, they sum to the
    length covered, and a loop that ends without axial exit has covered the
    whole 2D segment and left the axial height in its cell. *)
Lemma transport_2D_segment_arith fuel seg extruded_FSR axial_mesh num_fsrs :
  strictly_increasing axial_mesh = true ->
  forall st st' evs dists,
    in_cell sign axial_mesh (z_coord st) (z_ind st) ->
    0 <= remaining_length_2D st ->
    transport_2D_segment TINY_MOVE geometry cos_theta sin_theta sign fuel seg
      extruded_FSR axial_mesh num_fsrs st = Ok (st', evs, dists) ->
    Forall (fun d => 0 <= d /\ d <= remaining_length_2D st / sin_theta) dists /\
    Qsum dists * sin_theta == remaining_length_2D st - remaining_length_2D st' /\
    (segments_complete st' = false ->
     remaining_length_2D st' == 0 /\
     in_cell sign axial_mesh (z_coord st') (z_ind st')).
Proof.
  intros Hinc. induction fuel as [| fuel IH]; intros st st' evs dists Hcell H0 H.
  - destruct (Qgtb (remaining_length_2D st) 0) eqn:Hrem.
    + exfalso. eapply transport_2D_segment_no_fuel; eauto.
    + rewrite transport_2D_segment_done in H by exact Hrem. inv_Ok H.
      apply Qgtb_le in Hrem.
      repeat split; [constructor | simpl; lra | lra | exact Hcell].
  - destruct (Qgtb (remaining_length_2D st) 0) eqn:Hrem.
    + apply transport_2D_segment_pass in H; [| exact Hrem].
      apply Qgtb_gt in Hrem.
      destruct H as (d2 & d3 & zm & fsr_id & executed & zc & Hsd & _ & Hzc & _ & H).
      destruct (pass_arith axial_mesh st d2 d3 zm zc Hinc Hcell Hrem Hsd Hzc)
        as (Hd3 & Hd3' & Hd2 & Hd2' & Hr' & Hcell').
      cbv zeta in H.
      destruct ((z_ind st + zm <? 0)%Z || (z_ind st + zm >=? num_fsrs)%Z).
      * inv_Ok H. simpl. repeat split; try discriminate.
        -- constructor; [split; assumption | constructor].
        -- lra.
      * destruct H as (st1 & evs1 & dists1 & Hrec & H). inv_Ok H.
        apply IH in Hrec; [| exact Hcell' | exact Hr'].
        simpl in Hrec. destruct Hrec as (Hf & Hs & Hc).
        repeat split.
        -- constructor; [split; assumption |].
           eapply Forall_impl; [| exact Hf]. simpl. intros d [Hd0 Hd1].
           split; [exact Hd0 |].
           assert ((remaining_length_2D st - d2) / sin_theta
                   <= remaining_length_2D st / sin_theta)
             by (apply Qdiv_le_compat; lra).
           lra.
        -- simpl. lra.
        -- apply Hc; assumption.
        -- apply Hc; assumption.
    + rewrite transport_2D_segment_done in H by exact Hrem. inv_Ok H.
      apply Qgtb_le in Hrem.
      repeat split; [constructor | simpl; lra | lra | exact Hcell].
Qed.

End SegmentArithmetic.




(** ** traceSegmentsOTF: the lengths of a whole ray *)

Lemma mesh_ok_inv (axial_mesh : list Q) (num_fsrs : Z) :
  mesh_ok axial_mesh num_fsrs = true ->
  strictly_increasing axial_mesh = true /\
  Z.of_nat (length axial_mesh) = (num_fsrs + 1)%Z /\
  (1 <= num_fsrs < 2 ^ 30)%Z.
Proof.
  unfold mesh_ok. intros H.
  repeat (apply andb_true_iff in H; destruct H as [H ?]).
  repeat split; auto; lia.
Qed.

(** The cell found by the search contains the axial height. *)
Lemma findMeshIndex_Ok_in_cell (axial_mesh : list Q) (num_fsrs : Z) (z : Q)
    (sign z_ind : Z) :
  mesh_ok axial_mesh num_fsrs = true ->
  findMeshIndex axial_mesh (num_fsrs + 1)%Z z sign = Ok z_ind ->
  in_cell sign axial_mesh z z_ind.
Proof.
  intros Hok H. apply mesh_ok_inv in Hok. destruct Hok as (Hinc & Hlen & Hnf).
  destruct (findMeshIndex_guard axial_mesh (num_fsrs + 1) z sign Hlen ltac:(lia))
    as (vmin & vmax & Hmin & Hmax & Heq).
  pose proof H as Hfm. rewrite Heq in H.
  destruct (Qltb z vmin) eqn:Elo; [discriminate |].
  destruct (Qgtb z vmax) eqn:Ehi; [discriminate |].
  apply Qltb_ge in Elo. apply Qgtb_le in Ehi. clear H Heq.
  destruct (findMeshIndex_in_range axial_mesh (num_fsrs + 1) z sign vmin vmax)
    as [(m & v & Hm & Hv & Hve & Hres) | (i & lo & hi & Hres & Hi & Hl & Hh & H1 & H2 & _)];
    auto; try lia; rewrite Hfm in Hres; inv_Ok Hres.
  - (* the height is the boundary [m] *)
    intros m' Hm'. destruct (sign >? 0)%Z.
    + assert (v < m')
        by (eapply (strictly_increasing_read axial_mesh m (m + 1)); eauto; lia).
      lra.
    + assert (m' < v)
        by (eapply (strictly_increasing_read axial_mesh (m - 1) m); eauto; lia).
      lra.
  - intros m' Hm'. destruct (sign >? 0)%Z.
    + rewrite Hh in Hm'. inv_Ok Hm'. exact H2.
    + rewrite Hl in Hm'. inv_Ok Hm'. exact H1.
Qed.

(** The scan for the starting segment: what it leaves of the offset and of
    the track. *)
Lemma find_start_segment_spec (segments_2D : list segment) :
  forall (d : Q) (k0 : Z) (d' : Q) (k : Z),
    find_start_segment segments_2D d k0 = (d', k) ->
    exists j : nat,
      k = (k0 + Z.of_nat j)%Z /\
      Qsum (map _length (skipn j segments_2D)) - d'
      == Qsum (map _length segments_2D) - d /\
      match skipn j segments_2D with
      | [] => (segments_2D = [] /\ d' = d) \/ 0 < d'
      | sg :: _ => d' <= _length sg
      end.
Proof.
  induction segments_2D as [| sg rest IH]; intros d k0 d' k H; simpl in H.
  - inv_Ok H. exists O. change (skipn 0 (@nil segment)) with (@nil segment).
    split; [lia |]. split; [lra | left; auto].
  - destruct (Qgtb d (_length sg)) eqn:Eg.
    + apply Qgtb_gt in Eg. apply IH in H.
      destruct H as (j & -> & Hsum & Hm).
      exists (S j).
      change (skipn (S j) (sg :: rest)) with (skipn j rest).
      change (Qsum (map _length (sg :: rest)))
        with (_length sg + Qsum (map _length rest)).
      split; [lia |]. split; [lra |].
      destruct (skipn j rest); [| exact Hm].
      right. destruct Hm as [[-> ->] | Hm]; [lra | exact Hm].
    + apply Qgtb_le in Eg. inv_Ok H.
      exists O. change (skipn 0 (sg :: rest)) with (sg :: rest).
      split; [lia |]. split; [lra | exact Eg].
Qed.

Lemma Forall_skipn_tail {A : Type} (P : A -> Prop) (j : nat) (l : list A) :
  Forall P l -> Forall P (skipn j l).
Proof.
  revert l. induction j as [| j IH]; intros l H; simpl; [exact H |].
  destruct l as [| x tl]; [constructor |].
  apply IH. inversion H; assumption.
Qed.

Lemma read_In {A : Type} (a : list A) (i : Z) (v : A) : read a i = Ok v -> In v a.
Proof.
  intros H. apply read_Ok in H. destruct H as [_ H].
  eapply nth_error_In; eauto.
Qed.

Section RayArithmetic.

Variables (TINY_MOVE : Q) (geometry : Geometry) (cos_theta sin_theta : Q)
          (sign : Z).

Hypothesis sin_pos : 0 < sin_theta.
Hypothesis sign_cos :
  (sign = 1%Z /\ 0 < cos_theta) \/ (sign = (-1)%Z /\ cos_theta < 0).

(** The passes over the 2D segments of a ray that ends without axial exit:
    their lengths are non-negative and sum to the 3D length of the 2D
    segments, less the starting offset. *)
Lemma otf_segments_loop_arith fuel contains_global_z_mesh segments_2D :
  (contains_global_z_mesh = false ->
   forallb (fun e => mesh_ok (_mesh e) (_num_fsrs e))
           (_extruded_FSR_lookup geometry) = true) ->
  Forall (fun sg => 0 <= _length sg) segments_2D ->
  forall first_segment start_dist_2D num_fsrs axial_mesh z_coord0 z_ind0 evs dists,
    match segments_2D with
    | [] => start_dist_2D == 0
    | sg :: _ => start_dist_2D <= _length sg
    end ->
    (first_segment || contains_global_z_mesh = true ->
     strictly_increasing axial_mesh = true /\
     in_cell sign axial_mesh z_coord0 z_ind0) ->
    otf_segments_loop TINY_MOVE geometry cos_theta sin_theta sign fuel
      contains_global_z_mesh segments_2D first_segment start_dist_2D num_fsrs
      axial_mesh z_coord0 z_ind0 = Ok (false, evs, dists) ->
    Forall (fun d => 0 <= d) dists /\
    Qsum dists * sin_theta == Qsum (map _length segments_2D) - start_dist_2D.
Proof.
  intros Hfsr Hlen. induction Hlen as [| seg rest Hseg Hrest IH];
    intros first_segment start_dist_2D num_fsrs axial_mesh z_coord0 z_ind0 evs
           dists Hsd Hmesh H.
  - simpl in H. inv_Ok H. split; [constructor | simpl; lra].
  - apply otf_segments_loop_pass in H.
    destruct H as (efsr & nf & mesh & zi & st & evs1 & dists1 & He & Hm & Ht & H).
    assert (strictly_increasing mesh = true /\ in_cell sign mesh z_coord0 zi)
      as [Hinc Hcell].
    { destruct (first_segment || contains_global_z_mesh) eqn:Efc.
      - inv_Ok Hm. apply Hmesh. reflexivity.
      - destruct Hm as (-> & -> & Hfm).
        apply orb_false_iff in Efc. destruct Efc as [_ ->].
        specialize (Hfsr eq_refl).
        assert (mesh_ok (_mesh efsr) (_num_fsrs efsr) = true) as Hok.
        { revert Hfsr. rewrite forallb_forall. intros Hall. apply Hall.
          eapply read_In. exact He. }
        split.
        + apply mesh_ok_inv in Hok. apply Hok.
        + eapply findMeshIndex_Ok_in_cell; eauto. }
    pose proof (transport_2D_segment_arith TINY_MOVE geometry cos_theta sin_theta
                  sign sin_pos sign_cos fuel seg efsr mesh nf Hinc
                  (mkOtf z_coord0 zi (_length seg - start_dist_2D) false)
                  st evs1 dists1 Hcell ltac:(simpl; lra) Ht) as (Hf & Hs & Hc).
    simpl in Hs.
    destruct (segments_complete st) eqn:Ec.
    + inv_Ok H.
    + destruct H as (c & evs2 & dists2 & Hrec & H). inv_Ok H.
      destruct (Hc eq_refl) as [Hr0 Hcell'].
      apply IH in Hrec.
      * destruct Hrec as [Hf2 Hs2]. split.
        -- apply Forall_app. split; [| exact Hf2].
           eapply Forall_impl; [| exact Hf]. simpl. intros d [Hd _]. exact Hd.
        -- rewrite Qsum_app. simpl. lra.
      * destruct rest as [| sg' rest']; [reflexivity |].
        inversion Hrest; assumption.
      * intros Hcg. simpl in Hcg. split; [exact Hinc | exact Hcell'].
Qed.

End RayArithmetic.

(** C3 (as stated, refuted).  This ray stays inside the axial mesh (no axial
    exit); two of its passes, of length 8e-9 each, are below the tolerance
    1e-8 and are not passed to the kernel, and the lengths passed fall short
    of the 3D path length by 1.6e-8, more than the tolerance. *)
Lemma suppressed_lengths_exceed_tolerance :
  exists evs dists,
    traceSegmentsOTF cos_example sin_example tiny_example 10 ts_example
      (track_example [1; 48 # 10000000000; 48 # 10000000000]) (mkPoint 0 0 0)
      theta_example
    = Ok (false, evs, dists) /\
    ~ Qabs (Qsum (map ev_length evs)
            - path_length_3D cos_example sin_example
                (track_example [1; 48 # 10000000000; 48 # 10000000000])
                (mkPoint 0 0 0) theta_example)
      <= tiny_example.
Proof.
  eexists. eexists. split; [vm_compute; reflexivity |].
  intros H. vm_compute in H. apply H. reflexivity.
Qed.

(** C3 (amended).  For a ray traced by [traceSegmentsOTF] without axial exit
    (with [sin theta > 0], [cos theta <> 0], well-formed axial meshes,
    non-negative 2D lengths and a start on the flattened track), in exact
    arithmetic: the lengths passed to the kernel are the lengths of the passes
    that exceed [TINY_MOVE]; the lengths of all passes are non-negative and
    sum to the 3D path length of the ray (its 2D path length beyond the
    starting offset, divided by [sin theta]); so the lengths passed to the
    kernel never exceed the path length and fall short of it by the sum of
    the suppressed lengths, each at most [TINY_MOVE]. *)
Theorem traceSegmentsOTF_lengths_cover_path (cos sin : Q -> Q) (TINY_MOVE : Q)
    (fuel : nat) (ts : TraverseSegments) (flattened_track : Track)
    (start : Point) (theta : Q) (evs : list event) (dists : list Q) :
  0 < sin theta -> ~ cos theta == 0 ->
  meshes_ok ts = true ->
  Forall (fun sg => 0 <= _length sg) (_segments flattened_track) ->
  0 <= start_offset_2D cos flattened_track start ->
  start_offset_2D cos flattened_track start
  <= Qsum (map _length (_segments flattened_track)) ->
  traceSegmentsOTF cos sin TINY_MOVE fuel ts flattened_track start theta
  = Ok (false, evs, dists) ->
  map ev_length evs = filter (fun d => Qgtb d TINY_MOVE) dists /\
  Forall (fun d => 0 <= d) dists /\
  Qsum dists == path_length_3D cos sin flattened_track start theta /\
  Qsum (map ev_length evs)
  + Qsum (filter (fun d => negb (Qgtb d TINY_MOVE)) dists)
  == path_length_3D cos sin flattened_track start theta /\
  Forall (fun d => 0 <= d /\ d <= TINY_MOVE)
         (filter (fun d => negb (Qgtb d TINY_MOVE)) dists) /\
  Qsum (map ev_length evs) <= path_length_3D cos sin flattened_track start theta.
Proof.
  intros Hsin Hcos Hok Hlen Hd0 Hd1 H.
  pose proof H as Hinv. apply traceSegmentsOTF_inv in Hinv. cbv zeta in Hinv.
  destruct Hinv as (cg & nf & mesh & zi & Hsel & Hfm & Hloop).
  destruct (find_start_segment (_segments flattened_track)
              (start_offset_2D cos flattened_track start) 0)
    as [d' k] eqn:Efind.
  apply find_start_segment_spec in Efind.
  destruct Efind as (j & -> & Hsum & Hj). simpl in Hloop, Hsel.
  rewrite Nat2Z.id in Hloop.
  (* the starting mesh is well formed *)
  assert (mesh_ok mesh nf = true /\
          (cg = false ->
           forallb (fun e => mesh_ok (_mesh e) (_num_fsrs e))
                   (_extruded_FSR_lookup (_geometry ts)) = true)) as [Hmesh Hfsr].
  { unfold meshes_ok in Hok. destruct (_global_z_mesh ts) as [g |].
    - destruct Hsel as (-> & -> & ->). split; [exact Hok | discriminate].
    - destruct Hsel as (-> & sg & efsr & _ & He & -> & ->).
      split; [| intros _; exact Hok].
      revert Hok. rewrite forallb_forall. intros Hall. apply Hall.
      eapply read_In. exact He. }
  pose proof (findMeshIndex_Ok_in_cell _ _ _ _ _ Hmesh Hfm) as Hcell.
  apply mesh_ok_inv in Hmesh. destruct Hmesh as (Hinc & _ & _).
  (* the lengths of the passes *)
  assert (match skipn j (_segments flattened_track) with
          | [] => d' == 0
          | sg :: _ => d' <= _length sg
          end) as Hpre.
  { destruct (skipn j (_segments flattened_track)) as [| sg tl]; [| exact Hj].
    simpl in Hsum. destruct Hj as [[Hnil ->] | Hpos]; [| lra].
    rewrite Hnil in Hd1. simpl in Hd1. lra. }
  destruct (otf_segments_loop_arith TINY_MOVE (_geometry ts) (cos theta)
              (sin theta) (sign_of (cos theta)) Hsin
              (sign_of_cases (cos theta) Hcos) fuel cg
              (skipn j (_segments flattened_track)) Hfsr
              (Forall_skipn_tail _ j _ Hlen)
              true d' nf mesh (getZ start) zi evs dists Hpre
              (fun _ => conj Hinc Hcell) Hloop)
    as [Hnn Htot].
  pose proof (proj2 (otf_segments_loop_exceeds _ _ _ _ _ _ _ _ _ _ _ _ _ _ _ _ _ Hloop))
    as Hmap.
  assert (Qsum dists == path_length_3D cos sin flattened_track start theta) as Hpath.
  { unfold path_length_3D.
    assert (Qsum dists == Qsum dists * sin theta / sin theta) as ->
        by (field; lra).
    rewrite Htot, Hsum. reflexivity. }
  assert (Forall (fun d => 0 <= d /\ d <= TINY_MOVE)
                 (filter (fun d => negb (Qgtb d TINY_MOVE)) dists)) as Hsup.
  { apply Forall_forall. intros d Hd. apply filter_In in Hd.
    destruct Hd as [Hin Hle]. apply negb_true_iff, Qgtb_le in Hle.
    split; [| exact Hle].
    rewrite Forall_forall in Hnn. apply Hnn. exact Hin. }
  pose proof (Qsum_filter (fun d => Qgtb d TINY_MOVE) dists) as Hsplit.
  cbv beta in Hsplit.
  split; [exact Hmap |]. split; [exact Hnn |]. split; [exact Hpath |].
  rewrite Hmap. split; [lra |]. split; [exact Hsup |].
  assert (0 <= Qsum (filter (fun d => negb (Qgtb d TINY_MOVE)) dists)).
  { apply Qsum_nonneg. eapply Forall_impl; [| exact Hsup].
    simpl. intros d [Hd _]. exact Hd. }
  lra.
Qed.

Lemma traceSegmentsOTF_lengths_cover_path_witness :
  exists evs dists,
    traceSegmentsOTF cos_example sin_example tiny_example 10 ts_example
      (track_example [1; 48 # 10000000000; 48 # 10000000000]) (mkPoint 0 0 0)
      theta_example
    = Ok (false, evs, dists) /\
    length evs = 2%nat /\ length dists = 4%nat /\
    map ev_length evs = filter (fun d => Qgtb d tiny_example) dists /\
    Forall (fun d => 0 <= d) dists /\
    Qsum dists
    == path_length_3D cos_example sin_example
         (track_example [1; 48 # 10000000000; 48 # 10000000000])
         (mkPoint 0 0 0) theta_example /\
    Qsum (map ev_length evs)
    + Qsum (filter (fun d => negb (Qgtb d tiny_example)) dists)
    == path_length_3D cos_example sin_example
         (track_example [1; 48 # 10000000000; 48 # 10000000000])
         (mkPoint 0 0 0) theta_example /\
    Forall (fun d => 0 <= d /\ d <= tiny_example)
           (filter (fun d => negb (Qgtb d tiny_example)) dists) /\
    Qsum (map ev_length evs)
    <= path_length_3D cos_example sin_example
         (track_example [1; 48 # 10000000000; 48 # 10000000000])
         (mkPoint 0 0 0) theta_example.
Proof.
  eexists. eexists.
  split; [vm_compute; reflexivity |].
  split; [reflexivity |]. split; [reflexivity |].
  apply (traceSegmentsOTF_lengths_cover_path cos_example sin_example
           tiny_example 10%nat ts_example
           (track_example [1; 48 # 10000000000; 48 # 10000000000])
           (mkPoint 0 0 0) theta_example).
  - reflexivity.
  - intros Hc. discriminate Hc.
  - reflexivity.
  - repeat constructor; unfold Qle; simpl; lia.
  - unfold Qle; simpl; lia.
  - unfold Qle; simpl; lia.
  - vm_compute. reflexivity.
Defined.

(* ================================================================= *)
(** * Further properties *)

(** ** findMeshIndex *)

Lemma strictly_increasing_lt_inv (l : list Q) (i j : Z) (vi vj : Q) :
  strictly_increasing l = true ->
  read l i = Ok vi -> read l j = Ok vj -> vi < vj -> (i < j)%Z.
Proof.
  intros Hs Hi Hj Hlt.
  destruct (Z.lt_ge_cases i j) as [H | H]; [exact H | exfalso].
  destruct (Z.eq_dec i j) as [-> | Hne].
  - rewrite Hi in Hj. inv_Ok Hj. lra.
  - assert (vj < vi) by (eapply (strictly_increasing_read l j i); eauto; lia).
    lra.
Qed.

(** X1.  On a strictly increasing array of at most [2^30] values (so that
    the sum [imin + imax] of the search is an [int]), a query strictly
    between two consecutive boundary values [values[i]] and [values[i+1]]
    makes [findMeshIndex] return [i], whatever the sign: away from the
    boundaries the result is the one cell that holds the query. *)
Theorem findMeshIndex_strictly_inside (values : list Q) (size : Z) (val : Q)
    (sign i : Z) (lo hi : Q) :
  Z.of_nat (length values) = size -> (size <= 2 ^ 30)%Z ->
  strictly_increasing values = true ->
  read values i = Ok lo -> read values (i + 1)%Z = Ok hi ->
  lo < val -> val < hi ->
  findMeshIndex values size val sign = Ok i.
Proof.
  intros Hlen Hsz Hinc Hlo Hhi Hl Hh.
  pose proof (read_bound _ _ _ Hlo) as Bi.
  pose proof (read_bound _ _ _ Hhi) as Bi1.
  destruct (read_in_range values 0) as [vmin Hmin]; [lia |].
  destruct (read_in_range values (size - 1)) as [vmax Hmax]; [lia |].
  assert (vmin <= lo).
  { destruct (Z.eq_dec i 0) as [-> | Hne].
    - rewrite Hmin in Hlo. inv_Ok Hlo. lra.
    - apply Qlt_le_weak.
      eapply (strictly_increasing_read values 0 i); eauto; lia. }
  assert (hi <= vmax).
  { destruct (Z.eq_dec (i + 1) (size - 1)) as [E | Hne].
    - rewrite E in Hhi. rewrite Hmax in Hhi. inv_Ok Hhi. lra.
    - apply Qlt_le_weak.
      eapply (strictly_increasing_read values (i + 1) (size - 1)); eauto; lia. }
  destruct (findMeshIndex_in_range values size val sign vmin vmax)
    as [(m & v & Hm & Hv & Hve & Hres) | (j & lo' & hi' & Hres & Hj & Hl' & Hh' & H1 & H2 & _)];
    auto; try lia; try lra.
  - exfalso.
    assert (i < m)%Z
      by (eapply (strictly_increasing_lt_inv values i m); eauto; lra).
    assert (m < i + 1)%Z
      by (eapply (strictly_increasing_lt_inv values m (i + 1)); eauto; lra).
    lia.
  - assert (j < i + 1)%Z
      by (eapply (strictly_increasing_lt_inv values j (i + 1)); eauto; lra).
    assert (i < j + 1)%Z
      by (eapply (strictly_increasing_lt_inv values i (j + 1)); eauto; lra).
    assert (j = i) by lia. subst j. exact Hres.
Qed.

Lemma findMeshIndex_strictly_inside_witness :
  findMeshIndex mesh0123 4 (5 # 2) (-1) = Ok 2%Z.
Proof.
  apply (findMeshIndex_strictly_inside mesh0123 4 (5 # 2) (-1) 2 2 3).
  - reflexivity.
  - lia.
  - reflexivity.
  - reflexivity.
  - reflexivity.
  - reflexivity.
  - reflexivity.
Defined.

(** The result of the search loop does not depend on the number of passes
    allowed, once [2 ^ fuel] covers the width of the interval: each pass
    halves the interval. *)
Lemma findMeshIndex_loop_fuel (f1 f2 : nat) (values : list Q) (val : Q)
    (sign imin imax : Z) :
  (0 <= imin)%Z -> (imax < 2 ^ 30)%Z ->
  (imax - imin <= 2 ^ Z.of_nat f1)%Z -> (imax - imin <= 2 ^ Z.of_nat f2)%Z ->
  findMeshIndex_loop f1 values val sign imin imax
  = findMeshIndex_loop f2 values val sign imin imax.
Proof.
  revert f2 imin imax.
  induction f1 as [| f1 IH]; intros f2 imin imax H0 H30 H1 H2.
  - simpl in H1. destruct f2; simpl;
      destruct (Z.gtb_spec (imax - imin) 1); try lia; reflexivity.
  - destruct f2 as [| f2].
    + simpl in H2. simpl.
      destruct (Z.gtb_spec (imax - imin) 1); try lia; reflexivity.
    + simpl. destruct (Z.gtb_spec (imax - imin) 1) as [Hd | Hd]; [| reflexivity].
      pose proof (imid_between imin imax H0 ltac:(lia) H30) as Hb.
      assert (2 * int_div (int_add imin imax) 2 <= imin + imax
              < 2 * int_div (int_add imin imax) 2 + 2)%Z as Hmid.
      { unfold int_div, int_add. rewrite int_wrap_small by lia.
        rewrite Z.quot_div_nonneg by lia.
        pose proof (Z.div_mod (imin + imax) 2 ltac:(lia)).
        pose proof (Z.mod_pos_bound (imin + imax) 2 ltac:(lia)). lia. }
      set (imid := int_div (int_add imin imax) 2) in *.
      rewrite Nat2Z.inj_succ, Z.pow_succ_r in H1, H2 by lia.
      destruct (read values imid) as [v | | |]; simpl; try reflexivity.
      destruct (Qgtb val v).
      * apply IH; lia.
      * destruct (Qltb val v); [| reflexivity]. apply IH; lia.
Qed.

Lemma pow2_gt (n : nat) : (Z.of_nat n < 2 ^ Z.of_nat n)%Z.
Proof. apply Z.pow_gt_lin_r; lia. Qed.

(** X2.  The binary search of [findMeshIndex] is logarithmic: on an array of
    [size] values, [2 <= size <= 2^30] (so that the sum [imin + imax] is an
    [int]), and a query in its range, any number [fuel] of passes of the
    [while] loop with [size - 1 <= 2 ^ fuel] is enough to reach the result of
    [findMeshIndex]. *)
Theorem findMeshIndex_logarithmic (fuel : nat) (values : list Q) (size : Z)
    (val : Q) (sign : Z) (vmin vmax : Q) :
  Z.of_nat (length values) = size -> (2 <= size <= 2 ^ 30)%Z ->
  read values 0 = Ok vmin -> read values (size - 1)%Z = Ok vmax ->
  vmin <= val -> val <= vmax ->
  (size - 1 <= 2 ^ Z.of_nat fuel)%Z ->
  exists i,
    findMeshIndex values size val sign = Ok i /\
    findMeshIndex_loop fuel values val sign 0 (size - 1) = Ok i.
Proof.
  intros Hlen Hsz Hmin Hmax Hlo Hhi Hf.
  assert (exists i, findMeshIndex values size val sign = Ok i) as [i Hi].
  { destruct (findMeshIndex_in_range values size val sign vmin vmax)
      as [(m & v & _ & _ & _ & Hres) | (i & lo & hi & Hres & _)]; auto; eauto. }
  exists i. split; [exact Hi |].
  destruct (findMeshIndex_guard values size val sign Hlen ltac:(lia))
    as (vmin' & vmax' & Hmin' & Hmax' & Heq).
  rewrite Hmin in Hmin'. injection Hmin' as <-.
  rewrite Hmax in Hmax'. injection Hmax' as <-.
  rewrite Heq in Hi.
  assert (Qltb val vmin = false) as E1 by (apply Qltb_ge; exact Hlo).
  assert (Qgtb val vmax = false) as E2 by (apply Qgtb_le; exact Hhi).
  rewrite E1, E2 in Hi. simpl in Hi. rewrite <- Hi.
  apply findMeshIndex_loop_fuel; try lia.
  pose proof (pow2_gt (Z.to_nat size)). lia.
Qed.

Lemma findMeshIndex_logarithmic_witness :
  exists i,
    findMeshIndex mesh0123 4 (5 # 2) 1 = Ok i /\
    findMeshIndex_loop 2 mesh0123 (5 # 2) 1 0 (4 - 1) = Ok i.
Proof.
  apply (findMeshIndex_logarithmic 2 mesh0123 4 (5 # 2) 1 0 3).
  - reflexivity.
  - lia.
  - reflexivity.
  - reflexivity.
  - unfold Qle; simpl; lia.
  - unfold Qle; simpl; lia.
  - simpl; lia.
Defined.


(** ** Loops over ranges of indices *)

Lemma for_each_ext {A B : Type} (l : list A) (body body' : A -> outcome (list B)) :
  (forall a, In a l -> body a = body' a) -> for_each l body = for_each l body'.
Proof.
  induction l as [| a tl IH]; intros H; [reflexivity |].
  simpl. rewrite (H a) by (left; reflexivity).
  rewrite IH; [reflexivity |]. intros a' Hin. apply H. right. exact Hin.
Qed.

Lemma for_each_pure {A B : Type} (l : list A) (f : A -> list B) :
  for_each l (fun a => Ok (f a)) = Ok (flat_map f l).
Proof.
  induction l as [| a tl IH]; [reflexivity |].
  simpl. rewrite IH. reflexivity.
Qed.

(** A loop whose passes all succeed. *)
Lemma for_each_Ok {A B : Type} (l : list A) (body : A -> outcome (list B))
    (f : A -> list B) :
  (forall a, In a l -> body a = Ok (f a)) -> for_each l body = Ok (flat_map f l).
Proof.
  intros H. rewrite (for_each_ext l body (fun a => Ok (f a)) H).
  apply for_each_pure.
Qed.

Lemma read_app {A : Type} (pre l : list A) (x : A) :
  read (pre ++ x :: l) (Z.of_nat (length pre)) = Ok x.
Proof.
  apply read_Ok. split; [lia |].
  rewrite Nat2Z.id, nth_error_app2 by lia.
  rewrite Nat.sub_diag. reflexivity.
Qed.

(** A loop over the first elements of an array [a[lo], a[lo+1], ...]: its
    passes are those over the pairs of an index and the element there. *)
Lemma for_each_read_from {A B : Type} (pre l : list A) (lo hi : Z)
    (body : Z -> A -> outcome (list B)) (f : Z -> A -> list B) :
  lo = Z.of_nat (length pre) -> (hi <= lo + Z.of_nat (length l))%Z ->
  (forall i x, In (i, x) (combine (zrange lo hi) l) -> body i x = Ok (f i x)) ->
  for_each (zrange lo hi) (fun i => x <- read (pre ++ l) i ;; body i x)
  = Ok (flat_map (fun ix => f (fst ix) (snd ix)) (combine (zrange lo hi) l)).
Proof.
  revert pre lo. induction l as [| x tl IH]; intros pre lo Hlo Hhi Hb.
  - rewrite zrange_empty by (simpl in Hhi; lia). reflexivity.
  - destruct (Z.lt_ge_cases lo hi) as [Hlt | Hge];
      [| rewrite zrange_empty by lia; reflexivity].
    rewrite zrange_cons in * by lia.
    cbn [for_each combine flat_map fst snd].
    assert (read (pre ++ x :: tl) lo = Ok x) as ->
        by (rewrite Hlo; apply read_app).
    cbn [bind].
    rewrite (Hb lo x) by (left; reflexivity). cbn [bind].
    replace (pre ++ x :: tl) with ((pre ++ [x]) ++ tl)
      by (rewrite <- app_assoc; reflexivity).
    rewrite (IH (pre ++ [x]) (lo + 1)%Z).
    + reflexivity.
    + rewrite length_app. simpl. lia.
    + simpl in Hhi. lia.
    + intros i y Hin. apply Hb. right. exact Hin.
Qed.

Lemma for_each_read {A B : Type} (l : list A) (n : Z)
    (body : Z -> A -> outcome (list B)) (f : Z -> A -> list B) :
  (n <= Z.of_nat (length l))%Z ->
  (forall i x, In (i, x) (combine (zrange 0 n) l) -> body i x = Ok (f i x)) ->
  for_each (zrange 0 n) (fun i => x <- read l i ;; body i x)
  = Ok (flat_map (fun ix => f (fst ix) (snd ix)) (combine (zrange 0 n) l)).
Proof.
  intros Hn Hb. apply (for_each_read_from [] l 0 n body f); auto.
Qed.

Lemma flat_map_singleton {A B : Type} (f : A -> B) (l : list A) :
  flat_map (fun a => [f a]) l = map f l.
Proof. induction l as [| a tl IH]; simpl; [| rewrite IH]; reflexivity. Qed.

Lemma flat_map_map {A B C : Type} (f : A -> B) (g : B -> list C) (l : list A) :
  flat_map g (map f l) = flat_map (fun a => g (f a)) l.
Proof. induction l as [| a tl IH]; simpl; [| rewrite IH]; reflexivity. Qed.

Lemma flat_map_flat_map {A B C : Type} (f : A -> list B) (g : B -> list C)
    (l : list A) :
  flat_map g (flat_map f l) = flat_map (fun a => flat_map g (f a)) l.
Proof.
  induction l as [| a tl IH]; simpl; [reflexivity |].
  rewrite flat_map_app, IH. reflexivity.
Qed.

Lemma map_snd_combine {A B : Type} (l1 : list A) (l2 : list B) :
  length l1 = length l2 -> map snd (combine l1 l2) = l2.
Proof.
  revert l2. induction l1 as [| a tl IH]; intros [| b tl2] H; simpl in *;
    try discriminate; [reflexivity |].
  rewrite IH by lia. reflexivity.
Qed.

(** ** traceSegmentsExplicit and the loops over explicit tracks *)

Lemma traceSegmentsExplicit_eq (track : Track) :
  traceSegmentsExplicit track = Ok (map segment_event (_segments track)).
Proof.
  unfold traceSegmentsExplicit, getNumSegments.
  rewrite (for_each_read (_segments track) _ (fun _ seg => Ok [segment_event seg])
             (fun _ seg => [segment_event seg])); [| lia | reflexivity].
  rewrite <- (flat_map_map snd (fun seg => [segment_event seg])).
  rewrite map_snd_combine by (rewrite zrange_length; lia).
  rewrite flat_map_singleton. reflexivity.
Qed.

(** X3.  [traceSegmentsExplicit] hands the kernel every stored segment of the
    track, once and in the order of the array, with the stack index 0 and the
    segment's own length, material, region and CMFD surfaces; it reads no
    segment beyond the [getNumSegments()] of the track. *)
Theorem traceSegmentsExplicit_replays_segments (track : Track) :
  traceSegmentsExplicit track = Ok (map segment_event (_segments track)) /\
  (forall e, In e (map segment_event (_segments track)) -> ev_track_idx e = 0%Z).
Proof.
  split; [apply traceSegmentsExplicit_eq |].
  intros e He. apply in_map_iff in He. destruct He as (seg & <- & _).
  reflexivity.
Qed.

Lemma explicit_iteration_eq {T : Type} (kernels : bool) (name : T) (track : Track) :
  explicit_iteration kernels name track = Ok (explicit_calls kernels name track).
Proof.
  unfold explicit_iteration, explicit_calls. destruct kernels.
  - rewrite traceSegmentsExplicit_eq. reflexivity.
  - reflexivity.
Qed.

(** X4.  When every array [tracks_2D[a]] holds the [getNumX(a) + getNumY(a)]
    tracks that the loop reads, [loopOverTracks2D] visits the 2D tracks of
    the first [num_azim / 2] angles in order and, for each, calls [newTrack]
    and replays the stored segments on the kernel (if there is one) and then
    calls [onTrack] with the segments of that track. *)
Theorem loopOverTracks2D_calls (tg : TrackGeneratorExplicit) (kernels : bool) :
  (forall a, (0 <= a < int_div (getNumAzim tg) 2)%Z ->
     (getNumX tg a + getNumY tg a <= Z.of_nat (length (get2DTracks tg a)))%Z) ->
  loopOverTracks2D tg kernels
  = Ok (flat_map (fun nt => explicit_calls kernels (fst nt) (snd nt))
          (tracks_2D_in_loop tg)).
Proof.
  intros Hlen. unfold loopOverTracks2D, tracks_2D_in_loop. cbv zeta.
  rewrite flat_map_flat_map. apply for_each_Ok. intros a Ha.
  apply zrange_In in Ha.
  rewrite flat_map_map. cbn [fst snd].
  apply (for_each_read (get2DTracks tg a) _
           (fun i t => explicit_iteration kernels (a, i) t)
           (fun i t => explicit_calls kernels (a, i) t)).
  - apply Hlen. lia.
  - intros i t _. apply explicit_iteration_eq.
Qed.

Lemma loopOverTracks2D_calls_witness :
  loopOverTracks2D tge_example true
  = Ok (flat_map (fun nt => explicit_calls true (fst nt) (snd nt))
          (tracks_2D_in_loop tge_example)).
Proof.
  apply (loopOverTracks2D_calls tge_example true).
  intros a Ha. vm_compute in Ha. vm_compute. destruct Ha; congruence.
Defined.

(** X5.  When every z-stack [tracks_3D[a][i][p]] holds the
    [tracks_per_stack[a][i][p]] tracks that the loop reads,
    [loopOverTracksExplicit] visits the explicit 3D tracks in the order of
    the indices [(a, i, p, z)] and, for each, calls [newTrack] and replays
    the stored segments on the kernel (if there is one) and then calls
    [onTrack] with the segments of that track. *)
Theorem loopOverTracksExplicit_calls (tg : TrackGeneratorExplicit)
    (kernels : bool) :
  (forall a i p,
     (0 <= a < int_div (getNumAzim tg) 2)%Z ->
     (0 <= i < getNumX tg a + getNumY tg a)%Z ->
     (0 <= p < getNumPolarExplicit tg)%Z ->
     (getTracksPerStackExplicit tg a i p
      <= Z.of_nat (length (get3DTracksExplicit tg a i p)))%Z) ->
  loopOverTracksExplicit tg kernels
  = Ok (flat_map (fun nt => explicit_calls kernels (fst nt) (snd nt))
          (tracks_3D_in_loop tg)).
Proof.
  intros Hlen. unfold loopOverTracksExplicit, tracks_3D_in_loop. cbv zeta.
  rewrite flat_map_flat_map. apply for_each_Ok. intros a Ha.
  apply zrange_In in Ha.
  rewrite flat_map_flat_map. apply for_each_Ok. intros i Hi.
  apply zrange_In in Hi.
  rewrite flat_map_flat_map. apply for_each_Ok. intros p Hp.
  apply zrange_In in Hp.
  rewrite flat_map_map. cbn [fst snd].
  apply (for_each_read (get3DTracksExplicit tg a i p) _
           (fun z t => explicit_iteration kernels (a, i, p, z) t)
           (fun z t => explicit_calls kernels (a, i, p, z) t)).
  - apply Hlen; lia.
  - intros z t _. apply explicit_iteration_eq.
Qed.

Lemma loopOverTracksExplicit_calls_witness :
  loopOverTracksExplicit tge_example true
  = Ok (flat_map (fun nt => explicit_calls true (fst nt) (snd nt))
          (tracks_3D_in_loop tge_example)).
Proof.
  apply (loopOverTracksExplicit_calls tge_example true).
  intros a i p _ _ _. vm_compute. congruence.
Defined.

(** ** The hook of the on-the-fly loops *)

Lemma for_each_filter {A B : Type} (p : B -> bool) (g : A -> list B)
    (body : A -> outcome (list B)) (l : list A) (evs : list B) :
  (forall a r, In a l -> body a = Ok r -> filter p r = g a) ->
  for_each l body = Ok evs -> filter p evs = flat_map g l.
Proof.
  revert evs. induction l as [| a tl IH]; intros evs Hb H; simpl in H.
  - inv_Ok H. reflexivity.
  - destruct (body a) as [r | | |] eqn:Ea; try discriminate. simpl in H.
    destruct (for_each tl body) as [r' | | |] eqn:Et; try discriminate.
    simpl in H. inv_Ok H. rewrite filter_app. simpl. f_equal.
    + apply Hb; [left; reflexivity | exact Ea].
    + apply IH; [| reflexivity]. intros a' r0 Hin. apply Hb. right. exact Hin.
Qed.

(** What a completed loop over the first elements of an array kept of its
    calls, when each pass keeps what depends on the element alone. *)
Lemma for_each_read_filter_from {A B : Type} (p : B -> bool) (g : A -> list B)
    (body : Z -> A -> outcome (list B)) (pre l : list A) (lo hi : Z)
    (evs : list B) :
  lo = Z.of_nat (length pre) ->
  (forall i x r, body i x = Ok r -> filter p r = g x) ->
  for_each (zrange lo hi) (fun i => x <- read (pre ++ l) i ;; body i x) = Ok evs ->
  filter p evs = flat_map g (firstn (Z.to_nat (hi - lo)) l).
Proof.
  intros Hlo Hb. revert pre lo evs Hlo.
  induction l as [| x tl IH]; intros pre lo evs Hlo H.
  - destruct (Z.lt_ge_cases lo hi) as [Hlt | Hge].
    + rewrite zrange_cons in H by lia. simpl in H.
      rewrite app_nil_r in H.
      destruct (read pre lo) as [y | | |] eqn:Er; try discriminate.
      apply read_bound in Er. lia.
    + rewrite zrange_empty in H by lia. inv_Ok H.
      rewrite firstn_nil. reflexivity.
  - destruct (Z.lt_ge_cases lo hi) as [Hlt | Hge].
    + rewrite zrange_cons in H by lia. cbn [for_each] in H.
      assert (read (pre ++ x :: tl) lo = Ok x) as Er
          by (rewrite Hlo; apply read_app).
      rewrite Er in H. cbn [bind] in H.
      destruct (body lo x) as [r | | |] eqn:Eb; try discriminate.
      cbn [bind] in H.
      replace (pre ++ x :: tl) with ((pre ++ [x]) ++ tl) in H
        by (rewrite <- app_assoc; reflexivity).
      destruct (for_each (zrange (lo + 1) hi)
                  (fun i => x0 <- read ((pre ++ [x]) ++ tl) i ;; body i x0))
        as [r' | | |] eqn:Et; try discriminate.
      cbn [bind] in H. inv_Ok H.
      replace (Z.to_nat (hi - Z.of_nat (length pre)))
        with (S (Z.to_nat (hi - (Z.of_nat (length pre) + 1)))) by lia.
      rewrite firstn_cons. cbn [flat_map]. rewrite filter_app. f_equal.
      * apply (Hb _ _ _ Eb).
      * apply (IH (pre ++ [x]) _ r'); [| exact Et].
        rewrite length_app. simpl. lia.
    + rewrite zrange_empty in H by lia. inv_Ok H.
      match goal with
      | |- context [firstn ?n _] => replace n with 0%nat by lia
      end.
      reflexivity.
Qed.



Lemma track_iteration_onTrack cos sin TINY_MOVE ts tg kernels tid fuel
    flattened_track p z calls :
  track_iteration cos sin TINY_MOVE ts tg kernels tid fuel flattened_track p z
  = Ok calls ->
  filter is_onTrack calls
  = [onTrack (_azim_index flattened_track, _xy_index flattened_track, p, z)
             (tid, 0%Z)].
Proof.
  unfold track_iteration. intros H. inv_bind H. inv_Ok H.
  rewrite filter_app. simpl.
  assert (filter is_onTrack a = []) as ->; [| reflexivity].
  destruct kernels.
  - inv_bind E. inv_bind E. destruct a1 as [[complete evs] dists].
    inv_Ok E. simpl. rewrite filter_app. simpl. rewrite app_nil_r.
    apply kernel_calls_not_onTrack.
  - inv_Ok E. reflexivity.
Qed.

(** X6.  A run of [loopOverTracksByTrackOTF] that completes has called the
    hook [onTrack] exactly once for every 3D track of every z-stack, in the
    order of the flattened tracks, the polar angles and the positions in the
    stack, each time with the temporary buffer of the worker; this holds
    with kernels and without. *)
Theorem loopOverTracksByTrackOTF_onTrack_every_track cos sin TINY_MOVE ts tg
    kernels tid fuel calls :
  loopOverTracksByTrackOTF cos sin TINY_MOVE ts tg kernels tid fuel = Ok calls ->
  filter is_onTrack calls = onTrack_by_track tg tid.
Proof.
  unfold loopOverTracksByTrackOTF, onTrack_by_track, tracks_in_loop. cbv zeta.
  intros H.
  replace (getNum2DTracks tg) with (getNum2DTracks tg - 0)%Z at 1 by lia.
  refine (for_each_read_filter_from is_onTrack _ _ [] (get2DTracksArray tg) 0
            (getNum2DTracks tg) calls eq_refl _ H).
  intros ext_id flattened_track r Hr.
  apply (for_each_filter is_onTrack
           (fun p => map (fun z =>
              onTrack (_azim_index flattened_track, _xy_index flattened_track, p, z)
                      (tid, 0%Z))
              (zrange 0 (getTracksPerStack tg (_azim_index flattened_track)
                           (_xy_index flattened_track) p)))) in Hr;
    [exact Hr |].
  intros p r' _ Hr'.
  rewrite <- flat_map_singleton.
  eapply for_each_filter; [| exact Hr'].
  intros z r0 _ Hz. cbv beta.
  apply (track_iteration_onTrack _ _ _ _ _ _ _ _ _ _ _ _ Hz).
Qed.

Lemma loopOverTracksByTrackOTF_onTrack_every_track_witness :
  exists calls,
    loopOverTracksByTrackOTF cos_example sin_example tiny_example ts_example
      tg_example2 true 0 4 = Ok calls /\
    filter is_onTrack calls = onTrack_by_track tg_example2 0.
Proof.
  eexists. split; [vm_compute; reflexivity |].
  apply (loopOverTracksByTrackOTF_onTrack_every_track cos_example sin_example
           tiny_example ts_example tg_example2 true 0%Z 4%nat).
  vm_compute. reflexivity.
Defined.





(** ** Termination of the loops of traceSegmentsOTF *)

Lemma bind_returns {A B : Type} (m : outcome A) (k : A -> outcome B) :
  returns m -> (forall a, m = Ok a -> returns (k a)) -> returns (bind m k).
Proof.
  unfold returns. destruct m as [a | msg | |]; simpl; intros Hm Hk;
    try discriminate; [apply Hk; reflexivity | congruence].
Qed.

Lemma read_returns {A : Type} (a : list A) (i : Z) : returns (read a i).
Proof.
  unfold returns, read. destruct (i <? 0)%Z; [discriminate |].
  destruct (nth_error a (Z.to_nat i)); discriminate.
Qed.

Lemma Ok_returns {A : Type} (a : A) : returns (Ok a).
Proof. discriminate. Qed.

(** The search loop ends within [imax - imin - 1] passes, and its result
    lies in [[imin, imax - 1]]. *)
Lemma findMeshIndex_loop_returns (fuel : nat) (values : list Q) (val : Q)
    (sign imin imax : Z) :
  (0 <= imin)%Z -> (imax < 2 ^ 30)%Z -> (imax - imin <= Z.of_nat fuel + 1)%Z ->
  returns (findMeshIndex_loop fuel values val sign imin imax).
Proof.
  revert imin imax. induction fuel as [| fuel IH]; intros imin imax H0 H30 Hf.
  - simpl. destruct (Z.gtb_spec (imax - imin) 1); [lia | discriminate].
  - simpl. destruct (Z.gtb_spec (imax - imin) 1) as [Hd | Hd];
      [| discriminate].
    pose proof (imid_between imin imax H0 ltac:(lia) H30) as Hb.
    apply bind_returns; [apply read_returns |]. intros v _.
    destruct (Qgtb val v); [apply IH; lia |].
    destruct (Qltb val v); [apply IH; lia |].
    destruct (sign >? 0)%Z; discriminate.
Qed.

Lemma findMeshIndex_loop_range (fuel : nat) (values : list Q) (val : Q)
    (sign imin imax i : Z) :
  (0 <= imin)%Z -> (imax < 2 ^ 30)%Z ->
  findMeshIndex_loop fuel values val sign imin imax = Ok i ->
  (imin <= i <= Z.max imin (imax - 1))%Z.
Proof.
  revert imin imax. induction fuel as [| fuel IH]; intros imin imax H0 H30 H.
  - simpl in H. destruct (Z.gtb_spec (imax - imin) 1); [discriminate |].
    inv_Ok H. lia.
  - simpl in H. destruct (Z.gtb_spec (imax - imin) 1) as [Hd | Hd];
      [| inv_Ok H; lia].
    pose proof (imid_between imin imax H0 ltac:(lia) H30) as Hb.
    inv_bind H. destruct (Qgtb val a).
    + apply IH in H; lia.
    + destruct (Qltb val a).
      * apply IH in H; lia.
      * destruct (sign >? 0)%Z; inv_Ok H; lia.
Qed.

Lemma findMeshIndex_returns (values : list Q) (size : Z) (val : Q) (sign : Z) :
  (size <= 2 ^ 30)%Z -> returns (findMeshIndex values size val sign).
Proof.
  intros Hs. unfold findMeshIndex.
  apply bind_returns; [apply read_returns |]. intros vmin _.
  destruct (Qltb val vmin); [discriminate |].
  apply bind_returns; [apply read_returns |]. intros vmax _.
  destruct (Qgtb val vmax); [discriminate |].
  apply findMeshIndex_loop_returns; lia.
Qed.

Lemma findMeshIndex_range (values : list Q) (size : Z) (val : Q) (sign i : Z) :
  (size <= 2 ^ 30)%Z -> findMeshIndex values size val sign = Ok i ->
  (0 <= i <= Z.max 0 (size - 2))%Z.
Proof.
  intros Hs H. unfold findMeshIndex in H. inv_bind H.
  destruct (Qltb val a); [discriminate |]. inv_bind H.
  destruct (Qgtb val a0); [discriminate |].
  apply findMeshIndex_loop_range in H; lia.
Qed.

Lemma sign_of_nonzero (c : Q) : ~ c == 0 -> sign_of c = 1%Z \/ sign_of c = (-1)%Z.
Proof.
  intros Hc. unfold sign_of.
  destruct (Qgtb c 0) eqn:Eg, (Qltb c 0) eqn:El; auto.
  - apply Qgtb_gt in Eg. apply Qltb_lt in El. lra.
  - apply Qgtb_le in Eg. apply Qltb_ge in El. exfalso. apply Hc. lra.
Qed.

Section Termination.

Variables (TINY_MOVE : Q) (geometry : Geometry) (cos_theta sin_theta : Q)
          (sign : Z).
Hypothesis Hsign : sign = 1%Z \/ sign = (-1)%Z.

Lemma shortest_distance_returns axial_mesh st :
  returns (shortest_distance cos_theta sin_theta sign axial_mesh st).
Proof.
  unfold shortest_distance. apply bind_returns.
  - destruct (sign >? 0)%Z; (apply bind_returns; [apply read_returns |]);
      intros; discriminate.
  - intros z_dist_3D _.
    destruct (Qleb z_dist_3D (remaining_length_2D st / sin_theta));
      discriminate.
Qed.

Lemma shortest_distance_move axial_mesh st dist_2D dist_3D z_move :
  shortest_distance cos_theta sin_theta sign axial_mesh st
  = Ok (dist_2D, dist_3D, z_move) ->
  z_move = sign \/ (z_move = 0%Z /\ dist_2D = remaining_length_2D st).
Proof.
  intros H. apply shortest_distance_inv in H.
  destruct H as (m & _ & [(_ & _ & _ & H) | (_ & _ & H1 & H2)]); auto.
Qed.

Lemma remaining_spent (r : Q) : Qgtb (r - r) 0 = false.
Proof. apply Qgtb_le. lra. Qed.

(** The loop over a 2D segment ends within the passes that take the ray
    from its cell to the end of the mesh in its direction. *)
Lemma transport_2D_segment_returns fuel seg extruded_FSR axial_mesh num_fsrs st :
  (Z.max 1 (passes_bound sign num_fsrs (z_ind st)) <= Z.of_nat fuel)%Z ->
  returns (transport_2D_segment TINY_MOVE geometry cos_theta sin_theta sign fuel
             seg extruded_FSR axial_mesh num_fsrs st).
Proof.
  revert st. induction fuel as [| fuel IH]; intros st Hf; [lia |].
  cbn [transport_2D_segment].
  destruct (Qgtb (remaining_length_2D st) 0); [| discriminate].
  apply bind_returns; [apply shortest_distance_returns |].
  intros [[dist_2D dist_3D] z_move] Hsd. cbv beta iota.
  apply shortest_distance_move in Hsd.
  apply bind_returns; [apply read_returns |]. intros fsr_id _.
  destruct (otf_surfaces TINY_MOVE geometry cos_theta sin_theta seg st fsr_id
              dist_2D dist_3D z_move) as [[z_coord' fwd] bwd].
  apply bind_returns.
  { destruct (Qgtb dist_3D TINY_MOVE); [| discriminate].
    apply bind_returns; [apply read_returns |]. intros; discriminate. }
  intros executed _.
  destruct ((z_ind st + z_move <? 0)%Z || (z_ind st + z_move >=? num_fsrs)%Z)
    eqn:Eout; [discriminate |].
  apply orb_false_iff in Eout. destruct Eout as [E1 E2].
  apply Z.ltb_ge in E1. rewrite Z.geb_leb in E2. apply Z.leb_gt in E2.
  apply bind_returns.
  - destruct Hsd as [-> | [-> ->]].
    + apply IH. cbn [z_ind]. unfold passes_bound in *.
      destruct Hsign as [-> | ->]; simpl in *; lia.
    + rewrite transport_2D_segment_done by (cbn [remaining_length_2D]; apply remaining_spent).
      discriminate.
  - intros [[st' evs] dists] _. discriminate.
Qed.

(** The cell index stays in the mesh as long as the ray has not left it. *)
Lemma transport_2D_segment_index fuel seg extruded_FSR axial_mesh num_fsrs st
    st' evs dists :
  transport_2D_segment TINY_MOVE geometry cos_theta sin_theta sign fuel seg
    extruded_FSR axial_mesh num_fsrs st = Ok (st', evs, dists) ->
  segments_complete st' = false ->
  st' = st \/ (0 <= z_ind st' < num_fsrs)%Z.
Proof.
  revert st st' evs dists. induction fuel as [| fuel IH];
    intros st st' evs dists H Hc.
  - simpl in H. destruct (Qgtb (remaining_length_2D st) 0); [discriminate |].
    inv_Ok H. auto.
  - destruct (Qgtb (remaining_length_2D st) 0) eqn:Hrem.
    + apply transport_2D_segment_pass in H; [| exact Hrem].
      destruct H as (d2 & d3 & zm & fsr & ex & zc & _ & _ & _ & _ & H).
      cbv zeta in H.
      destruct ((z_ind st + zm <? 0)%Z || (z_ind st + zm >=? num_fsrs)%Z) eqn:Eout.
      * inv_Ok H. discriminate.
      * destruct H as (st1 & evs1 & dists1 & Hrec & H). inv_Ok H.
        apply orb_false_iff in Eout. destruct Eout as [E1 E2].
        apply Z.ltb_ge in E1. rewrite Z.geb_leb in E2. apply Z.leb_gt in E2.
        right. destruct (IH _ _ _ _ Hrec Hc) as [-> | Hin]; [simpl; lia | exact Hin].
    + rewrite transport_2D_segment_done in H by exact Hrem. inv_Ok H. auto.
Qed.

(** The passes of the loop over a 2D segment, and so the segments it hands
    to the kernel, are at most the cells from the cell of the ray to the end
    of the mesh in its direction. *)
Lemma transport_2D_segment_passes fuel seg extruded_FSR axial_mesh num_fsrs st
    st' evs dists :
  (0 <= z_ind st < num_fsrs)%Z ->
  transport_2D_segment TINY_MOVE geometry cos_theta sin_theta sign fuel seg
    extruded_FSR axial_mesh num_fsrs st = Ok (st', evs, dists) ->
  (Z.of_nat (length dists) <= passes_bound sign num_fsrs (z_ind st))%Z.
Proof.
  revert st st' evs dists. induction fuel as [| fuel IH];
    intros st st' evs dists Hin H.
  - simpl in H. destruct (Qgtb (remaining_length_2D st) 0); [discriminate |].
    inv_Ok H. unfold passes_bound. simpl. destruct (sign >? 0)%Z; lia.
  - destruct (Qgtb (remaining_length_2D st) 0) eqn:Hrem.
    + apply transport_2D_segment_pass in H; [| exact Hrem].
      destruct H as (d2 & d3 & zm & fsr & ex & zc & Hsd & _ & _ & _ & H).
      apply shortest_distance_move in Hsd. cbv zeta in H.
      destruct ((z_ind st + zm <? 0)%Z || (z_ind st + zm >=? num_fsrs)%Z) eqn:Eout.
      * inv_Ok H. unfold passes_bound. simpl. destruct (sign >? 0)%Z; lia.
      * destruct H as (st1 & evs1 & dists1 & Hrec & H). inv_Ok H.
        apply orb_false_iff in Eout. destruct Eout as [E1 E2].
        apply Z.ltb_ge in E1. rewrite Z.geb_leb in E2. apply Z.leb_gt in E2.
        destruct Hsd as [-> | [-> ->]].
        -- apply IH in Hrec; [| simpl; lia]. cbn [z_ind] in Hrec.
           cbn [length]. unfold passes_bound in *.
           destruct Hsign as [-> | ->]; simpl in *; lia.
        -- rewrite transport_2D_segment_done in Hrec
             by (cbn [remaining_length_2D]; apply remaining_spent).
           inv_Ok Hrec. unfold passes_bound. simpl. destruct (sign >? 0)%Z; lia.
    + rewrite transport_2D_segment_done in H by exact Hrem. inv_Ok H.
      unfold passes_bound. simpl. destruct (sign >? 0)%Z; lia.
Qed.

End Termination.

(** X9.  The [while] loop of [traceSegmentsOTF] over one 2D segment
    terminates: for a polar angle with [cos theta <> 0] and a ray in a cell
    of the mesh, it ends within as many passes as there are cells from that
    cell to the end of the mesh in the direction of the ray (at most
    [num_fsrs]), by completing the 2D segment, by leaving the mesh or on an
    array index out of bounds. *)
Theorem while_loop_of_traceSegmentsOTF_terminates (TINY_MOVE : Q)
    (geometry : Geometry) (cos_theta sin_theta : Q) (fuel : nat) (seg : segment)
    (extruded_FSR : ExtrudedFSR) (axial_mesh : list Q) (num_fsrs : Z)
    (st : otf_state) :
  ~ cos_theta == 0 ->
  (0 <= z_ind st < num_fsrs)%Z ->
  (passes_bound (sign_of cos_theta) num_fsrs (z_ind st) <= Z.of_nat fuel)%Z ->
  returns (transport_2D_segment TINY_MOVE geometry cos_theta sin_theta
             (sign_of cos_theta) fuel seg extruded_FSR axial_mesh num_fsrs st)
  /\ (passes_bound (sign_of cos_theta) num_fsrs (z_ind st) <= num_fsrs)%Z.
Proof.
  intros Hc Hin Hf. pose proof (sign_of_nonzero cos_theta Hc) as Hs. split.
  - apply transport_2D_segment_returns; [exact Hs |].
    unfold passes_bound in *.
    destruct Hs as [Hs | Hs]; rewrite Hs in Hf |- *; simpl in Hf |- *; lia.
  - unfold passes_bound.
    destruct Hs as [Hs | Hs]; rewrite Hs; simpl; lia.
Qed.

Lemma while_loop_of_traceSegmentsOTF_terminates_witness :
  returns (transport_2D_segment tiny_example geometry_example (4 # 5) (3 # 5)
             (sign_of (4 # 5)) 2 (mkSegment 3 7 0 3 5)
             (mkExtrudedFSR 2 [0; 1; 2] [10; 11]%Z [7; 8]%Z) [0; 1; 2] 2
             (mkOtf 0 0 3 false))
  /\ (passes_bound (sign_of (4 # 5)) 2 (z_ind (mkOtf 0 0 3 false)) <= 2)%Z.
Proof.
  apply (while_loop_of_traceSegmentsOTF_terminates tiny_example geometry_example
           (4 # 5) (3 # 5) 2 (mkSegment 3 7 0 3 5)
           (mkExtrudedFSR 2 [0; 1; 2] [10; 11]%Z [7; 8]%Z) [0; 1; 2] 2
           (mkOtf 0 0 3 false)).
  - unfold Qeq; simpl; lia.
  - simpl; lia.
  - vm_compute; congruence.
Defined.

(** X10.  For one 2D segment, [traceSegmentsOTF] hands the kernel at most as
    many 3D segments as there are axial cells from the cell of the ray to the
    end of the mesh in its direction - at most one for each cell the ray can
    still cross. *)
Theorem segments_per_2D_segment_bounded (TINY_MOVE : Q) (geometry : Geometry)
    (cos_theta sin_theta : Q) (fuel : nat) (seg : segment)
    (extruded_FSR : ExtrudedFSR) (axial_mesh : list Q) (num_fsrs : Z)
    (st st' : otf_state) (evs : list event) (dists : list Q) :
  ~ cos_theta == 0 ->
  (0 <= z_ind st < num_fsrs)%Z ->
  transport_2D_segment TINY_MOVE geometry cos_theta sin_theta
    (sign_of cos_theta) fuel seg extruded_FSR axial_mesh num_fsrs st
  = Ok (st', evs, dists) ->
  (Z.of_nat (length evs) <= passes_bound (sign_of cos_theta) num_fsrs (z_ind st)
   <= num_fsrs)%Z.
Proof.
  intros Hc Hin H. pose proof (sign_of_nonzero cos_theta Hc) as Hs.
  pose proof (transport_2D_segment_passes TINY_MOVE geometry cos_theta sin_theta
                (sign_of cos_theta) Hs fuel seg extruded_FSR axial_mesh num_fsrs
                st st' evs dists Hin H) as Hp.
  apply transport_2D_segment_exceeds in H. destruct H as [_ Hm].
  assert (length evs <= length dists)%nat.
  { rewrite <- (length_map ev_length), Hm. apply filter_length_le. }
  split; [lia |].
  unfold passes_bound. destruct Hs as [Hs | Hs]; rewrite Hs; simpl; lia.
Qed.

Lemma segments_per_2D_segment_bounded_witness :
  exists st' evs dists,
    transport_2D_segment tiny_example geometry_example (4 # 5) (3 # 5)
      (sign_of (4 # 5)) 5 (mkSegment 3 7 0 3 5)
      (mkExtrudedFSR 2 [0; 1; 2] [10; 11]%Z [7; 8]%Z) [0; 1; 2] 2
      (mkOtf 0 0 3 false) = Ok (st', evs, dists) /\
    length evs = 2%nat /\
    (Z.of_nat (length evs)
     <= passes_bound (sign_of (4 # 5)) 2 (z_ind (mkOtf 0 0 3 false)) <= 2)%Z.
Proof.
  eexists. eexists. eexists.
  split; [vm_compute; reflexivity |].
  split; [reflexivity |].
  eapply (segments_per_2D_segment_bounded tiny_example geometry_example
           (4 # 5) (3 # 5) 5 (mkSegment 3 7 0 3 5)
           (mkExtrudedFSR 2 [0; 1; 2] [10; 11]%Z [7; 8]%Z) [0; 1; 2] 2
           (mkOtf 0 0 3 false)).
  - unfold Qeq; simpl; lia.
  - simpl; lia.
  - vm_compute. reflexivity.
Defined.

Section RayTermination.

Variables (TINY_MOVE : Q) (geometry : Geometry) (cos_theta sin_theta : Q)
          (sign : Z) (fuel : nat).
Hypothesis Hsign : sign = 1%Z \/ sign = (-1)%Z.
Hypothesis Hfuel : (1 <= Z.of_nat fuel)%Z.

Lemma otf_segments_loop_returns contains_global_z_mesh segments_2D :
  (contains_global_z_mesh = false ->
   Forall (fun e => (_num_fsrs e <= Z.of_nat fuel)%Z /\ (_num_fsrs e <= 2 ^ 30 - 1)%Z)
          (_extruded_FSR_lookup geometry)) ->
  forall first_segment start_dist_2D num_fsrs axial_mesh z_coord0 z_ind0,
    (num_fsrs <= Z.of_nat fuel)%Z ->
    (0 <= z_ind0 <= Z.max 0 (num_fsrs - 1))%Z ->
    returns (otf_segments_loop TINY_MOVE geometry cos_theta sin_theta sign fuel
               contains_global_z_mesh segments_2D first_segment start_dist_2D
               num_fsrs axial_mesh z_coord0 z_ind0).
Proof.
  intros Hlocal. induction segments_2D as [| seg rest IH];
    intros first_segment start_dist_2D num_fsrs axial_mesh z_coord0 z_ind0 Hn Hz.
  - discriminate.
  - cbn [otf_segments_loop].
    apply bind_returns; [apply read_returns |]. intros extruded_FSR He.
    apply bind_returns.
    { destruct (first_segment || contains_global_z_mesh) eqn:Ef; [discriminate |].
      apply orb_false_iff in Ef. destruct Ef as [_ Ecg].
      apply read_In in He.
      pose proof (proj1 (Forall_forall _ _) (Hlocal Ecg) _ He) as [_ H30].
      apply bind_returns; [apply findMeshIndex_returns; lia |].
      intros; discriminate. }
    intros [[num_fsrs' axial_mesh'] z_ind'] Hmesh. cbv beta iota.
    assert ((num_fsrs' <= Z.of_nat fuel)%Z /\
            (0 <= z_ind' <= Z.max 0 (num_fsrs' - 1))%Z) as [Hn' Hz'].
    { destruct (first_segment || contains_global_z_mesh) eqn:Ef.
      - inv_Ok Hmesh. auto.
      - apply orb_false_iff in Ef. destruct Ef as [_ Ecg].
        apply read_In in He.
        pose proof (proj1 (Forall_forall _ _) (Hlocal Ecg) _ He) as [Hf H30].
        inv_bind Hmesh. inv_Ok Hmesh.
        apply findMeshIndex_range in E; [| lia]. split; [exact Hf | lia]. }
    apply bind_returns.
    { apply transport_2D_segment_returns; [exact Hsign |]. cbn [z_ind].
      unfold passes_bound. destruct Hsign as [-> | ->]; simpl; lia. }
    intros [[st evs] dists] Ht. cbv beta iota.
    destruct (segments_complete st) eqn:Ec; [discriminate |].
    apply bind_returns; [| intros [[c evs'] dists'] _; discriminate].
    apply IH; [exact Hn' |].
    destruct (transport_2D_segment_index _ _ _ _ _ _ _ _ _ _ _ _ _ _ Ht Ec)
      as [-> | Hin]; [exact Hz' | lia].
Qed.

End RayTermination.

(** X11.  [traceSegmentsOTF] terminates: for a polar angle with
    [cos theta <> 0], when no axial mesh has more than [fuel >= 1] cells (and
    [2^30 - 1] cells, for the [int] arithmetic of the search), its loops need
    no more than [fuel] passes each - it completes, or stops on the fatal
    error of [findMeshIndex] or on an array index out of bounds. *)
Theorem traceSegmentsOTF_terminates (cos sin : Q -> Q) (TINY_MOVE : Q)
    (fuel : nat) (ts : TraverseSegments) (flattened_track : Track)
    (start : Point) (theta : Q) :
  ~ cos theta == 0 ->
  (1 <= Z.of_nat fuel)%Z ->
  cells_at_most ts (Z.of_nat fuel) -> cells_at_most ts (2 ^ 30 - 1) ->
  returns (traceSegmentsOTF cos sin TINY_MOVE fuel ts flattened_track start theta).
Proof.
  intros Hc Hfuel Hcells H30. pose proof (sign_of_nonzero _ Hc) as Hs.
  unfold traceSegmentsOTF. cbv zeta.
  destruct (find_start_segment (_segments flattened_track)
              ((getX start - getX (_start flattened_track)) / cos (_phi flattened_track)) 0)
    as [start_dist_2D seg_start].
  unfold cells_at_most in *.
  apply bind_returns.
  { destruct (_global_z_mesh ts); [discriminate |].
    apply bind_returns; [apply read_returns |]. intros sg _.
    apply bind_returns; [apply read_returns |]. intros; discriminate. }
  intros [[cg num_fsrs] axial_mesh] Hmesh. cbv beta iota.
  assert ((num_fsrs <= Z.of_nat fuel)%Z /\ (num_fsrs <= 2 ^ 30 - 1)%Z /\
          (cg = false ->
           Forall (fun e => (_num_fsrs e <= Z.of_nat fuel)%Z /\
                            (_num_fsrs e <= 2 ^ 30 - 1)%Z)
                  (_extruded_FSR_lookup (_geometry ts)))) as (Hn & Hn30 & Hlocal).
  { destruct (_global_z_mesh ts) as [mesh |].
    - inv_Ok Hmesh. repeat split; auto. discriminate.
    - inv_bind Hmesh. inv_bind Hmesh. inv_Ok Hmesh.
      assert (Forall (fun e => (_num_fsrs e <= Z.of_nat fuel)%Z /\
                               (_num_fsrs e <= 2 ^ 30 - 1)%Z)
                     (_extruded_FSR_lookup (_geometry ts))) as Hall.
      { apply Forall_forall. intros e He. split.
        - apply (proj1 (Forall_forall _ _) Hcells e He).
        - apply (proj1 (Forall_forall _ _) H30 e He). }
      apply read_In in E0.
      pose proof (proj1 (Forall_forall _ _) Hall _ E0) as [H1 H2].
      repeat split; auto. }
  apply bind_returns; [apply findMeshIndex_returns; lia |].
  intros z_ind Hz. apply findMeshIndex_range in Hz; [| lia].
  apply otf_segments_loop_returns; auto. lia.
Qed.

Lemma traceSegmentsOTF_terminates_witness :
  returns (traceSegmentsOTF cos_example sin_example tiny_example 2 ts_example
             (track_example [1; 3]) (mkPoint 0 0 0) theta_example).
Proof.
  apply (traceSegmentsOTF_terminates cos_example sin_example tiny_example 2
           ts_example (track_example [1; 3]) (mkPoint 0 0 0) theta_example).
  - vm_compute. congruence.
  - simpl; lia.
  - unfold cells_at_most. simpl. constructor; [simpl; lia | constructor].
  - unfold cells_at_most. simpl. constructor; [simpl; lia | constructor].
Defined.

(** ** traceSegmentsOTF without a CMFD mesh, and beyond the end of the track *)

Section WithoutCmfd.

Variables (TINY_MOVE : Q) (geometry : Geometry) (cos_theta sin_theta : Q)
          (sign : Z).
Hypothesis Hcmfd : getCmfd geometry = None.

Lemma transport_2D_segment_no_surface fuel seg extruded_FSR axial_mesh num_fsrs :
  forall st st' evs dists,
    transport_2D_segment TINY_MOVE geometry cos_theta sin_theta sign fuel seg
      extruded_FSR axial_mesh num_fsrs st = Ok (st', evs, dists) ->
    Forall no_surface evs.
Proof.
  induction fuel as [| fuel IH]; intros st st' evs dists H;
    cbn [transport_2D_segment] in H;
    destruct (Qgtb (remaining_length_2D st) 0);
    try discriminate; try (inv_Ok H; constructor).
  inv_bind H. destruct a as [[dist_2D dist_3D] z_move]. cbv beta iota in H.
  inv_bind H. rename a into fsr_id.
  unfold otf_surfaces in H. rewrite Hcmfd in H. cbv beta iota zeta in H.
  inv_bind H. rename a into executed.
  assert (Forall no_surface executed) as Hex.
  { destruct (Qgtb dist_3D TINY_MOVE).
    - inv_bind E1. inv_Ok E1. constructor; [| constructor].
      split; reflexivity.
    - inv_Ok E1. constructor. }
  destruct ((z_ind st + z_move <? 0)%Z || (z_ind st + z_move >=? num_fsrs)%Z).
  - inv_Ok H. exact Hex.
  - inv_bind H. destruct a as [[st1 evs1] dists1]. inv_Ok H.
    apply Forall_app. split; [exact Hex |]. eapply IH. exact E2.
Qed.

Lemma otf_segments_loop_no_surface fuel contains_global_z_mesh segments_2D :
  forall first_segment start_dist_2D num_fsrs axial_mesh z_coord0 z_ind0
         complete evs dists,
    otf_segments_loop TINY_MOVE geometry cos_theta sin_theta sign fuel
      contains_global_z_mesh segments_2D first_segment start_dist_2D num_fsrs
      axial_mesh z_coord0 z_ind0 = Ok (complete, evs, dists) ->
    Forall no_surface evs.
Proof.
  induction segments_2D as [| seg rest IH];
    intros first_segment start_dist_2D num_fsrs axial_mesh z_coord0 z_ind0
           complete evs dists H.
  - simpl in H. inv_Ok H. constructor.
  - apply otf_segments_loop_pass in H.
    destruct H as (efsr & nf & mesh & zi & st & evs1 & dists1 & _ & _ & Ht & H).
    apply transport_2D_segment_no_surface in Ht.
    destruct (segments_complete st).
    + inv_Ok H. exact Ht.
    + destruct H as (c & evs2 & dists2 & Hrec & H). inv_Ok H.
      apply Forall_app. split; [exact Ht |]. eapply IH. exact Hrec.
Qed.

End WithoutCmfd.

(** X12.  When the geometry has no CMFD mesh, every segment that
    [traceSegmentsOTF] hands to the kernel carries no CMFD surface: both
    surfaces are [-1], whatever surfaces the 2D segments store. *)
Theorem traceSegmentsOTF_without_cmfd (cos sin : Q -> Q) (TINY_MOVE : Q)
    (fuel : nat) (ts : TraverseSegments) (flattened_track : Track)
    (start : Point) (theta : Q) (complete : bool) (evs : list event)
    (dists : list Q) :
  getCmfd (_geometry ts) = None ->
  traceSegmentsOTF cos sin TINY_MOVE fuel ts flattened_track start theta
  = Ok (complete, evs, dists) ->
  Forall no_surface evs.
Proof.
  intros Hcmfd H. apply traceSegmentsOTF_inv in H.
  destruct H as (cg & nf & mesh & zi & _ & _ & H).
  eapply otf_segments_loop_no_surface; [exact Hcmfd | exact H].
Qed.

Lemma traceSegmentsOTF_without_cmfd_witness :
  exists complete evs dists,
    traceSegmentsOTF cos_example sin_example tiny_example 4 ts_example
      (track_example [1; 3]) (mkPoint 0 0 0) theta_example
    = Ok (complete, evs, dists) /\
    length evs = 3%nat /\ Forall no_surface evs.
Proof.
  eexists. eexists. eexists.
  split; [vm_compute; reflexivity |].
  split; [reflexivity |].
  eapply (traceSegmentsOTF_without_cmfd cos_example sin_example tiny_example 4
            ts_example (track_example [1; 3]) (mkPoint 0 0 0) theta_example).
  - reflexivity.
  - vm_compute. reflexivity.
Defined.

(** The scan for the starting segment passes every segment when the offset of
    the start exceeds the length of the flattened track. *)
Lemma find_start_segment_beyond (segments_2D : list segment) :
  forall (d : Q) (k : Z),
    Forall (fun sg => 0 <= _length sg) segments_2D ->
    Qsum (map _length segments_2D) < d ->
    snd (find_start_segment segments_2D d k)
    = (k + Z.of_nat (length segments_2D))%Z.
Proof.
  induction segments_2D as [| sg rest IH]; intros d k Hpos Hd.
  - simpl. lia.
  - inversion Hpos as [| ? ? Hsg Hrest]; subst.
    assert (0 <= Qsum (map _length rest)) as Hsum.
    { apply Qsum_nonneg. apply Forall_map. exact Hrest. }
    cbn [map Qsum fold_right] in Hd. fold (Qsum (map _length rest)) in Hd.
    cbn [find_start_segment].
    assert (Qgtb d (_length sg) = true) as -> by (apply Qgtb_gt; lra).
    rewrite IH; [cbn [length]; lia | exact Hrest | lra].
Qed.

(** X13.  When the start of the 3D track lies beyond the end of the flattened
    track (its 2D offset exceeds the total length of the 2D segments),
    [traceSegmentsOTF] hands no segment to the kernel: without a global
    z-mesh it reads the segment [segments_2D[num_segments]], one past the end
    of the array; with a global z-mesh its loop over the 2D segments makes no
    pass, so that a run that completes has executed nothing. *)
Theorem traceSegmentsOTF_start_beyond_track (cos sin : Q -> Q) (TINY_MOVE : Q)
    (fuel : nat) (ts : TraverseSegments) (flattened_track : Track)
    (start : Point) (theta : Q) :
  Forall (fun sg => 0 <= _length sg) (_segments flattened_track) ->
  Qsum (map _length (_segments flattened_track))
  < start_offset_2D cos flattened_track start ->
  match _global_z_mesh ts with
  | None =>
      traceSegmentsOTF cos sin TINY_MOVE fuel ts flattened_track start theta
      = Undefined
  | Some _ =>
      forall res,
        traceSegmentsOTF cos sin TINY_MOVE fuel ts flattened_track start theta
        = Ok res ->
        res = (false, [], [])
  end.
Proof.
  intros Hpos Hd.
  pose proof (find_start_segment_beyond (_segments flattened_track)
                (start_offset_2D cos flattened_track start) 0 Hpos Hd) as Hk.
  unfold traceSegmentsOTF, start_offset_2D in *. cbv zeta.
  destruct (find_start_segment (_segments flattened_track)
              ((getX start - getX (_start flattened_track)) / cos (_phi flattened_track)) 0)
    as [start_dist_2D seg_start].
  simpl in Hk. subst seg_start.
  destruct (_global_z_mesh ts) as [mesh |].
  - intros res H. cbn [bind] in H. inv_bind H.
    rewrite skipn_all2 in H by lia. simpl in H. inv_Ok H. reflexivity.
  - match goal with
    | |- context [read ?a ?i] => assert (read a i = Undefined) as ->
    end.
    { unfold read.
      destruct (Z.ltb_spec (Z.of_nat (length (_segments flattened_track))) 0);
        [reflexivity |].
      rewrite (proj2 (nth_error_None _ _)) by lia. reflexivity. }
    reflexivity.
Qed.

Lemma traceSegmentsOTF_start_beyond_track_witness :
  traceSegmentsOTF cos_example sin_example tiny_example 4 ts_example
    (track_example [1; 3]) (mkPoint 5 0 0) theta_example
  = Undefined /\
  traceSegmentsOTF cos_example sin_example tiny_example 4 ts_global_example
    (track_example [1; 3]) (mkPoint 5 0 0) theta_example
  = Ok (false, [], []) /\
  (forall res,
     traceSegmentsOTF cos_example sin_example tiny_example 4 ts_global_example
       (track_example [1; 3]) (mkPoint 5 0 0) theta_example
     = Ok res ->
     res = (false, [], [])).
Proof.
  split; [| split; [vm_compute; reflexivity |]].
  - apply (traceSegmentsOTF_start_beyond_track cos_example sin_example
             tiny_example 4 ts_example (track_example [1; 3]) (mkPoint 5 0 0)
             theta_example).
    + simpl. repeat constructor; unfold Qle; simpl; lia.
    + vm_compute. reflexivity.
  - apply (traceSegmentsOTF_start_beyond_track cos_example sin_example
             tiny_example 4 ts_global_example (track_example [1; 3])
             (mkPoint 5 0 0) theta_example).
    + simpl. repeat constructor; unfold Qle; simpl; lia.
    + vm_compute. reflexivity.
Defined.

(** ** traceStackOTF: the segments of one axial cell, and array bounds *)

(** The calls of a loop over stack members that makes at most one call for
    the member [i], with the track index [i], come in increasing order of
    track index. *)
Lemma stack_loop_order (f : Z -> list event) (hi : Z) :
  (forall i, f i = [] \/ exists e, f i = [e] /\ ev_track_idx e = i) ->
  forall (n : nat) (lo : Z), Z.to_nat (hi - lo) = n ->
    StronglySorted Z.lt (map ev_track_idx (flat_map f (zrange lo hi))) /\
    Forall (fun k => (lo <= k < hi)%Z) (map ev_track_idx (flat_map f (zrange lo hi))).
Proof.
  intros Hf. induction n as [| n IH]; intros lo Hn.
  - rewrite zrange_empty by lia. simpl. split; constructor.
  - rewrite zrange_cons by lia. cbn [flat_map].
    destruct (IH (lo + 1)%Z ltac:(lia)) as [Hs Hb].
    assert (Forall (fun k => (lo <= k < hi)%Z)
              (map ev_track_idx (flat_map f (zrange (lo + 1) hi)))) as Hb'.
    { eapply Forall_impl; [| exact Hb]. simpl. intros; lia. }
    destruct (Hf lo) as [-> | (e & -> & He)]; [simpl; auto |].
    simpl. rewrite He. split.
    + constructor; [exact Hs |].
      eapply Forall_impl; [| exact Hb]. simpl. intros; lia.
    + constructor; [lia | exact Hb'].
Qed.

Lemma sorted_app (l1 l2 : list Z) (b : Z) :
  StronglySorted Z.lt l1 -> Forall (fun k => (k < b)%Z) l1 ->
  StronglySorted Z.lt l2 -> Forall (fun k => (b <= k)%Z) l2 ->
  StronglySorted Z.lt (l1 ++ l2).
Proof.
  intros Hs1 Hb1 Hs2 Hb2. induction Hs1 as [| a l Hs IH Ha]; [exact Hs2 |].
  inversion Hb1 as [| ? ? Hab Hl]; subst. simpl. constructor.
  - apply IH. exact Hl.
  - apply Forall_app. split; [exact Ha |].
    eapply Forall_impl; [| exact Hb2]. simpl. intros; lia.
Qed.

(** X14.  In one axial cell [traceStackOTF] hands the kernel at most one
    segment for each track of the z-stack, and the segments of the cell come
    in strictly increasing order of their track index: first the lower
    partial crossings, then the full or straddling crossings, then the upper
    partial crossings. *)
Theorem cell_events_in_track_order (TINY_MOVE : Q) (geometry : Geometry)
    (cos_theta sin_theta : Q) (sign : Z) (z_spacing track_spacing_3D : Q)
    (num_z_stack : Z) (seg : segment) (fsr_id material : Z)
    (z_min z_max first_start_z first_end_z : Q)
    (first_track_lower_z first_track_upper_z : Q) :
  StronglySorted Z.lt
    (map ev_track_idx
       (cell_events TINY_MOVE geometry cos_theta sin_theta sign z_spacing
          track_spacing_3D num_z_stack seg fsr_id material z_min z_max
          first_start_z first_end_z first_track_lower_z first_track_upper_z)).
Proof.
  unfold cell_events, stack_indexes, lower_range, full_range, straddle_range,
    upper_range. cbv zeta.
  set (start_track := Z.max (Qceiling ((z_min - first_track_upper_z) / z_spacing)) 0).
  set (start_full := Qceiling ((z_min - first_track_lower_z) / z_spacing)).
  set (end_full := Qceiling ((z_max - first_track_upper_z) / z_spacing)).
  set (end_track := Z.min (Qceiling ((z_max - first_track_lower_z) / z_spacing)) num_z_stack).
  set (lower := lower_track _ _ _ _ _ _ _ _ _ _ _ _ _).
  set (upper := upper_track _ _ _ _ _ _ _ _ _ _ _ _ _).
  (* each loop makes at most one call for a member of the stack *)
  assert (forall i, lower i = [] \/ exists e, lower i = [e] /\ ev_track_idx e = i) as Hlower.
  { intros i. unfold lower, lower_track.
    destruct (Qgtb _ TINY_MOVE); [| left; reflexivity]. right.
    destruct (getCmfd geometry); [destruct (sign >? 0)%Z |];
      eexists; split; reflexivity. }
  assert (forall i, upper i = [] \/ exists e, upper i = [e] /\ ev_track_idx e = i) as Hupper.
  { intros i. unfold upper, upper_track.
    destruct (Qgtb _ TINY_MOVE); [| left; reflexivity]. right.
    destruct (getCmfd geometry); [destruct (sign >? 0)%Z |];
      eexists; split; reflexivity. }
  destruct (stack_loop_order lower (Z.min start_full end_full) Hlower _ start_track eq_refl)
    as [Hs1 Hb1].
  destruct (stack_loop_order upper end_track Hupper _ (Z.max start_full end_full) eq_refl)
    as [Hs3 Hb3].
  (* the members of the middle loop lie between those of the other two *)
  match goal with
  | |- context [flat_map lower ?l ++ ?m ++ flat_map upper ?u] => set (middle := m)
  end.
  assert (StronglySorted Z.lt (map ev_track_idx middle) /\
          Forall (fun k => (Z.min start_full end_full <= k
                            < Z.max start_full end_full)%Z)
                 (map ev_track_idx middle)) as [Hs2 Hb2].
  { unfold middle.
    destruct (Z.gtb_spec end_full start_full);
      [destruct (Qgtb _ TINY_MOVE) | destruct (Z.gtb_spec start_full end_full);
                                      [destruct (Qgtb _ TINY_MOVE) |]];
      try (simpl; split; constructor).
    - destruct (stack_loop_order
                  (full_track geometry z_spacing seg fsr_id material first_start_z
                     first_end_z (_length seg / sin_theta))
                  end_full) with (n := Z.to_nat (end_full - start_full))
                                 (lo := start_full) as [Hs Hb].
      + intros i. right. unfold full_track.
        destruct (getCmfd geometry); eexists; split; reflexivity.
      + reflexivity.
      + split; [exact Hs |].
        eapply Forall_impl; [| exact Hb]. simpl. intros; lia.
    - destruct (stack_loop_order
                  (straddle_track TINY_MOVE geometry cos_theta sign z_spacing seg
                     fsr_id material z_min z_max first_start_z first_end_z
                     ((z_max - z_min) / Qabs cos_theta))
                  start_full) with (n := Z.to_nat (start_full - end_full))
                                   (lo := end_full) as [Hs Hb].
      + intros i. right. unfold straddle_track.
        destruct (getCmfd geometry); [destruct (sign >? 0)%Z |];
          eexists; split; reflexivity.
      + reflexivity.
      + split; [exact Hs |].
        eapply Forall_impl; [| exact Hb]. simpl. intros; lia. }
  rewrite !map_app.
  apply (sorted_app _ _ (Z.min start_full end_full)); [exact Hs1 | | |].
  - eapply Forall_impl; [| exact Hb1]. simpl. intros; lia.
  - apply (sorted_app _ _ (Z.max start_full end_full)); [exact Hs2 | | exact Hs3 |].
    + eapply Forall_impl; [| exact Hb2]. simpl. intros; lia.
    + eapply Forall_impl; [| exact Hb3]. simpl. intros; lia.
  - apply Forall_app. split.
    + eapply Forall_impl; [| exact Hb2]. simpl. intros; lia.
    + eapply Forall_impl; [| exact Hb3]. simpl. intros; lia.
Qed.


Section StackBounds.

Variables (TINY_MOVE : Q) (geometry : Geometry) (cos_theta sin_theta : Q)
          (sign : Z) (z_spacing track_spacing_3D : Q) (num_z_stack : Z).



End StackBounds.



(** ** traceStackTwoWay: the two passes *)

Lemma reverse_segments_same_length (l l' : list segment) :
  length l' = length l ->
  reverse_segments (Z.of_nat (length l)) l' = Ok (rev l').
Proof. intros <-. apply reverse_segments_rev. Qed.

Lemma flip_surfaces_same_length (l l' : list segment) :
  length l' = length l ->
  flip_surfaces (Z.of_nat (length l)) l' = Ok (map swap_surfaces l').
Proof. intros <-. apply flip_surfaces_map. Qed.

(** X16.  The two loops that [traceStackTwoWay] runs on the segments of the
    flattened track between its passes (lines 929-941) - the in-place swap of
    the segments [s] and [num_segments - s - 1] for [s < num_segments / 2],
    then the exchange of the two CMFD surfaces of every segment - replace
    the array, whatever its length, by its reversal with the forward and
    backward surfaces of each segment exchanged, reading and writing only
    within the array. *)
Theorem reverse_then_flip_reflects_segments (segments : list segment) :
  (reversed <- reverse_segments (Z.of_nat (length segments)) segments ;;
   flip_surfaces (Z.of_nat (length segments)) reversed)
  = Ok (map swap_surfaces (rev segments)).
Proof.
  rewrite reverse_segments_rev. cbn [bind].
  apply flip_surfaces_same_length. apply length_rev.
Qed.

(** [traceStackTwoWay] is a forward trace of the stack followed by a trace of
    the reflected stack, after which the stack is as it was. *)
Lemma traceStackTwoWay_eq (cos sin : Q -> Q) (TINY_MOVE M_PI : Q)
    (ts : TraverseSegments) (flattened_track : Track) (first : Track3D)
    (num_z_stack : Z) (z_spacing : Q) :
  traceStackTwoWay cos sin TINY_MOVE M_PI ts flattened_track first num_z_stack
    z_spacing
  = (forwards <- traceStackOTF cos sin TINY_MOVE ts flattened_track first
                   num_z_stack z_spacing ;;
     backwards <- traceStackOTF cos sin TINY_MOVE ts
                    (reflect_track M_PI flattened_track)
                    (reflect_first M_PI first) num_z_stack z_spacing ;;
     Ok (flattened_track, first,
         [setDirection true] ++ map execute forwards ++ [post] ++
         [setDirection false] ++ map execute backwards ++ [post])).
Proof.
  unfold traceStackTwoWay. cbv zeta.
  destruct (traceStackOTF cos sin TINY_MOVE ts flattened_track first
              num_z_stack z_spacing) as [forwards | | |]; try reflexivity.
  cbn [bind]. unfold getNumSegments. cbn [_segments _start _end _phi
                                           _azim_index _xy_index].
  rewrite reverse_segments_rev. cbn [bind].
  rewrite (flip_surfaces_same_length (_segments flattened_track))
    by apply length_rev.
  cbn [bind]. fold (reflect_track M_PI flattened_track).
  fold (reflect_first M_PI first).
  destruct (traceStackOTF cos sin TINY_MOVE ts
              (reflect_track M_PI flattened_track) (reflect_first M_PI first)
              num_z_stack z_spacing) as [backwards | | |]; try reflexivity.
  cbn [bind].
  rewrite (reverse_segments_same_length (_segments flattened_track))
    by (rewrite length_map, length_rev; reflexivity).
  cbn [bind].
  rewrite (flip_surfaces_same_length (_segments flattened_track))
    by (rewrite length_rev, length_map, length_rev; reflexivity).
  cbn [bind]. rewrite reverse_flip_twice.
  destruct flattened_track, first. reflexivity.
Qed.

(** X17.  [traceStackTwoWay] is a forward trace of the z-stack by
    [traceStackOTF] followed by a trace of the reflected stack - start and
    end points exchanged, [phi] turned into [M_PI + phi] and [theta] into
    [M_PI - theta], the 2D segments in reverse order with their CMFD surfaces
    exchanged.  The kernel receives [setDirection(true)], the forward
    segments, [post()], [setDirection(false)], the backward segments and
    [post()], in this order; an error of either trace ends the call. *)
Theorem traceStackTwoWay_traces_both_ways (cos sin : Q -> Q)
    (TINY_MOVE M_PI : Q) (ts : TraverseSegments) (flattened_track : Track)
    (first : Track3D) (num_z_stack : Z) (z_spacing : Q) :
  traceStackTwoWay cos sin TINY_MOVE M_PI ts flattened_track first num_z_stack
    z_spacing
  = (forwards <- traceStackOTF cos sin TINY_MOVE ts flattened_track first
                   num_z_stack z_spacing ;;
     backwards <- traceStackOTF cos sin TINY_MOVE ts
                    (reflect_track M_PI flattened_track)
                    (reflect_first M_PI first) num_z_stack z_spacing ;;
     Ok (flattened_track, first,
         [setDirection true] ++ map execute forwards ++ [post] ++
         [setDirection false] ++ map execute backwards ++ [post])).
Proof. apply traceStackTwoWay_eq. Qed.

(** ** loopOverTracksByStackTwoWay *)

Lemma bind_no_fatal {A B : Type} (m : outcome A) (k : A -> outcome B) :
  no_fatal m -> (forall a, m = Ok a -> no_fatal (k a)) -> no_fatal (bind m k).
Proof.
  unfold no_fatal. destruct m as [a | msg0 | |]; simpl; intros Hm Hk msg;
    try discriminate; [apply Hk; reflexivity | exfalso; apply (Hm msg0); reflexivity].
Qed.

Lemma Ok_no_fatal {A : Type} (a : A) : no_fatal (Ok a).
Proof. intros msg. discriminate. Qed.

Lemma read_no_fatal {A : Type} (a : list A) (i : Z) : no_fatal (read a i).
Proof.
  intros msg. unfold read. destruct (i <? 0)%Z; [discriminate |].
  destruct (nth_error a (Z.to_nat i)); discriminate.
Qed.

Lemma write_no_fatal {A : Type} (a : list A) (i : Z) (v : A) :
  no_fatal (write a i v).
Proof.
  intros msg. unfold write.
  destruct ((i <? 0)%Z || (Z.of_nat (length a) <=? i)%Z); discriminate.
Qed.

Lemma for_each_no_fatal {A B : Type} (l : list A) (body : A -> outcome (list B)) :
  (forall a, no_fatal (body a)) -> no_fatal (for_each l body).
Proof.
  intros Hb. induction l as [| a tl IH]; [apply Ok_no_fatal |].
  simpl. apply bind_no_fatal; [apply Hb |]. intros r _.
  apply bind_no_fatal; [exact IH |]. intros r' _. apply Ok_no_fatal.
Qed.

Lemma for_each_state_no_fatal {S A B : Type} (l : list A)
    (body : S -> A -> outcome (S * list B)) :
  (forall s a, no_fatal (body s a)) -> forall s, no_fatal (for_each_state l body s).
Proof.
  intros Hb. induction l as [| a tl IH]; intros s; [apply Ok_no_fatal |].
  simpl. apply bind_no_fatal; [apply Hb |]. intros [s1 evs] _.
  apply bind_no_fatal; [apply IH |]. intros [s2 evs'] _. apply Ok_no_fatal.
Qed.

Lemma reverse_loop_no_fatal (passes : list Z) (num_segments : Z) :
  forall segments, no_fatal (reverse_loop passes num_segments segments).
Proof.
  induction passes as [| s rest IH]; intros segments; [apply Ok_no_fatal |].
  simpl. apply bind_no_fatal; [apply read_no_fatal |]. intros tmp _.
  apply bind_no_fatal; [apply read_no_fatal |]. intros seg_s _.
  apply bind_no_fatal; [apply write_no_fatal |]. intros segments1 _.
  apply bind_no_fatal; [apply write_no_fatal |]. intros segments2 _.
  apply IH.
Qed.

Lemma flip_loop_no_fatal (passes : list Z) :
  forall segments, no_fatal (flip_loop passes segments).
Proof.
  induction passes as [| s rest IH]; intros segments; [apply Ok_no_fatal |].
  simpl. apply bind_no_fatal; [apply read_no_fatal |]. intros sg _.
  apply bind_no_fatal; [apply write_no_fatal |]. intros segments1 _.
  apply IH.
Qed.

(** [traceStackOTF] has no call of [log_printf] and none of
    [findMeshIndex]. *)
Lemma traceStackOTF_no_fatal (cos sin : Q -> Q) (TINY_MOVE : Q)
    (ts : TraverseSegments) (flattened_track : Track) (first : Track3D)
    (num_z_stack : Z) (z_spacing : Q) :
  no_fatal (traceStackOTF cos sin TINY_MOVE ts flattened_track first
              num_z_stack z_spacing).
Proof.
  unfold traceStackOTF. cbv zeta.
  generalize (getZ (_start_3D first)
              - (getX (_start_3D first) - getX (_start flattened_track))
                / cos (_phi flattened_track)
                / (sin (_theta first) / cos (_theta first))).
  induction (_segments flattened_track) as [| seg rest IH]; intros first_start_z;
    [apply Ok_no_fatal |].
  cbn [stack_segments_loop].
  apply bind_no_fatal; [apply read_no_fatal |]. intros extruded_FSR _.
  destruct (match _global_z_mesh ts with
            | Some mesh => (_mesh_size ts, mesh)
            | None => (_num_fsrs extruded_FSR, _mesh extruded_FSR)
            end) as [num_fsrs axial_mesh].
  destruct (if (sign_of (cos (_theta first)) >? 0)%Z
            then (first_start_z,
                  first_start_z + _length seg / (sin (_theta first) / cos (_theta first)))
            else (first_start_z + _length seg / (sin (_theta first) / cos (_theta first)),
                  first_start_z)) as [lower upper].
  apply bind_no_fatal.
  - apply for_each_no_fatal. intros z_iter. unfold stack_cell.
    apply bind_no_fatal; [apply read_no_fatal |]. intros fsr_id _.
    apply bind_no_fatal; [apply read_no_fatal |]. intros material _.
    apply bind_no_fatal; [apply read_no_fatal |]. intros z_min _.
    apply bind_no_fatal; [apply read_no_fatal |]. intros z_max _.
    apply Ok_no_fatal.
  - intros evs _. apply bind_no_fatal; [apply IH |]. intros evs' _.
    apply Ok_no_fatal.
Qed.

Lemma traceStackTwoWay_no_fatal (cos sin : Q -> Q) (TINY_MOVE M_PI : Q)
    (ts : TraverseSegments) (flattened_track : Track) (first : Track3D)
    (num_z_stack : Z) (z_spacing : Q) :
  no_fatal (traceStackTwoWay cos sin TINY_MOVE M_PI ts flattened_track first
              num_z_stack z_spacing).
Proof.
  rewrite traceStackTwoWay_eq.
  apply bind_no_fatal; [apply traceStackOTF_no_fatal |]. intros forwards _.
  apply bind_no_fatal; [apply traceStackOTF_no_fatal |]. intros backwards _.
  apply Ok_no_fatal.
Qed.

Lemma two_way_iteration_no_fatal (cos sin : Q -> Q) (TINY_MOVE M_PI : Q)
    (ts : TraverseSegments) (kernel : bool) (tid ext_id a i : Z)
    (objects : TrackObjects) (p : Z) :
  no_fatal (two_way_iteration cos sin TINY_MOVE M_PI ts kernel tid ext_id a i
              objects p).
Proof.
  unfold two_way_iteration. apply bind_no_fatal.
  - destruct kernel; [| apply Ok_no_fatal].
    apply bind_no_fatal; [apply read_no_fatal |]. intros flattened_track _.
    apply bind_no_fatal; [apply read_no_fatal |]. intros first _.
    apply bind_no_fatal; [apply traceStackTwoWay_no_fatal |].
    intros [[flattened_track' first'] kernel_calls] _. apply Ok_no_fatal.
  - intros [tg' traced] _. apply Ok_no_fatal.
Qed.

(** X18.  [loopOverTracksByStackTwoWay] ends in a fatal error exactly when
    the segment formation is not [OTF_STACKS], and the error is then the one
    of its first statement, raised before any track is visited: when the
    formation is [OTF_STACKS] nothing in the loop or in the traces it runs
    raises an error. *)
Theorem loopOverTracksByStackTwoWay_fatal_iff (cos sin : Q -> Q)
    (TINY_MOVE M_PI : Q) (ts : TraverseSegments)
    (_segment_formation : segmentationType) (kernel : bool) (tid : Z)
    (objects : TrackObjects) (msg : string) :
  loopOverTracksByStackTwoWay cos sin TINY_MOVE M_PI ts _segment_formation
    kernel tid objects = Fatal msg
  <-> (_segment_formation <> OTF_STACKS /\ msg = two_way_msg).
Proof.
  split.
  - intros H. destruct _segment_formation; simpl in H;
      try (inv_Ok H; split; [discriminate | reflexivity]).
    exfalso. revert H.
    apply for_each_state_no_fatal. intros s ext_id.
    apply bind_no_fatal; [apply read_no_fatal |]. intros flattened_track _.
    apply for_each_state_no_fatal. intros s' p.
    apply two_way_iteration_no_fatal.
  - intros [Hf ->]. destruct _segment_formation; try reflexivity. congruence.
Qed.

Lemma list_update_same {A : Type} (l : list A) (n : nat) (x : A) :
  nth_error l n = Some x -> list_update l n x = l.
Proof.
  revert n. induction l as [| y tl IH]; intros [| n] H; simpl in *;
    try discriminate.
  - injection H as ->. reflexivity.
  - rewrite IH by exact H. reflexivity.
Qed.

Lemma same_tracks_refl (tg : TrackGenerator3D) : same_tracks tg tg.
Proof. unfold same_tracks. repeat split; reflexivity. Qed.

Lemma same_tracks_trans (tg1 tg2 tg3 : TrackGenerator3D) :
  same_tracks tg1 tg2 -> same_tracks tg2 tg3 -> same_tracks tg1 tg3.
Proof.
  unfold same_tracks.
  intros (H1 & H2 & H3 & H4 & H5 & H6) (K1 & K2 & K3 & K4 & K5 & K6).
  repeat split; intros; congruence.
Qed.

(** A write of the value read leaves the track objects as they were. *)
Lemma set_tracks_same (tg : TrackGenerator3D) (ext_id a i p : Z)
    (flattened_track : Track) (first : Track3D) :
  read (get2DTracksArray tg) ext_id = Ok flattened_track ->
  read (get3DTracks tg a i p) 0 = Ok first ->
  same_tracks tg
    (setFirst3DTrack (set2DTrack tg ext_id flattened_track) a i p first).
Proof.
  intros H2 H3. apply read_Ok in H2. apply read_Ok in H3.
  destruct H2 as [_ H2], H3 as [_ H3].
  unfold same_tracks, setFirst3DTrack, set2DTrack. simpl.
  repeat split; auto.
  - apply list_update_same. exact H2.
  - intros a' i' p'.
    destruct ((a' =? a)%Z && (i' =? i)%Z && (p' =? p)%Z) eqn:E; [| reflexivity].
    apply andb_true_iff in E. destruct E as [E Ep].
    apply andb_true_iff in E. destruct E as [Ea Ei].
    apply Z.eqb_eq in Ea, Ei, Ep. subst.
    apply list_update_same. exact H3.
Qed.

(** A loop that changes a state: an invariant of its passes, and what the
    passes keep of their calls. *)
Lemma for_each_state_filter {S A B : Type} (P : S -> Prop) (p : B -> bool)
    (g : A -> list B) (body : S -> A -> outcome (S * list B)) (l : list A) :
  (forall s a s' r, In a l -> P s -> body s a = Ok (s', r) ->
                    P s' /\ filter p r = g a) ->
  forall s s' evs,
    P s -> for_each_state l body s = Ok (s', evs) ->
    P s' /\ filter p evs = flat_map g l.
Proof.
  induction l as [| a tl IH]; intros Hb s s' evs Hs H; simpl in H.
  - inv_Ok H. auto.
  - inv_bind H. destruct a0 as [s1 r]. cbv beta iota in H.
    inv_bind H. destruct a0 as [s2 r']. cbv beta iota in H. inv_Ok H.
    destruct (Hb s a s1 r (or_introl eq_refl) Hs E) as [Hs1 Hr].
    destruct (IH (fun s0 a0 s0' r0 Hin => Hb s0 a0 s0' r0 (or_intror Hin))
                 s1 s' r' Hs1 E0) as [Hs' Hr'].
    split; [exact Hs' |]. rewrite filter_app, Hr, Hr'. reflexivity.
Qed.

Lemma flat_map_all_nil {A B : Type} (f : A -> list B) (l : list A) :
  (forall a, In a l -> f a = []) -> flat_map f l = [].
Proof.
  induction l as [| a tl IH]; intros H; [reflexivity |].
  simpl. rewrite (H a) by (left; reflexivity).
  apply IH. intros a' Ha'. apply H. right. exact Ha'.
Qed.

(** The passes over the indices of an array, pass by pass or element by
    element. *)
Lemma flat_map_nth_from {A B : Type} (h : A -> list B) (pre l : list A)
    (lo hi : Z) :
  lo = Z.of_nat (length pre) ->
  flat_map (fun i => match nth_error (pre ++ l) (Z.to_nat i) with
                     | Some x => h x
                     | None => []
                     end) (zrange lo hi)
  = flat_map h (firstn (Z.to_nat (hi - lo)) l).
Proof.
  revert pre lo. induction l as [| x tl IH]; intros pre lo Hlo.
  - rewrite firstn_nil, app_nil_r. simpl.
    apply flat_map_all_nil. intros j Hj. apply zrange_In in Hj.
    rewrite (proj2 (nth_error_None pre (Z.to_nat j))) by lia. reflexivity.
  - destruct (Z.lt_ge_cases lo hi) as [Hlt | Hge].
    + rewrite zrange_cons by lia. cbn [flat_map].
      replace (Z.to_nat (hi - lo)) with (S (Z.to_nat (hi - (lo + 1)))) by lia.
      rewrite firstn_cons. cbn [flat_map].
      rewrite nth_error_app2 by lia.
      replace (Z.to_nat lo - length pre)%nat with 0%nat by lia. cbn [nth_error].
      f_equal.
      replace (pre ++ x :: tl) with ((pre ++ [x]) ++ tl)
        by (rewrite <- app_assoc; reflexivity).
      apply IH. rewrite length_app. simpl. lia.
    + rewrite zrange_empty by lia.
      replace (Z.to_nat (hi - lo)) with 0%nat by lia. reflexivity.
Qed.

Lemma filter_onKernel (l : list kernel_call) :
  filter is_onTrack (map onKernel l) = [].
Proof. induction l as [| k tl IH]; simpl; auto. Qed.

Lemma track_id_eqb_eq (x y : track_id) : track_id_eqb x y = true <-> x = y.
Proof.
  destruct x as [[[a i] p] z], y as [[[a' i'] p'] z']. unfold track_id_eqb.
  rewrite !andb_true_iff, !Z.eqb_eq. split.
  - intros [[[-> ->] ->] ->]. reflexivity.
  - intros H. inversion H. auto.
Qed.

Lemma setNumSegments3D_other (counts : track_id -> Z) (track id : track_id)
    (n : Z) :
  id <> track -> setNumSegments3D counts track n id = counts id.
Proof.
  intros Hne. unfold setNumSegments3D.
  destruct (track_id_eqb id track) eqn:E; [| reflexivity].
  apply track_id_eqb_eq in E. contradiction.
Qed.

Lemma setNumSegments3D_same (counts : track_id -> Z) (track : track_id) (n : Z) :
  setNumSegments3D counts track n track = n.
Proof.
  unfold setNumSegments3D.
  rewrite (proj2 (track_id_eqb_eq track track) eq_refl). reflexivity.
Qed.

(** One pass of the loop over polar angles: the tracks are as before, the
    hook was called once, on the first track of the z-stack, and the one
    segment count that can differ is that of this track, set by a call of
    [setNumSegments] when there is a kernel. *)
Lemma two_way_iteration_spec (cos sin : Q -> Q) (TINY_MOVE M_PI : Q)
    (ts : TraverseSegments) (kernel : bool) (tid ext_id a i : Z)
    (objects : TrackObjects) (p : Z) (objects' : TrackObjects)
    (calls : list call) :
  two_way_iteration cos sin TINY_MOVE M_PI ts kernel tid ext_id a i objects p
  = Ok (objects', calls) ->
  same_tracks (track_generator objects) (track_generator objects') /\
  filter is_onTrack calls = [onTrack (a, i, p, 0%Z) (tid, 0%Z)] /\
  (forall id, id <> (a, i, p, 0%Z) ->
     num_segments_3D objects' id = num_segments_3D objects id) /\
  (num_segments_3D objects' (a, i, p, 0%Z) = num_segments_3D objects (a, i, p, 0%Z)
   \/ (kernel = true /\
       In (setNumSegments (a, i, p, 0%Z) (num_segments_3D objects' (a, i, p, 0%Z)))
          calls)).
Proof.
  unfold two_way_iteration. cbv zeta. intros H. destruct kernel.
  - destruct (read (get2DTracksArray (track_generator objects)) ext_id)
      as [ft | | |] eqn:Eft; try discriminate.
    cbn [bind] in H.
    destruct (read (get3DTracks (track_generator objects) (_azim_index ft)
                      (_xy_index ft) p) 0)
      as [first | | |] eqn:Efirst; try discriminate.
    cbn [bind] in H. rewrite traceStackTwoWay_eq in H.
    destruct (traceStackOTF cos sin TINY_MOVE ts ft first
                (getTracksPerStack (track_generator objects) (_azim_index ft)
                   (_xy_index ft) p)
                (getZSpacing (track_generator objects) (_azim_index ft) p))
      as [fw | | |]; try discriminate.
    cbn [bind] in H.
    destruct (traceStackOTF cos sin TINY_MOVE ts (reflect_track M_PI ft)
                (reflect_first M_PI first)
                (getTracksPerStack (track_generator objects) (_azim_index ft)
                   (_xy_index ft) p)
                (getZSpacing (track_generator objects) (_azim_index ft) p))
      as [bw | | |]; try discriminate.
    cbn [bind] in H. cbv beta iota zeta in H. inv_Ok H.
    cbn [track_generator num_segments_3D]. split; [| split; [| split]].
    + apply set_tracks_same; assumption.
    + cbn [filter is_onTrack]. rewrite !filter_app, filter_onKernel. reflexivity.
    + intros id Hne. apply setNumSegments3D_other. exact Hne.
    + right. split; [reflexivity |]. rewrite setNumSegments3D_same.
      cbn [In]. rewrite !in_app_iff. cbn [In]. auto 10.
  - cbn [bind] in H. cbv beta iota zeta in H. inv_Ok H.
    split; [apply same_tracks_refl |]. split; [reflexivity |]. auto.
Qed.



(** The tracks and the calls of the hook after a run. *)
Lemma loopOverTracksByStackTwoWay_spec (cos sin : Q -> Q) (TINY_MOVE M_PI : Q)
    (ts : TraverseSegments) (_segment_formation : segmentationType)
    (kernel : bool) (tid : Z) (objects objects' : TrackObjects)
    (calls : list call) :
  loopOverTracksByStackTwoWay cos sin TINY_MOVE M_PI ts _segment_formation
    kernel tid objects = Ok (objects', calls) ->
  _segment_formation = OTF_STACKS /\
  same_tracks (track_generator objects) (track_generator objects') /\
  filter is_onTrack calls = onTrack_by_stack (track_generator objects) tid.
Proof.
  intros H. destruct _segment_formation; try discriminate.
  split; [reflexivity |]. unfold loopOverTracksByStackTwoWay in H.
  set (tg := track_generator objects) in *.
  unfold onTrack_by_stack, tracks_in_loop.
  rewrite <- (Z.sub_0_r (getNum2DTracks tg)) at 1.
  rewrite <- (flat_map_nth_from _ [] (get2DTracksArray tg) 0 (getNum2DTracks tg) eq_refl).
  revert H.
  apply (for_each_state_filter (fun s => same_tracks tg (track_generator s)));
    [| apply same_tracks_refl].
  intros s ext_id s' r _ Hs Hb.
  destruct (read (get2DTracksArray (track_generator s)) ext_id)
    as [ft | | |] eqn:Eft; try discriminate.
  cbn [bind] in Hb.
  assert (get2DTracksArray (track_generator s) = get2DTracksArray tg) as Harr
      by apply Hs.
  rewrite Harr in Eft. apply read_Ok in Eft. destruct Eft as [_ Eft].
  cbn [app]. rewrite Eft. rewrite <- flat_map_singleton.
  revert Hb.
  apply (for_each_state_filter (fun s => same_tracks tg (track_generator s)));
    [| exact Hs].
  intros s0 p s0' r0 _ Hs0 Hp.
  apply two_way_iteration_spec in Hp. destruct Hp as (Hsame & Hf & _).
  split; [eapply same_tracks_trans; eassumption | exact Hf].
Qed.




(** X20.  A run of [loopOverTracksByStackTwoWay] that completes has called
    the hook [onTrack] once for each flattened track and polar angle, on the
    first track of the z-stack and with the temporary buffer of the worker,
    in the order of the loops; this holds with a kernel and without. *)
Theorem loopOverTracksByStackTwoWay_onTrack_per_stack (cos sin : Q -> Q)
    (TINY_MOVE M_PI : Q) (ts : TraverseSegments)
    (_segment_formation : segmentationType) (kernel : bool) (tid : Z)
    (objects objects' : TrackObjects) (calls : list call) :
  loopOverTracksByStackTwoWay cos sin TINY_MOVE M_PI ts _segment_formation
    kernel tid objects = Ok (objects', calls) ->
  filter is_onTrack calls = onTrack_by_stack (track_generator objects) tid.
Proof.
  intros H. apply loopOverTracksByStackTwoWay_spec in H. apply H.
Qed.

Lemma loopOverTracksByStackTwoWay_onTrack_per_stack_witness :
  exists objects' calls,
    loopOverTracksByStackTwoWay cos_example sin_example tiny_example pi_example
      ts_example OTF_STACKS true 0 objects_example2 = Ok (objects', calls) /\
    filter is_onTrack calls
    = onTrack_by_stack (track_generator objects_example2) 0.
Proof.
  eexists. eexists. split; [vm_compute; reflexivity |].
  eapply (loopOverTracksByStackTwoWay_onTrack_per_stack cos_example sin_example
            tiny_example pi_example ts_example OTF_STACKS true 0%Z
            objects_example2).
  vm_compute. reflexivity.
Defined.

(** ** traceSegmentsOTF completes on well-formed input *)

Section Completion.

Variables (TINY_MOVE : Q) (geometry : Geometry) (cos_theta sin_theta : Q)
          (sign : Z).
Hypothesis sin_pos : 0 < sin_theta.
Hypothesis sign_cos :
  (sign = 1%Z /\ 0 < cos_theta) \/ (sign = (-1)%Z /\ cos_theta < 0).





End Completion.

Lemma mesh_value_bounds (axial_mesh : list Q) (num_fsrs i : Z) (z_low z_high m : Q) :
  mesh_ok axial_mesh num_fsrs = true ->
  read axial_mesh 0 = Ok z_low -> read axial_mesh num_fsrs = Ok z_high ->
  read axial_mesh i = Ok m -> z_low <= m <= z_high.
Proof.
  intros Hok Hlo Hhi Hm. apply mesh_ok_inv in Hok.
  destruct Hok as (Hinc & Hlen & Hnf).
  pose proof (read_bound _ _ _ Hm) as Hi. split.
  - destruct (Z.eq_dec i 0) as [-> | Hne].
    + rewrite Hlo in Hm. inv_Ok Hm. lra.
    + apply Qlt_le_weak.
      eapply (strictly_increasing_read axial_mesh 0 i); eauto; lia.
  - destruct (Z.eq_dec i num_fsrs) as [-> | Hne].
    + rewrite Hhi in Hm. inv_Ok Hm. lra.
    + apply Qlt_le_weak.
      eapply (strictly_increasing_read axial_mesh i num_fsrs); eauto; lia.
Qed.


Section RayCompletion.

Variables (TINY_MOVE : Q) (geometry : Geometry) (cos_theta sin_theta : Q)
          (sign : Z) (fuel : nat) (z_low z_high : Q).
Hypothesis sin_pos : 0 < sin_theta.
Hypothesis sign_cos :
  (sign = 1%Z /\ 0 < cos_theta) \/ (sign = (-1)%Z /\ cos_theta < 0).



End RayCompletion.




(** ** findMeshIndex is monotone; the scan for the starting segment *)

Lemma Qltb_compat (x y x' y' : Q) : x == x' -> y == y' -> Qltb x y = Qltb x' y'.
Proof.
  intros Hx Hy. destruct (Qltb x y) eqn:E, (Qltb x' y') eqn:E'; auto.
  - apply Qltb_lt in E. apply Qltb_ge in E'. lra.
  - apply Qltb_ge in E. apply Qltb_lt in E'. lra.
Qed.

(** The search compares values only: equal heights find the same cell. *)
Lemma findMeshIndex_loop_compat (fuel : nat) (values : list Q) (val val' : Q)
    (sign : Z) :
  val == val' ->
  forall imin imax,
    findMeshIndex_loop fuel values val sign imin imax
    = findMeshIndex_loop fuel values val' sign imin imax.
Proof.
  intros Hv. induction fuel as [| fuel IH]; intros imin imax; [reflexivity |].
  cbn [findMeshIndex_loop]. destruct (imax - imin >? 1)%Z; [| reflexivity].
  destruct (read values (int_div (int_add imin imax) 2)) as [v | | |];
    try reflexivity.
  cbn [bind]. unfold Qgtb.
  rewrite (Qltb_compat v val v val' (Qeq_refl _) Hv).
  rewrite (Qltb_compat val v val' v Hv (Qeq_refl _)).
  rewrite !IH. reflexivity.
Qed.

Lemma findMeshIndex_compat (values : list Q) (size : Z) (val val' : Q) (sign : Z) :
  val == val' ->
  findMeshIndex values size val sign = findMeshIndex values size val' sign.
Proof.
  intros Hv. unfold findMeshIndex.
  destruct (read values 0) as [vmin | | |]; try reflexivity. cbn [bind].
  rewrite (Qltb_compat val vmin val' vmin Hv (Qeq_refl _)).
  destruct (Qltb val' vmin); [reflexivity |].
  destruct (read values (size - 1)) as [vmax | | |]; try reflexivity. cbn [bind].
  unfold Qgtb. rewrite (Qltb_compat vmax val vmax val' (Qeq_refl _) Hv).
  destruct (Qltb vmax val'); [reflexivity |].
  apply findMeshIndex_loop_compat. exact Hv.
Qed.

(** The cell found brackets the height. *)
Lemma findMeshIndex_bracket (values : list Q) (size : Z) (val : Q) (sign : Z)
    (vmin vmax : Q) :
  Z.of_nat (length values) = size -> (2 <= size <= 2 ^ 30)%Z ->
  strictly_increasing values = true ->
  read values 0 = Ok vmin -> read values (size - 1)%Z = Ok vmax ->
  vmin <= val -> val <= vmax ->
  exists i lo hi,
    findMeshIndex values size val sign = Ok i /\
    read values i = Ok lo /\ read values (i + 1)%Z = Ok hi /\
    lo <= val /\ val <= hi.
Proof.
  intros Hlen Hsz Hinc Hmin Hmax Hlo Hhi.
  destruct (findMeshIndex_in_range values size val sign vmin vmax)
    as [(m & v & Hm & Hv & Hve & Hres) | (i & lo & hi & Hres & Hi & Hl & Hh & H1 & H2 & _)];
    auto.
  - destruct (read_in_range values (m - 1)) as [vl Hvl]; [lia |].
    destruct (read_in_range values (m + 1)) as [vh Hvh]; [lia |].
    assert (vl < v) by (eapply (strictly_increasing_read values (m - 1) m); eauto; lia).
    assert (v < vh) by (eapply (strictly_increasing_read values m (m + 1)); eauto; lia).
    destruct (sign >? 0)%Z.
    + exists m, v, vh. repeat split; auto; lra.
    + exists (m - 1)%Z, vl, v. replace (m - 1 + 1)%Z with m by lia.
      repeat split; auto; lra.
  - exists i, lo, hi. repeat split; auto.
Qed.

(** X22.  [findMeshIndex] is monotone: on a strictly increasing array of
    [size] values, [2 <= size <= 2^30] (so that the sum [imin + imax] of the
    search is an [int]), and for one sign, of two queries within the range
    the one that is not smaller finds a cell that is not lower. *)
Theorem findMeshIndex_monotone (values : list Q) (size : Z) (val1 val2 : Q)
    (sign : Z) (vmin vmax : Q) :
  Z.of_nat (length values) = size -> (2 <= size <= 2 ^ 30)%Z ->
  strictly_increasing values = true ->
  read values 0 = Ok vmin -> read values (size - 1)%Z = Ok vmax ->
  vmin <= val1 -> val1 <= val2 -> val2 <= vmax ->
  exists i1 i2,
    findMeshIndex values size val1 sign = Ok i1 /\
    findMeshIndex values size val2 sign = Ok i2 /\
    (i1 <= i2)%Z.
Proof.
  intros Hlen Hsz Hinc Hmin Hmax H1 H12 H2.
  destruct (findMeshIndex_bracket values size val1 sign vmin vmax)
    as (i1 & lo1 & hi1 & Hr1 & Hl1 & Hh1 & Hlo1 & Hhi1); auto; [lra |].
  destruct (findMeshIndex_bracket values size val2 sign vmin vmax)
    as (i2 & lo2 & hi2 & Hr2 & Hl2 & Hh2 & Hlo2 & Hhi2); auto; [lra |].
  exists i1, i2. repeat split; auto.
  destruct (Z.le_gt_cases i1 i2) as [Hle | Hgt]; [exact Hle | exfalso].
  assert (hi2 <= lo1) as Hord.
  { destruct (Z.eq_dec (i2 + 1) i1) as [E | Hne].
    - rewrite E in Hh2. rewrite Hl1 in Hh2. inv_Ok Hh2. lra.
    - apply Qlt_le_weak.
      eapply (strictly_increasing_read values (i2 + 1) i1); eauto; lia. }
  assert (val1 == val2) as Heq by lra.
  rewrite (findMeshIndex_compat values _ val1 val2 sign Heq) in Hr1.
  rewrite Hr1 in Hr2. inv_Ok Hr2. lia.
Qed.

Lemma findMeshIndex_monotone_witness :
  exists i1 i2,
    findMeshIndex mesh0123 4 1 (-1) = Ok i1 /\
    findMeshIndex mesh0123 4 (5 # 2) (-1) = Ok i2 /\
    (i1 <= i2)%Z.
Proof.
  apply (findMeshIndex_monotone mesh0123 4 1 (5 # 2) (-1) 0 3).
  - reflexivity.
  - lia.
  - reflexivity.
  - reflexivity.
  - reflexivity.
  - unfold Qle; simpl; lia.
  - unfold Qle; simpl; lia.
  - unfold Qle; simpl; lia.
Defined.

(** X23.  The scan for the starting 2D segment of [traceSegmentsOTF]
    (lines 306-319) passes exactly the segments that end strictly before the
    start of the 3D track: it returns their number [seg_start] and the offset
    less their lengths, and what remains of the offset does not exceed the
    length of the segment it stops at. *)
Theorem start_segment_scan (segments_2D : list segment) :
  forall (start_dist_2D : Q) (k0 : Z),
  exists j : nat,
    snd (find_start_segment segments_2D start_dist_2D k0) = (k0 + Z.of_nat j)%Z /\
    (j <= length segments_2D)%nat /\
    fst (find_start_segment segments_2D start_dist_2D k0)
    == start_dist_2D - Qsum (map _length (firstn j segments_2D)) /\
    (forall i, (i < j)%nat ->
       Qsum (map _length (firstn (S i) segments_2D)) < start_dist_2D) /\
    match nth_error segments_2D j with
    | Some sg => fst (find_start_segment segments_2D start_dist_2D k0) <= _length sg
    | None => True
    end.
Proof.
  induction segments_2D as [| sg rest IH]; intros d k0.
  - exists 0%nat. simpl. repeat split; [lia | lia | lra | intros; lia].
  - cbn [find_start_segment]. destruct (Qgtb d (_length sg)) eqn:E.
    + apply Qgtb_gt in E.
      destruct (IH (d - _length sg) (k0 + 1)%Z) as (j & Hk & Hj & Hd & Hpass & Hstop).
      exists (S j). cbn [firstn map nth_error length].
      split; [rewrite Hk; lia |]. split; [lia |].
      split; [rewrite Hd; simpl; lra |]. split; [| exact Hstop].
      intros [| i] Hi.
      * simpl. lra.
      * specialize (Hpass i ltac:(lia)).
        cbn [firstn map] in *. simpl in *. lra.
    + apply Qgtb_le in E. exists 0%nat. simpl.
      repeat split; [lia | lia | lra | intros; lia | exact E].
Qed.

(** ** traceSegmentsOTF: the global z-mesh and the meshes of the extruded FSRs *)

(** A height on an interior boundary of the mesh. *)
Lemma findMeshIndex_on_boundary (axial_mesh : list Q) (num_fsrs : Z) (z : Q)
    (sign k : Z) (vk : Q) :
  mesh_ok axial_mesh num_fsrs = true ->
  (0 < k < num_fsrs)%Z -> read axial_mesh k = Ok vk -> z == vk ->
  findMeshIndex axial_mesh (num_fsrs + 1)%Z z sign
  = Ok (if (sign >? 0)%Z then k else (k - 1)%Z).
Proof.
  intros Hok Hk Hvk Hz. apply mesh_ok_inv in Hok.
  destruct Hok as (Hinc & Hlen & Hnf).
  destruct (read_in_range axial_mesh 0) as [vmin Hmin]; [lia |].
  destruct (read_in_range axial_mesh (num_fsrs + 1 - 1)) as [vmax Hmax]; [lia |].
  assert (vmin < vk)
    by (eapply (strictly_increasing_read axial_mesh 0 k); eauto; lia).
  assert (vk < vmax)
    by (eapply (strictly_increasing_read axial_mesh k (num_fsrs + 1 - 1)); eauto; lia).
  destruct (findMeshIndex_in_range axial_mesh (num_fsrs + 1) z sign vmin vmax)
    as [(m & v & Hm & Hv & Hve & Hres) | (i & lo & hi & Hres & Hi & Hl & Hh & H1 & H2 & H3 & H4)];
    auto; try lia; try lra.
  - assert (m = k) as ->; [| exact Hres].
    apply Z.le_antisymm.
    + eapply (strictly_increasing_le axial_mesh k m); eauto. lra.
    + eapply (strictly_increasing_le axial_mesh m k); eauto. lra.
  - exfalso.
    assert (i < k)%Z as Hik.
    { destruct (Z.lt_ge_cases i k) as [Hc | Hc]; [exact Hc |].
      destruct H3 as [H3 | H3]; [| lia].
      assert (i <= k)%Z by (eapply (strictly_increasing_le axial_mesh k i); eauto; lra).
      assert (i = k) by lia. subst i.
      rewrite Hvk in Hl. injection Hl as <-. lra. }
    assert (k <= i + 1)%Z as Hki
        by (eapply (strictly_increasing_le axial_mesh (i + 1) k); eauto; lra).
    assert (k = i + 1)%Z by lia. subst k.
    rewrite Hvk in Hh. injection Hh as <-.
    destruct H4 as [H4 | H4]; [lra | lia].
Qed.

(** The cell found holds the height between its boundaries. *)
Lemma findMeshIndex_Ok_bracket (axial_mesh : list Q) (num_fsrs : Z) (z : Q)
    (sign i : Z) :
  mesh_ok axial_mesh num_fsrs = true ->
  findMeshIndex axial_mesh (num_fsrs + 1)%Z z sign = Ok i ->
  exists lo hi,
    read axial_mesh i = Ok lo /\ read axial_mesh (i + 1)%Z = Ok hi /\
    lo <= z /\ z <= hi.
Proof.
  intros Hok H. apply mesh_ok_inv in Hok. destruct Hok as (Hinc & Hlen & Hnf).
  destruct (findMeshIndex_guard axial_mesh (num_fsrs + 1) z sign Hlen ltac:(lia))
    as (vmin & vmax & Hmin & Hmax & Heq).
  pose proof H as Hfm. rewrite Heq in H.
  destruct (Qltb z vmin) eqn:Elo; [discriminate |].
  destruct (Qgtb z vmax) eqn:Ehi; [discriminate |].
  apply Qltb_ge in Elo. apply Qgtb_le in Ehi.
  destruct (findMeshIndex_bracket axial_mesh (num_fsrs + 1) z sign vmin vmax)
    as (i' & lo & hi & Hres & Hl & Hh & H1 & H2); auto; [lia |].
  rewrite Hfm in Hres. inv_Ok Hres. exists lo, hi. auto.
Qed.

(** A height strictly inside a cell of the mesh. *)
Lemma findMeshIndex_inside (axial_mesh : list Q) (num_fsrs : Z) (z : Q)
    (sign i : Z) (lo hi : Q) :
  mesh_ok axial_mesh num_fsrs = true ->
  read axial_mesh i = Ok lo -> read axial_mesh (i + 1)%Z = Ok hi ->
  lo < z -> z < hi ->
  findMeshIndex axial_mesh (num_fsrs + 1)%Z z sign = Ok i.
Proof.
  intros Hok Hlo Hhi Hl Hh. pose proof Hok as Hok'. apply mesh_ok_inv in Hok'.
  destruct Hok' as (Hinc & Hlen & Hnf).
  destruct (read_in_range axial_mesh 0) as [vmin Hmin]; [lia |].
  destruct (read_in_range axial_mesh num_fsrs) as [vmax Hmax]; [lia |].
  pose proof (mesh_value_bounds _ _ _ _ _ _ Hok Hmin Hmax Hlo) as Blo.
  pose proof (mesh_value_bounds _ _ _ _ _ _ Hok Hmin Hmax Hhi) as Bhi.
  destruct (findMeshIndex_bracket axial_mesh (num_fsrs + 1) z sign vmin vmax)
    as (j & lo' & hi' & Hres & Hl' & Hh' & H1 & H2); auto; try lia; try lra.
  { replace (num_fsrs + 1 - 1)%Z with num_fsrs by lia. exact Hmax. }
  assert (j < i + 1)%Z
    by (eapply (strictly_increasing_lt_inv axial_mesh j (i + 1)); eauto; lra).
  assert (i < j + 1)%Z
    by (eapply (strictly_increasing_lt_inv axial_mesh i (j + 1)); eauto; lra).
  assert (j = i) by lia. subst j. exact Hres.
Qed.

Section MeshAgreement.

Variables (TINY_MOVE : Q) (geometry : Geometry) (cos_theta sin_theta : Q)
          (sign : Z) (axial_mesh : list Q) (num_fsrs : Z).
Hypothesis sin_pos : 0 < sin_theta.
Hypothesis sign_cos :
  (sign = 1%Z /\ 0 < cos_theta) \/ (sign = (-1)%Z /\ cos_theta < 0).
Hypothesis Hmesh : mesh_ok axial_mesh num_fsrs = true.

(** After a pass that stays in the mesh, the cell index is the one that the
    search finds for the new height. *)
Lemma pass_keeps_index st dist_2D dist_3D z_move z_coord' :
  findMeshIndex axial_mesh (num_fsrs + 1)%Z (z_coord st) sign = Ok (z_ind st) ->
  0 < remaining_length_2D st ->
  shortest_distance cos_theta sin_theta sign axial_mesh st
  = Ok (dist_2D, dist_3D, z_move) ->
  z_coord' == z_coord st + cos_theta * dist_3D ->
  (0 <= z_ind st + z_move < num_fsrs)%Z ->
  findMeshIndex axial_mesh (num_fsrs + 1)%Z z_coord' sign
  = Ok (z_ind st + z_move)%Z.
Proof.
  intros HJ Hrem Hsd Hz Hin.
  destruct (findMeshIndex_Ok_bracket _ _ _ _ _ Hmesh HJ)
    as (lo & hi & Hlo & Hhi & Hzlo & Hzhi).
  pose proof (read_bound _ _ _ Hlo) as Blo.
  pose proof (read_bound _ _ _ Hhi) as Bhi.
  pose proof (proj1 (proj2 (mesh_ok_inv _ _ Hmesh))) as Hlen.
  apply shortest_distance_inv in Hsd. destruct Hsd as (m & Hm & Hcase).
  assert (~ cos_theta == 0) as Hc0
      by (destruct sign_cos as [[_ Hc] | [_ Hc]]; lra).
  destruct Hcase as [(-> & _ & _ & ->) | (Hlt & -> & _ & ->)].
  - (* the pass ends on the axial boundary [m] *)
    assert (z_coord' == m) as Hzm.
    { rewrite Hz, (Qdiv_cancel_l _ _ Hc0). ring. }
    destruct sign_cos as [[Hs Hc] | [Hs Hc]]; rewrite Hs in *; simpl in Hm.
    + apply (findMeshIndex_on_boundary axial_mesh num_fsrs z_coord' 1
               (z_ind st + 1) m Hmesh); auto; lia.
    + replace (z_ind st + -1)%Z with (z_ind st - 1)%Z by lia.
      apply (findMeshIndex_on_boundary axial_mesh num_fsrs z_coord' (-1)
               (z_ind st) m Hmesh); auto; lia.
  - (* the pass ends inside the cell *)
    rewrite Z.add_0_r.
    pose proof (Qdiv_pos _ _ sin_pos Hrem) as Hpos.
    apply Qlt_div_mult in Hlt. destruct Hlt as [Hp Hn].
    destruct sign_cos as [[Hs Hc] | [Hs Hc]]; rewrite Hs in *; simpl in Hm.
    + rewrite Hhi in Hm. inv_Ok Hm. specialize (Hp Hc).
      assert (0 < cos_theta * (remaining_length_2D st / sin_theta))
        by (apply Qmult_lt_0_compat; lra).
      apply (findMeshIndex_inside axial_mesh num_fsrs z_coord' 1 (z_ind st) lo m);
        auto; lra.
    + rewrite Hlo in Hm. inv_Ok Hm. specialize (Hn Hc).
      assert (0 < (- cos_theta) * (remaining_length_2D st / sin_theta))
        by (apply Qmult_lt_0_compat; lra).
      apply (findMeshIndex_inside axial_mesh num_fsrs z_coord' (-1) (z_ind st) m hi);
        auto; lra.
Qed.

(** At the end of a 2D segment, the cell index carried over is the one that
    the search finds for the height reached. *)
Lemma transport_2D_segment_keeps_index fuel seg extruded_FSR :
  forall st st' evs dists,
    findMeshIndex axial_mesh (num_fsrs + 1)%Z (z_coord st) sign = Ok (z_ind st) ->
    transport_2D_segment TINY_MOVE geometry cos_theta sin_theta sign fuel seg
      extruded_FSR axial_mesh num_fsrs st = Ok (st', evs, dists) ->
    segments_complete st' = false ->
    findMeshIndex axial_mesh (num_fsrs + 1)%Z (z_coord st') sign = Ok (z_ind st').
Proof.
  induction fuel as [| fuel IH]; intros st st' evs dists HJ H Hc.
  - simpl in H. destruct (Qgtb (remaining_length_2D st) 0); [discriminate |].
    inv_Ok H. exact HJ.
  - destruct (Qgtb (remaining_length_2D st) 0) eqn:Hrem.
    + apply transport_2D_segment_pass in H; [| exact Hrem].
      apply Qgtb_gt in Hrem.
      destruct H as (d2 & d3 & zm & fsr & ex & zc & Hsd & _ & Hzc & _ & H).
      cbv zeta in H.
      destruct ((z_ind st + zm <? 0)%Z || (z_ind st + zm >=? num_fsrs)%Z) eqn:Eout.
      * inv_Ok H. discriminate.
      * destruct H as (st1 & evs1 & dists1 & Hrec & H). inv_Ok H.
        apply orb_false_iff in Eout. destruct Eout as [E1 E2].
        apply Z.ltb_ge in E1. rewrite Z.geb_leb in E2. apply Z.leb_gt in E2.
        eapply IH; [| exact Hrec | exact Hc].
        cbn [z_coord z_ind].
        apply (pass_keeps_index st d2 d3 zm zc); auto; lia.
    + rewrite transport_2D_segment_done in H by exact Hrem. inv_Ok H. exact HJ.
Qed.

Hypothesis Hsame :
  Forall (fun e => _mesh e = axial_mesh /\ _num_fsrs e = num_fsrs)
         (_extruded_FSR_lookup geometry).

(** With one mesh for all extruded FSRs, the loop over the 2D segments does
    the same whether it keeps the mesh and the cell index or searches the
    mesh of each extruded FSR again. *)
Lemma otf_segments_loop_agree fuel segments_2D :
  forall first_segment start_dist_2D z_coord0 z_ind0,
    findMeshIndex axial_mesh (num_fsrs + 1)%Z z_coord0 sign = Ok z_ind0 ->
    otf_segments_loop TINY_MOVE geometry cos_theta sin_theta sign fuel true
      segments_2D first_segment start_dist_2D num_fsrs axial_mesh z_coord0 z_ind0
    = otf_segments_loop TINY_MOVE geometry cos_theta sin_theta sign fuel false
        segments_2D first_segment start_dist_2D num_fsrs axial_mesh z_coord0 z_ind0.
Proof.
  induction segments_2D as [| seg rest IH];
    intros first_segment start_dist_2D z_coord0 z_ind0 HJ; [reflexivity |].
  cbn [otf_segments_loop].
  destruct (getExtrudedFSR geometry (_region_id seg)) as [e | | |] eqn:He;
    try reflexivity.
  cbn [bind].
  pose proof (proj1 (Forall_forall _ _) Hsame e (read_In _ _ _ He)) as [Em En].
  rewrite orb_true_r, orb_false_r. rewrite Em, En, HJ.
  assert ((if first_segment
           then Ok (num_fsrs, axial_mesh, z_ind0)
           else z_ind1 <- Ok z_ind0 ;; Ok (num_fsrs, axial_mesh, z_ind1))
          = Ok (num_fsrs, axial_mesh, z_ind0)) as ->
      by (destruct first_segment; reflexivity).
  cbn [bind]. cbv beta iota.
  destruct (transport_2D_segment TINY_MOVE geometry cos_theta sin_theta sign fuel
              seg e axial_mesh num_fsrs
              (mkOtf z_coord0 z_ind0 (_length seg - start_dist_2D) false))
    as [[[st evs] dists] | | |] eqn:Ht; try reflexivity.
  cbn [bind]. cbv beta iota.
  destruct (segments_complete st) eqn:Ec; [reflexivity |].
  rewrite (IH false 0 (z_coord st) (z_ind st)); [reflexivity |].
  apply (transport_2D_segment_keeps_index fuel seg e
           (mkOtf z_coord0 z_ind0 (_length seg - start_dist_2D) false)
           st evs dists HJ Ht Ec).
Qed.

End MeshAgreement.

(** X24.  When all extruded FSRs have the same strictly increasing axial
    mesh, [traceSegmentsOTF] with that mesh as global z-mesh gives the result
    of [traceSegmentsOTF] without global z-mesh (in exact arithmetic, for
    [sin theta > 0] and [cos theta <> 0]): the cell index that it carries
    from one 2D segment to the next is the index that [findMeshIndex] finds
    again in the mesh of the next extruded FSR, also when the ray is on a
    boundary of the mesh. *)
Theorem traceSegmentsOTF_global_mesh_agrees (cos sin : Q -> Q) (TINY_MOVE : Q)
    (fuel : nat) (geometry : Geometry) (axial_mesh : list Q)
    (num_fsrs mesh_size : Z) (flattened_track : Track) (start : Point)
    (theta : Q) (res : bool * list event * list Q) :
  0 < sin theta -> ~ cos theta == 0 ->
  mesh_ok axial_mesh num_fsrs = true ->
  same_mesh geometry axial_mesh num_fsrs ->
  traceSegmentsOTF cos sin TINY_MOVE fuel
    (mkTraverseSegments geometry None mesh_size) flattened_track start theta
  = Ok res ->
  traceSegmentsOTF cos sin TINY_MOVE fuel
    (mkTraverseSegments geometry (Some axial_mesh) num_fsrs) flattened_track
    start theta
  = Ok res.
Proof.
  intros Hsin Hcos Hok Hsame H. unfold traceSegmentsOTF in *. cbv zeta in *.
  cbn [_global_z_mesh _mesh_size _geometry] in *.
  destruct (find_start_segment (_segments flattened_track)
              ((getX start - getX (_start flattened_track)) / cos (_phi flattened_track)) 0)
    as [start_dist_2D seg_start].
  destruct (read (_segments flattened_track) seg_start) as [sg | | |];
    try discriminate.
  cbn [bind] in H.
  destruct (getExtrudedFSR geometry (_region_id sg)) as [e | | |] eqn:He;
    try discriminate.
  cbn [bind] in H. cbv beta iota in H.
  pose proof (proj1 (Forall_forall _ _) Hsame e (read_In _ _ _ He)) as [Em En].
  rewrite Em, En in H. cbn [bind]. cbv beta iota.
  destruct (findMeshIndex axial_mesh (num_fsrs + 1) (getZ start)
              (sign_of (cos theta))) as [z_ind | | |] eqn:HJ; try discriminate.
  cbn [bind] in H |- *. cbv beta iota.
  rewrite (otf_segments_loop_agree TINY_MOVE geometry (cos theta) (sin theta)
             (sign_of (cos theta)) axial_mesh num_fsrs Hsin
             (sign_of_cases (cos theta) Hcos) Hok Hsame fuel _ true
             start_dist_2D (getZ start) z_ind HJ).
  exact H.
Qed.

Lemma traceSegmentsOTF_global_mesh_agrees_witness :
  exists res,
    traceSegmentsOTF cos_example sin_example tiny_example 4 ts_example
      (track_example [1; 3]) (mkPoint 0 0 0) theta_example = Ok res /\
    traceSegmentsOTF cos_example sin_example tiny_example 4 ts_global_example
      (track_example [1; 3]) (mkPoint 0 0 0) theta_example = Ok res.
Proof.
  eexists. split; [vm_compute; reflexivity |].
  apply (traceSegmentsOTF_global_mesh_agrees cos_example sin_example
           tiny_example 4 geometry_example [0; 1; 2] 2 0 (track_example [1; 3])
           (mkPoint 0 0 0) theta_example).
  - vm_compute. reflexivity.
  - vm_compute. congruence.
  - reflexivity.
  - unfold same_mesh. simpl. constructor; [split; reflexivity | constructor].
  - vm_compute. reflexivity.
Defined.

(** ** findMeshIndex beyond the range of int *)

Lemma length_linear_mesh (n : Z) :
  (0 <= n)%Z -> Z.of_nat (length (linear_mesh n)) = n.
Proof.
  intros Hn. unfold linear_mesh. rewrite length_map, zrange_length. lia.
Qed.

Lemma read_linear_mesh (n i : Z) :
  (0 <= i < n)%Z -> read (linear_mesh n) i = Ok (inject_Z i).
Proof.
  intros Hi. apply read_Ok. split; [lia |].
  unfold linear_mesh, zrange.
  rewrite (nth_error_nth' _ 0) by (rewrite !length_map, length_seq; lia).
  f_equal. rewrite (map_nth inject_Z _ 0%Z). f_equal.
  rewrite (map_nth (fun k => (0 + Z.of_nat k)%Z) _ 0%nat).
  rewrite seq_nth by lia. lia.
Qed.

Lemma strictly_increasing_from (lo : Z) (len start : nat) :
  strictly_increasing
    (map inject_Z (map (fun k => (lo + Z.of_nat k)%Z) (seq start len))) = true.
Proof.
  revert start. induction len as [| len IH]; intros start; [reflexivity |].
  cbn [seq map]. specialize (IH (S start)).
  destruct len as [| len]; [reflexivity |].
  cbn [seq map] in *. cbn [strictly_increasing].
  apply andb_true_iff. split; [| exact IH].
  apply Qltb_lt. unfold Qlt. simpl. lia.
Qed.

Lemma strictly_increasing_linear_mesh (n : Z) :
  strictly_increasing (linear_mesh n) = true.
Proof. apply strictly_increasing_from. Qed.

Lemma read_negative {A : Type} (a : list A) (i : Z) :
  (i < 0)%Z -> read a i = Undefined.
Proof.
  intros Hi. unfold read. destruct (Z.ltb_spec i 0); [reflexivity | lia].
Qed.

Lemma findMeshIndex_loop_step (fuel : nat) (values : list Q) (val : Q)
    (sign imin imax : Z) :
  findMeshIndex_loop (S fuel) values val sign imin imax
  = if (imax - imin >? 1)%Z then
      let imid := int_div (int_add imin imax) 2 in
      v <- read values imid ;;
      if Qgtb val v then findMeshIndex_loop fuel values val sign imid imax
      else if Qltb val v then findMeshIndex_loop fuel values val sign imin imid
      else if (sign >? 0)%Z then Ok imid
      else Ok (imid - 1)%Z
    else Ok imin.
Proof. reflexivity. Qed.

(** The passes of the search for [overflow_query]: the lower index climbs to
    [2^30 - 1], and the next midpoint is computed from the sum [2^31]. *)
Lemma findMeshIndex_loop_overflow (fuel : nat) (sign : Z) :
  forall imin,
    (0 <= imin <= 2 ^ 30 - 1)%Z -> (2 ^ 30 - imin <= Z.of_nat fuel)%Z ->
    findMeshIndex_loop fuel overflow_mesh overflow_query sign imin (2 ^ 30 + 1)
    = Undefined.
Proof.
  induction fuel as [| fuel IH]; intros imin Hi Hf; [lia |].
  rewrite findMeshIndex_loop_step.
  destruct (Z.gtb_spec (2 ^ 30 + 1 - imin) 1) as [_ | Hw]; [| lia].
  cbv zeta.
  destruct (Z.eq_dec imin (2 ^ 30 - 1)) as [-> | Hne].
  - (* [imin + imax = 2^31] wraps to [- 2^31] *)
    assert (int_div (int_add (2 ^ 30 - 1) (2 ^ 30 + 1)) 2 = (- 2 ^ 30)%Z) as ->
        by reflexivity.
    rewrite read_negative by lia. reflexivity.
  - assert (imin < int_div (int_add imin (2 ^ 30 + 1)) 2 <= 2 ^ 30 - 1)%Z as Hmid.
    { unfold int_div, int_add. rewrite int_wrap_small by lia.
      rewrite Z.quot_div_nonneg by lia.
      pose proof (Z.div_mod (imin + (2 ^ 30 + 1)) 2 ltac:(lia)).
      pose proof (Z.mod_pos_bound (imin + (2 ^ 30 + 1)) 2 ltac:(lia)).
      lia. }
    set (imid := int_div (int_add imin (2 ^ 30 + 1)) 2) in *.
    unfold overflow_mesh at 1.
    rewrite read_linear_mesh by (unfold overflow_size; lia).
    cbn [bind].
    assert (Qgtb overflow_query (inject_Z imid) = true) as ->.
    { apply Qgtb_gt. unfold overflow_query, Qlt. simpl. lia. }
    apply IH; lia.
Qed.

(** The search for [overflow_query] in [overflow_mesh] returns no index. *)
Lemma findMeshIndex_overflow (sign : Z) :
  findMeshIndex overflow_mesh overflow_size overflow_query sign = Undefined.
Proof.
  unfold findMeshIndex. cbv zeta. unfold overflow_mesh at 1 2.
  rewrite !read_linear_mesh by (unfold overflow_size; lia).
  cbn [bind].
  assert (Qltb overflow_query (inject_Z 0) = false) as -> by reflexivity.
  assert (Qgtb overflow_query (inject_Z (overflow_size - 1)) = false) as ->
      by reflexivity.
  replace (overflow_size - 1)%Z with (2 ^ 30 + 1)%Z by (unfold overflow_size; lia).
  apply findMeshIndex_loop_overflow; [lia |].
  rewrite Z2Nat.id by (unfold overflow_size; lia). unfold overflow_size. lia.
Qed.

Lemma overflow_input_well_formed :
  (2 <= overflow_size)%Z /\
  Z.of_nat (length overflow_mesh) = overflow_size /\
  strictly_increasing overflow_mesh = true /\
  read overflow_mesh 0 = Ok (inject_Z 0) /\
  read overflow_mesh (overflow_size - 1) = Ok (inject_Z (overflow_size - 1)) /\
  read overflow_mesh (2 ^ 30) = Ok (inject_Z (2 ^ 30)) /\
  read overflow_mesh (2 ^ 30 + 1) = Ok (inject_Z (2 ^ 30 + 1)).
Proof.
  unfold overflow_mesh.
  repeat (apply conj);
    try (apply read_linear_mesh; unfold overflow_size; lia).
  - unfold overflow_size. lia.
  - apply length_linear_mesh. unfold overflow_size. lia.
  - apply strictly_increasing_linear_mesh.
Qed.

(** C2.  Beyond the [int] range the code does not do what C2 states.  On
    the strictly increasing array of the [2^30 + 2] boundary values
    [0, 1, ..., 2^30 + 1] and the query [2^30 + 1/2], within its range and strictly between the
    last two boundaries, [findMeshIndex] returns no index [i] with
    [values[i] <= val <= values[i+1]], for either sign: once [imin] is
    [2^30 - 1] the sum [imin + imax] of line 807 is [2^31], which is not an
    [int]; wrapped around, the midpoint is [- 2^30] and [values] is read
    there. *)
Theorem findMeshIndex_midpoint_overflow_brackets_nothing :
  (2 <= overflow_size)%Z /\
  Z.of_nat (length overflow_mesh) = overflow_size /\
  strictly_increasing overflow_mesh = true /\
  read overflow_mesh (2 ^ 30) = Ok (inject_Z (2 ^ 30)) /\
  read overflow_mesh (2 ^ 30 + 1) = Ok (inject_Z (2 ^ 30 + 1)) /\
  inject_Z (2 ^ 30) < overflow_query /\
  overflow_query < inject_Z (2 ^ 30 + 1) /\
  (forall sign,
      findMeshIndex overflow_mesh overflow_size overflow_query sign = Undefined) /\
  (forall sign,
      ~ exists i lo hi,
          findMeshIndex overflow_mesh overflow_size overflow_query sign = Ok i /\
          read overflow_mesh i = Ok lo /\ read overflow_mesh (i + 1)%Z = Ok hi /\
          lo <= overflow_query /\ overflow_query <= hi).
Proof.
  destruct overflow_input_well_formed as (Hsz & Hlen & Hinc & _ & _ & Hlo & Hhi).
  split; [exact Hsz |]. split; [exact Hlen |]. split; [exact Hinc |].
  split; [exact Hlo |]. split; [exact Hhi |].
  split; [unfold overflow_query, Qlt; simpl; lia |].
  split; [unfold overflow_query, Qlt; simpl; lia |].
  split.
  - apply findMeshIndex_overflow.
  - intros sign (i & lo & hi & Hres & _).
    rewrite findMeshIndex_overflow in Hres. discriminate.
Qed.

(** C6.  Beyond the [int] range the code does not do what C6 states.  The
    query [2^30 + 1/2] lies within the range of the array of the [2^30 + 2] boundary values
    [0, 1, ..., 2^30 + 1], and [findMeshIndex] neither raises its fatal error
    nor completes with an index: the midpoint computed from the sum
    [imin + imax = 2^31] is outside the array. *)
Theorem findMeshIndex_midpoint_overflow_in_range_no_index :
  read overflow_mesh 0 = Ok (inject_Z 0) /\
  read overflow_mesh (overflow_size - 1) = Ok (inject_Z (overflow_size - 1)) /\
  inject_Z 0 <= overflow_query /\
  overflow_query <= inject_Z (overflow_size - 1) /\
  (forall sign,
      (forall msg,
          findMeshIndex overflow_mesh overflow_size overflow_query sign
          <> Fatal msg) /\
      (forall i,
          findMeshIndex overflow_mesh overflow_size overflow_query sign
          <> Ok i)).
Proof.
  destruct overflow_input_well_formed as (_ & _ & _ & Hmin & Hmax & _).
  split; [exact Hmin |]. split; [exact Hmax |].
  split; [unfold overflow_query, Qle; simpl; lia |].
  split; [unfold overflow_query, overflow_size, Qle; simpl; lia |].
  intros sign. rewrite findMeshIndex_overflow. split; intros; discriminate.
Qed.

(** C10.  Beyond the [int] range the code does not do what C10 states.  On
    the strictly increasing array of the [2^30 + 2] boundary values
    [0, 1, ..., 2^30 + 1] and the query [2^30 + 1/2] within its range, [findMeshIndex] returns no
    index of [[0, size - 2]], for either sign: it reads [values] at the
    negative midpoint that the sum [imin + imax = 2^31] gives. *)
Theorem findMeshIndex_midpoint_overflow_no_valid_cell :
  (2 <= overflow_size)%Z /\
  Z.of_nat (length overflow_mesh) = overflow_size /\
  strictly_increasing overflow_mesh = true /\
  inject_Z 0 <= overflow_query /\
  overflow_query <= inject_Z (overflow_size - 1) /\
  (forall sign,
      ~ exists i,
          findMeshIndex overflow_mesh overflow_size overflow_query sign = Ok i /\
          (0 <= i <= overflow_size - 2)%Z).
Proof.
  destruct overflow_input_well_formed as (Hsz & Hlen & Hinc & _).
  split; [exact Hsz |]. split; [exact Hlen |]. split; [exact Hinc |].
  split; [unfold overflow_query, Qle; simpl; lia |].
  split; [unfold overflow_query, overflow_size, Qle; simpl; lia |].
  intros sign (i & Hres & _).
  rewrite findMeshIndex_overflow in Hres. discriminate.
Qed.
